(** * Analog Devices ADuCM3029 / ADuCM4050 HAL: GPIO interrupt demultiplexer,
      low-power ticker and random number generator

    A shallow embedding of
      - targets/.../TARGET_ADUCM3029/api/gpio_irq_api.c     ([GpioIrq], [GpioOps])
      - targets/.../TARGET_ADZS_U4050LF_EZKIT/api/lp_ticker_api.c
                                                 ([Float32], [LpTicker])
      - targets/.../TARGET_ADUCM3029/api/trng_api.c         ([Trng])
    followed by what is proved of them ([GpioIrqFacts], [Float32Facts],
    [ConversionFacts], [RoundTripFacts], [LpTickerFacts], [GpioApiFacts],
    [LpTickerApiFacts], [TrngFacts]).

    C integers are [Z] (or [N] for the 16-bit pin mask) with their
    wrap-around written out; [float] is IEEE 754 binary32 as specified by
    the Standard Library's [SpecFloat].  The vendor drivers are not part of
    these files: the GPIO driver is an interface ([Class adi_gpio]), the
    RTC driver is a log of the calls made into it together with an oracle
    for the free-running counter. *)

From Stdlib Require Import ZArith NArith Bool Lia List.
From Stdlib Require Import Floats.SpecFloat.
From stdpp Require Import base option list sorting.
From Equations Require Import Equations.
Import ListNotations.

Local Open Scope Z_scope.

(** ** Machine integers *)

Definition u16 (x : Z) : Z := x mod 2 ^ 16.
Definition u32 (x : Z) : Z := x mod 2 ^ 32.

(** The null pointer (function pointers are modelled by their address). *)
Definition NULL : Z := 0.

(* ===================================================================== *)
(** * gpio_irq_api.c                                                      *)
(* ===================================================================== *)

Module GpioIrq.

Definition MAX_GPIO_LINES : Z := 16.
Definition MAX_GPIO_PORTS : Z := 3.

(** [gpio_irq_event] of the HAL header: the edge a pin is armed for. *)
Inductive gpio_irq_event : Type := IRQ_NONE | IRQ_RISE | IRQ_FALL.

Definition gpio_irq_event_eqb (a b : gpio_irq_event) : bool :=
  match a, b with
  | IRQ_NONE, IRQ_NONE | IRQ_RISE, IRQ_RISE | IRQ_FALL, IRQ_FALL => true
  | _, _ => false
  end.

(** [gpio_chan_info_t]: one slot of the channel table.  An [id] is an
    [unsigned int] and is only ever assigned from, and cast to, [uint32_t]
    values: those casts keep the value and are not written out. *)
Record gpio_chan_info_t : Type := mk_chan {
  id : Z;                     (* unsigned int id *)
  event : gpio_irq_event;     (* gpio_irq_event event *)
  int_enable : Z              (* uint8_t int_enable *)
}.

(** [gpio_irq_t]: the caller's pin object. *)
Record gpio_irq_t : Type := mk_obj {
  obj_id : Z;
  pinname : Z
}.

(** The two group interrupt lines of the GPIO block. *)
Inductive IRQn_Type : Type := SYS_GPIO_INTA_IRQn | SYS_GPIO_INTB_IRQn.

(** The vendor GPIO driver (adi_gpio.h), consumed as an interface: [hw] is
    the state of the GPIO block, every entry point acts on it.  Functions
    that hand a value back through a pointer return that value.  The only
    callback ever registered is [gpio_irq_callback], which does not use its
    parameter: [adi_gpio_RegisterCallback] keeps the interrupt line only. *)
Class adi_gpio (hw : Type) : Type := {
  adi_gpio_Init : hw -> hw;
  adi_gpio_GetGroupInterruptPins : Z -> IRQn_Type -> Z -> hw -> Z;
  adi_gpio_SetGroupInterruptPins : Z -> IRQn_Type -> Z -> hw -> hw;
  adi_gpio_InputEnable : Z -> Z -> bool -> hw -> hw;
  adi_gpio_GetGroupInterruptPolarity : Z -> Z -> hw -> Z;
  adi_gpio_SetGroupInterruptPolarity : Z -> Z -> hw -> hw;
  adi_gpio_RegisterCallback : IRQn_Type -> hw -> hw
}.

(** One invocation of the user handler: the function called and its two
    arguments. *)
Record isr_call : Type := mk_call {
  call_fn : Z;
  call_id : Z;
  call_event : gpio_irq_event
}.

(** The channel table [channel_ids[MAX_GPIO_PORTS][MAX_GPIO_LINES]]. *)
Abbreviation chan_table := (list (list gpio_chan_info_t)).

Definition unused_chan : gpio_chan_info_t := mk_chan 0 IRQ_NONE 0.

(** The table as the C runtime zero-initialises it. *)
Definition channel_ids_init : chan_table :=
  replicate (Z.to_nat MAX_GPIO_PORTS) (replicate (Z.to_nat MAX_GPIO_LINES) unused_chan).

(** Reading [channel_ids[port][line]]; [None] is an access outside the
    array, which C leaves undefined. *)
Definition chan_at (t : chan_table) (port line : Z) : option gpio_chan_info_t :=
  if (0 <=? port) && (0 <=? line) then
    row ← t !! Z.to_nat port; row !! Z.to_nat line
  else None.

(** Writing one slot through [f]; [None] outside the array. *)
Definition chan_update (t : chan_table) (port line : Z)
    (f : gpio_chan_info_t -> gpio_chan_info_t) : option chan_table :=
  if (0 <=? port) && (0 <=? line) then
    row ← t !! Z.to_nat port;
    c ← row !! Z.to_nat line;
    Some (<[Z.to_nat port := <[Z.to_nat line := f c]> row]> t)
  else None.

Definition set_id (v : Z) (c : gpio_chan_info_t) : gpio_chan_info_t :=
  mk_chan v (event c) (int_enable c).
Definition set_event (v : gpio_irq_event) (c : gpio_chan_info_t) : gpio_chan_info_t :=
  mk_chan (id c) v (int_enable c).
Definition set_int_enable (v : Z) (c : gpio_chan_info_t) : gpio_chan_info_t :=
  mk_chan (id c) (event c) v.

(** The table has its declared shape. *)
Definition table_wf (t : chan_table) : Prop :=
  length t = Z.to_nat MAX_GPIO_PORTS /\
  Forall (fun row => length row = Z.to_nat MAX_GPIO_LINES) t.

Section Driver.

Context {hw : Type} `{Drv : adi_gpio hw}.

(** The file's static data plus the two externs it shares with gpio_api.c
    and the state of the GPIO block. *)
Record gpio_state : Type := mk_state {
  channel_ids : chan_table;
  irq_handler : Z;
  gpio_initialized : Z;
  regs : hw
}.

Definition with_channel_ids (t : chan_table) (st : gpio_state) : gpio_state :=
  mk_state t (irq_handler st) (gpio_initialized st) (regs st).
Definition with_irq_handler (h : Z) (st : gpio_state) : gpio_state :=
  mk_state (channel_ids st) h (gpio_initialized st) (regs st).
Definition with_gpio_initialized (v : Z) (st : gpio_state) : gpio_state :=
  mk_state (channel_ids st) (irq_handler st) v (regs st).
Definition with_regs (r : hw) (st : gpio_state) : gpio_state :=
  mk_state (channel_ids st) (irq_handler st) (gpio_initialized st) r.

(** *** gpio_irq_callback *)

(** The body of one iteration of [while (pin)]: the handler is called when
    bit 0 of the remaining mask is set and a handler is registered. *)
Definition callback_body (st : gpio_state) (Event : Z) (pin : N) (index : Z)
    (calls : list isr_call) : option (list isr_call) :=
  if negb (N.land pin 1 =? 0)%N then
    if negb (irq_handler st =? NULL) then
      c ← chan_at (channel_ids st) Event index;
      Some (calls ++ [mk_call (irq_handler st) (id c) (event c)])
    else Some calls
  else Some calls.

(** The loop, by recursion on the remaining mask; it hands back the final
    value of [index] with the calls made. *)
Equations? callback_loop (st : gpio_state) (Event : Z) (pin : N) (index : Z)
    (calls : list isr_call) : option (Z * list isr_call) by wf (N.to_nat pin) lt :=
  callback_loop st Event pin index calls with N.eq_dec pin 0%N := {
    | left _ := Some (index, calls)
    | right _ with callback_body st Event pin index calls := {
      | None := None
      | Some calls' := callback_loop st Event (N.shiftr pin 1) (index + 1) calls' } }.
Proof.
  rewrite N.shiftr_div_pow2. change (2 ^ 1)%N with 2%N.
  assert (pin / 2 < pin)%N by (apply N.div_lt; lia). lia.
Qed.

(** [pArg] points at the [uint16_t] mask of pins that fired. *)
Definition gpio_irq_callback (st : gpio_state) (Event : Z) (pArg : N)
    : option (list isr_call) :=
  let pin := (pArg mod 2 ^ 16)%N in
  snd <$> callback_loop st Event pin 0 [].

(** *** Pin names

    [PinNames.h] is not part of these files: the shift that separates the
    port number from the line number and the "not connected" sentinel are
    taken as parameters. *)
Variable GPIO_PORT_SHIFT : Z.
Variable NC : Z.

Definition pin_port (pin : Z) : Z := u32 (Z.shiftr pin GPIO_PORT_SHIFT).
Definition pin_line (pin : Z) : Z := u32 (Z.land pin 255).

(** A pin name that designates a slot of the channel table. *)
Definition valid_pin (pin : Z) : Prop :=
  pin_port pin < MAX_GPIO_PORTS /\ pin_line pin < MAX_GPIO_LINES.

(** *** disable_pin_interrupt, enable_pin_interrupt *)

Definition disable_pin_interrupt (port pin_number : Z) (r : hw) : hw :=
  let int_reg_val :=
    u16 (adi_gpio_GetGroupInterruptPins port SYS_GPIO_INTA_IRQn
           (u16 (Z.shiftl 1 pin_number)) r) in
  let int_reg_val := u16 (Z.land int_reg_val (Z.lnot (Z.shiftl 1 pin_number))) in
  let r := adi_gpio_SetGroupInterruptPins port SYS_GPIO_INTA_IRQn int_reg_val r in
  let int_reg_val :=
    u16 (adi_gpio_GetGroupInterruptPins port SYS_GPIO_INTB_IRQn
           (u16 (Z.shiftl 1 pin_number)) r) in
  let int_reg_val := u16 (Z.land int_reg_val (Z.lnot (Z.shiftl 1 pin_number))) in
  adi_gpio_SetGroupInterruptPins port SYS_GPIO_INTB_IRQn int_reg_val r.

Definition enable_pin_interrupt (port pin_number : Z) (eIrq : IRQn_Type) (r : hw) : hw :=
  let int_reg_val :=
    u16 (adi_gpio_GetGroupInterruptPins port eIrq (u16 (Z.shiftl 1 pin_number)) r) in
  let int_reg_val := u16 (Z.lor int_reg_val (Z.shiftl 1 pin_number)) in
  adi_gpio_SetGroupInterruptPins port eIrq int_reg_val r.

(** *** gpio_irq_enable, gpio_irq_disable *)

Definition gpio_irq_enable (obj : gpio_irq_t) (st : gpio_state) : option gpio_state :=
  let port := pin_port (pinname obj) in
  let pin_num := pin_line (pinname obj) in
  c ← chan_at (channel_ids st) port pin_num;
  if gpio_irq_event_eqb (event c) IRQ_NONE then Some st
  else
    let st :=
      if gpio_irq_event_eqb (event c) IRQ_RISE then
        with_regs (enable_pin_interrupt port pin_num SYS_GPIO_INTA_IRQn
                     (adi_gpio_RegisterCallback SYS_GPIO_INTA_IRQn (regs st))) st
      else if gpio_irq_event_eqb (event c) IRQ_FALL then
        with_regs (enable_pin_interrupt port pin_num SYS_GPIO_INTB_IRQn
                     (adi_gpio_RegisterCallback SYS_GPIO_INTB_IRQn (regs st))) st
      else st in
    t ← chan_update (channel_ids st) port pin_num (set_int_enable 1);
    Some (with_channel_ids t st).

Definition gpio_irq_disable (obj : gpio_irq_t) (st : gpio_state) : option gpio_state :=
  let port := pin_port (pinname obj) in
  let pin_num := pin_line (pinname obj) in
  c ← chan_at (channel_ids st) port pin_num;
  if gpio_irq_event_eqb (event c) IRQ_NONE then Some st
  else
    let st :=
      if gpio_irq_event_eqb (event c) IRQ_RISE then
        with_regs (disable_pin_interrupt port pin_num (regs st)) st
      else if gpio_irq_event_eqb (event c) IRQ_FALL then
        with_regs (disable_pin_interrupt port pin_num (regs st)) st
      else st in
    t ← chan_update (channel_ids st) port pin_num (set_int_enable 0);
    Some (with_channel_ids t st).

(** *** gpio_irq_init

    The result is the status, the pin object and the state; [None] when the
    pin name leads outside the channel table. *)
Definition gpio_irq_init (obj : gpio_irq_t) (pin : Z) (handler : Z) (id : Z)
    (st : gpio_state) : option (Z * gpio_irq_t * gpio_state) :=
  let port := pin_port pin in
  let pin_num := pin_line pin in
  if (pin =? NC) || (id =? 0) then Some (-1, obj, st)
  else
    let st :=
      if gpio_initialized st =? 0 then
        with_gpio_initialized 1 (with_regs (adi_gpio_Init (regs st)) st)
      else st in
    let st := if negb (handler =? NULL) then with_irq_handler handler st else st in
    let st := with_regs (disable_pin_interrupt port pin_num (regs st)) st in
    let st :=
      with_regs (adi_gpio_InputEnable port (u16 (Z.shiftl 1 pin_num)) true (regs st)) st in
    t ← chan_update (channel_ids st) port pin_num (set_id id);
    t ← chan_update t port pin_num (set_event IRQ_NONE);
    t ← chan_update t port pin_num (set_int_enable 0);
    Some (0, mk_obj id pin, with_channel_ids t st).

(** *** gpio_irq_free *)

Definition gpio_irq_free (obj : gpio_irq_t) (st : gpio_state) : option gpio_state :=
  let port := pin_port (pinname obj) in
  let pin_num := pin_line (pinname obj) in
  st ← gpio_irq_disable obj st;
  t ← chan_update (channel_ids st) port pin_num (set_id 0);
  t ← chan_update t port pin_num (set_event IRQ_NONE);
  t ← chan_update t port pin_num (set_int_enable 0);
  Some (with_channel_ids t st).

(** *** gpio_irq_set *)

Definition gpio_irq_set (obj : gpio_irq_t) (ev : gpio_irq_event) (enable : Z)
    (st : gpio_state) : option gpio_state :=
  let port := pin_port (pinname obj) in
  let pin_num := pin_line (pinname obj) in
  if gpio_irq_event_eqb ev IRQ_NONE then Some st
  else
    let int_polarity_reg :=
      u16 (adi_gpio_GetGroupInterruptPolarity port (u16 (Z.shiftl 1 pin_num)) (regs st)) in
    let int_polarity_reg :=
      if gpio_irq_event_eqb ev IRQ_RISE then
        u16 (Z.lor int_polarity_reg (Z.shiftl 1 pin_num))
      else
        u16 (Z.land int_polarity_reg (Z.lnot (Z.shiftl 1 pin_num))) in
    let st :=
      with_regs (adi_gpio_SetGroupInterruptPolarity port int_polarity_reg (regs st)) st in
    t ← chan_update (channel_ids st) port pin_num (set_event ev);
    let st := with_channel_ids t st in
    if negb (enable =? 0) then gpio_irq_enable obj st else gpio_irq_disable obj st.

End Driver.

Arguments gpio_state : clear implicits.

End GpioIrq.

(** ** A register-level stand-in for the GPIO block

    Used to run the code on concrete inputs: per port the two group
    interrupt enable registers, the polarity register and the input enable
    register, and the group lines that have a callback bound. *)
Module GpioSim.
Import GpioIrq.

Record port_regs : Type := mk_port {
  IENA : Z;
  IENB : Z;
  POL : Z;
  IEN : Z
}.

Record gpio_block : Type := mk_block {
  ports : list port_regs;
  bound : list IRQn_Type;
  opened : bool
}.

Definition reset : gpio_block :=
  mk_block (replicate 3 (mk_port 0 0 0 0)) [] false.

Definition port_get (b : gpio_block) (port : Z) : port_regs :=
  default (mk_port 0 0 0 0) (ports b !! Z.to_nat port).

Definition port_set (port : Z) (r : port_regs) (b : gpio_block) : gpio_block :=
  mk_block (<[Z.to_nat port := r]> (ports b)) (bound b) (opened b).

#[global] Instance driver : adi_gpio gpio_block := {
  adi_gpio_Init b := mk_block (ports b) (bound b) true;
  adi_gpio_GetGroupInterruptPins port irq pins b :=
    match irq with
    | SYS_GPIO_INTA_IRQn => IENA (port_get b port)
    | SYS_GPIO_INTB_IRQn => IENB (port_get b port)
    end;
  adi_gpio_SetGroupInterruptPins port irq v b :=
    let r := port_get b port in
    match irq with
    | SYS_GPIO_INTA_IRQn => port_set port (mk_port v (IENB r) (POL r) (IEN r)) b
    | SYS_GPIO_INTB_IRQn => port_set port (mk_port (IENA r) v (POL r) (IEN r)) b
    end;
  adi_gpio_InputEnable port pins en b :=
    let r := port_get b port in
    port_set port
      (mk_port (IENA r) (IENB r) (POL r)
         (if en then Z.lor (IEN r) pins else Z.land (IEN r) (Z.lnot pins))) b;
  adi_gpio_GetGroupInterruptPolarity port pins b := POL (port_get b port);
  adi_gpio_SetGroupInterruptPolarity port v b :=
    let r := port_get b port in
    port_set port (mk_port (IENA r) (IENB r) v (IEN r)) b;
  adi_gpio_RegisterCallback irq b := mk_block (ports b) (irq :: bound b) (opened b)
}.

(** The state at start-up: zeroed table, no handler, driver not opened. *)
Definition boot : gpio_state gpio_block :=
  mk_state channel_ids_init NULL 0 reset.

End GpioSim.

(** ** Vocabulary for the statements about gpio_irq_api.c *)
Module GpioSpec.
Import GpioIrq.

(** The positions of the set bits of a 16-bit mask, lowest first. *)
Definition set_bits (M : N) : list Z :=
  filter (fun i => N.testbit M (Z.to_N i) = true) (seqZ 0 16).

(** The number of set bits, counted on the binary representation. *)
Fixpoint pos_popcount (p : positive) : nat :=
  match p with
  | xH => 1
  | xO p => pos_popcount p
  | xI p => S (pos_popcount p)
  end.

Definition popcount (M : N) : nat :=
  match M with N0 => 0%nat | Npos p => pos_popcount p end.

(** The call the demultiplexer makes for line [i] of port [Event]. *)
Definition dispatch {hw : Type} (st : gpio_state hw) (Event : Z) (i : Z) : isr_call :=
  let c := default unused_chan (chan_at (channel_ids st) Event i) in
  mk_call (irq_handler st) (id c) (event c).

(** The table with slot [(port, line)] overwritten by [c]. *)
Definition slot_write (t : chan_table) (port line : Z) (c : gpio_chan_info_t) : chan_table :=
  <[Z.to_nat port := <[Z.to_nat line := c]> (default [] (t !! Z.to_nat port))]> t.

(** A state for the examples: handler at address 4096, port 1 with line 0
    armed for rising and line 2 for falling edges. *)
Definition demo_state : gpio_state GpioSim.gpio_block :=
  mk_state (<[1%nat := <[2%nat := mk_chan 9 IRQ_FALL 1]>
                        (<[0%nat := mk_chan 7 IRQ_RISE 1]>
                           (replicate 16 unused_chan))]> channel_ids_init)
           4096 1 GpioSim.reset.

(** Concrete pin names for the examples: port in bits 12 and up, line in
    the low byte, [NC] all ones. *)
Definition demo_shift : Z := 12.
Definition demo_NC : Z := -1.
Definition demo_pin : Z := 4098.
Definition demo_obj : gpio_irq_t := mk_obj 9 demo_pin.

(** [demo_state] with the slot of [demo_pin] never used. *)
Definition demo_fresh : gpio_state GpioSim.gpio_block :=
  with_channel_ids (slot_write (channel_ids demo_state) 1 2 unused_chan) demo_state.

End GpioSpec.

(* ===================================================================== *)
(** * Single-precision arithmetic                                         *)
(* ===================================================================== *)

(** The C type [float] on the Cortex-M4F is IEEE 754 binary32: a 24-bit
    significand, infinities at exponent 128, round to nearest even.  The
    operations are those of the Standard Library's [SpecFloat]. *)
Module Float32.

Definition prec : Z := 24.
Definition emax : Z := 128.

(** [(float)n] for an integer [n]. *)
Definition of_Z (n : Z) : spec_float := binary_normalize prec emax n 0 false.

Definition mul : spec_float -> spec_float -> spec_float := SFmul prec emax.
Definition div : spec_float -> spec_float -> spec_float := SFdiv prec emax.

(** The integral part of a finite value. *)
Definition trunc (f : spec_float) : option Z :=
  match f with
  | S754_zero _ => Some 0
  | S754_finite s m e => Some (cond_Zopp s (Z.shiftl (Z.pos m) e))
  | S754_infinity _ | S754_nan => None
  end.

(** [(uint32_t)f]: the fractional part is discarded; C leaves the
    conversion undefined ([None]) when the integral part is not a
    [uint32_t]. *)
Definition to_u32 (f : spec_float) : option Z :=
  v ← trunc f;
  if (0 <=? v) && (v <? 2 ^ 32) then Some v else None.

End Float32.

(* ===================================================================== *)
(** * lp_ticker_api.c                                                     *)
(* ===================================================================== *)

Module LpTicker.

Definition LFCLK_FREQUENCY_HZ : Z := 32768.
Definition RTC_PRESCALER : Z := 0.

(** [((float)1000000/(float)(LFCLK_FREQUENCY_HZ>>RTC_PRESCALER))] *)
Definition TIME_US_PER_TICK : spec_float :=
  Float32.div (Float32.of_Z 1000000)
              (Float32.of_Z (Z.shiftr LFCLK_FREQUENCY_HZ RTC_PRESCALER)).

Definition TICKS_TO_ENABLE_ALARM : Z := 50.

(** [(uint32_t)((float)(timestamp) / TIME_US_PER_TICK)] *)
Definition us_to_ticks (timestamp : Z) : option Z :=
  Float32.to_u32 (Float32.div (Float32.of_Z timestamp) TIME_US_PER_TICK).

(** [t = (float)count * TIME_US_PER_TICK; count = (uint32_t)t;] *)
Definition ticks_to_us (count : Z) : option Z :=
  Float32.to_u32 (Float32.mul (Float32.of_Z count) TIME_US_PER_TICK).

(** What the file does to the outside world, in order: calls into the RTC
    driver (adi_rtc.h) and calls of the ticker layer's expiration handler
    [lp_ticker_irq_handler]. *)
Inductive rtc_event : Type :=
  | EvGetCount (count : Z)
  | EvEnableInterrupts (mask : Z) (enable : bool)
  | EvSetAlarm (alarm : Z)
  | EvEnableAlarm (enable : bool)
  | EvIrqHandler.

Definition is_irq_handler (e : rtc_event) : bool :=
  match e with EvIrqHandler => true | _ => false end.

(** The events that program, enable or unmask the alarm comparator. *)
Definition touches_alarm (e : rtc_event) : bool :=
  match e with
  | EvEnableInterrupts _ _ | EvSetAlarm _ | EvEnableAlarm _ => true
  | EvGetCount _ | EvIrqHandler => false
  end.

(** How often the counter has been sampled, and the events so far. *)
Record rtc_world : Type := mk_world {
  reads : nat;
  log : list rtc_event
}.

Definition emit (e : rtc_event) (w : rtc_world) : rtc_world :=
  mk_world (reads w) (log w ++ [e]).

Section Rtc.

(** The free-running 32-bit counter: [rtc_count n] is what the [n]-th
    sampling of the count register shows. *)
Variable rtc_count : nat -> Z.

(** The bit of the event word that reports an alarm match; adi_rtc.h is not
    part of these files, the position of the bit is a parameter. *)
Variable alarm_bit : Z.

Definition ADI_RTC_ALARM_INT : Z := Z.shiftl 1 alarm_bit.

Definition adi_rtc_GetCount (w : rtc_world) : Z * rtc_world :=
  let count := u32 (rtc_count (reads w)) in
  (count, mk_world (S (reads w)) (log w ++ [EvGetCount count])).

Definition adi_rtc_EnableInterrupts (mask : Z) (enable : bool) : rtc_world -> rtc_world :=
  emit (EvEnableInterrupts mask enable).
Definition adi_rtc_SetAlarm (alarm : Z) : rtc_world -> rtc_world :=
  emit (EvSetAlarm alarm).
Definition adi_rtc_EnableAlarm (enable : bool) : rtc_world -> rtc_world :=
  emit (EvEnableAlarm enable).
Definition lp_ticker_irq_handler : rtc_world -> rtc_world :=
  emit EvIrqHandler.

(** *** rtc1_Callback *)
Definition rtc1_Callback (nEvent : Z) (w : rtc_world) : rtc_world :=
  if negb (Z.land ADI_RTC_ALARM_INT nEvent =? 0) then lp_ticker_irq_handler w
  else w.

(** *** lp_ticker_read *)
Definition lp_ticker_read (w : rtc_world) : option (Z * rtc_world) :=
  let '(count, w) := adi_rtc_GetCount w in
  count ← ticks_to_us count;
  Some (count, w).

(** [do { adi_rtc_GetCount(...); } while (rtcCount < set_time);] with a
    bound on the number of samplings; [None] when the bound is used up. *)
Fixpoint poll_count (fuel : nat) (set_time : Z) (w : rtc_world) : option (Z * rtc_world) :=
  match fuel with
  | O => None
  | S fuel =>
      let '(rtcCount, w) := adi_rtc_GetCount w in
      if rtcCount <? set_time then poll_count fuel set_time w
      else Some (rtcCount, w)
  end.

(** *** lp_ticker_set_interrupt *)
Definition lp_ticker_set_interrupt (fuel : nat) (timestamp : Z) (w : rtc_world)
    : option rtc_world :=
  set_time ← us_to_ticks timestamp;
  let '(rtcCount, w) := adi_rtc_GetCount w in
  if set_time <=? rtcCount then
    Some (rtc1_Callback ADI_RTC_ALARM_INT w)
  else if set_time <=? u32 (rtcCount + TICKS_TO_ENABLE_ALARM) then
    '(rtcCount, w) ← poll_count fuel set_time w;
    Some (rtc1_Callback ADI_RTC_ALARM_INT w)
  else
    let '(cnt0, w) := adi_rtc_GetCount w in
    let w := adi_rtc_EnableInterrupts ADI_RTC_ALARM_INT true w in
    let w := adi_rtc_SetAlarm set_time w in
    let w := adi_rtc_EnableAlarm true w in
    let '(cnt1, w) := adi_rtc_GetCount w in
    Some w.

(** *** lp_ticker_disable_interrupt, lp_ticker_clear_interrupt *)
Definition lp_ticker_disable_interrupt (w : rtc_world) : rtc_world :=
  let w := adi_rtc_EnableAlarm false w in
  adi_rtc_EnableInterrupts ADI_RTC_ALARM_INT false w.

Definition lp_ticker_clear_interrupt (w : rtc_world) : rtc_world := w.

End Rtc.

End LpTicker.

(** ** Vocabulary for the statements about single-precision arithmetic *)
Module Float32Spec.

(** Where the fraction N/D lies between its integral part and the next
    integer: on it, or below, at or above the midpoint. *)
Definition loc (N D : Z) : location :=
  if N mod D =? 0 then loc_Exact else loc_Inexact (2 * (N mod D) ?= D).

(** N/D rounded to the nearest integer, ties to the even one. *)
Definition rne (N D : Z) : Z := round_nearest_even (N / D) (loc N D).

(** The float with significand [M] in [2^23, 2^24] and exponent [E]. *)
Definition normalize24 (M E : Z) : spec_float :=
  if M =? 2 ^ 24 then S754_finite false (Z.to_pos (2 ^ 23)) (E + 1)
  else S754_finite false (Z.to_pos M) E.

(** The number of bits of N/D beyond 24. *)
Definition excess (N D : Z) : Z := Z.log2 (N / D) + 1 - 24.

(** N/D * 2^e, for N/D of at least 24 bits, rounded to 24 bits. *)
Definition round24 (N D e : Z) : spec_float :=
  let n := excess N D in
  normalize24 (rne N (D * 2 ^ n)) (e + n).

(** The order of positive floats with 24-bit significands. *)
Definition fle (f g : spec_float) : Prop :=
  match f, g with
  | S754_finite false m e, S754_finite false m' e' =>
      e < e' \/ (e = e' /\ (Z.pos m <= Z.pos m'))
  | _, _ => False
  end.

(** Positive floats with full 24-bit significands. *)
Definition normal24 (f : spec_float) : Prop :=
  match f with
  | S754_finite false m _ => 2 ^ 23 <= Z.pos m < 2 ^ 24
  | _ => False
  end.

(** The value of a positive float in units of 2^-64, exact for exponents
    from -64 on. *)
Definition scaled (f : spec_float) : Z :=
  match f with
  | S754_finite false m e => Z.pos m * 2 ^ (e + 64)
  | _ => 0
  end.

End Float32Spec.


(** ** Vocabulary for the statements about lp_ticker_api.c *)
Module LpTickerSpec.
Import LpTicker.

(** The samplings number [from], ..., [from + n - 1] of the counter. *)
Definition samplings (rtc_count : nat -> Z) (from n : nat) : list rtc_event :=
  map (fun k => EvGetCount (u32 (rtc_count k))) (seq from n).

(** The float that [us_to_ticks] truncates. *)
Definition ticks_float (timestamp : Z) : spec_float :=
  Float32.div (Float32.of_Z timestamp) TIME_US_PER_TICK.

(** The float that [ticks_to_us] truncates. *)
Definition us_float (count : Z) : spec_float :=
  Float32.mul (Float32.of_Z count) TIME_US_PER_TICK.

(** How often the expiration handler is called in a run of events. *)
Definition handler_calls (l : list rtc_event) : nat :=
  length (filter (fun e => is_irq_handler e = true) l).

(** A world for the examples: nothing has happened yet. *)
Definition power_on : rtc_world := mk_world 0 [].

(** A counter that is sampled twice per tick: 0, 0, 1, 1, 2, 2, ... *)
Definition slow_count (n : nat) : Z := Z.of_nat (n / 2).

(** A counter that stands at 1000 ticks. *)
Definition late_count (n : nat) : Z := 1000.

End LpTickerSpec.


(** ** The GPIO interrupt API as a set of operations *)
Module GpioOps.
Import GpioIrq.

(** One call of the API; the pin objects are passed by value. *)
Inductive gpio_op : Type :=
  | OpInit (obj : gpio_irq_t) (pin handler id : Z)
  | OpFree (obj : gpio_irq_t)
  | OpSet (obj : gpio_irq_t) (ev : gpio_irq_event) (enable : Z)
  | OpEnable (obj : gpio_irq_t)
  | OpDisable (obj : gpio_irq_t).

(** The pin name an operation works on. *)
Definition op_pin (op : gpio_op) : Z :=
  match op with
  | OpInit _ pin _ _ => pin
  | OpFree obj | OpSet obj _ _ | OpEnable obj | OpDisable obj => pinname obj
  end.

(** What the slot of the pin holds after the operation, from what it held
    before: the per-slot reading of the five functions. *)
Definition op_result (NC : Z) (op : gpio_op) (c : gpio_chan_info_t) : gpio_chan_info_t :=
  match op with
  | OpInit _ pin _ id => if (pin =? NC) || (id =? 0) then c else mk_chan id IRQ_NONE 0
  | OpFree _ => unused_chan
  | OpSet _ ev enable =>
      if gpio_irq_event_eqb ev IRQ_NONE then c
      else mk_chan (id c) ev (if enable =? 0 then 0 else 1)
  | OpEnable _ =>
      if gpio_irq_event_eqb (event c) IRQ_NONE then c else set_int_enable 1 c
  | OpDisable _ =>
      if gpio_irq_event_eqb (event c) IRQ_NONE then c else set_int_enable 0 c
  end.

(** A slot is enabled only with an edge, and the flag is 0 or 1. *)
Definition slot_ok (c : gpio_chan_info_t) : Prop :=
  (int_enable c = 0 \/ int_enable c = 1) /\
  (int_enable c = 1 -> event c <> IRQ_NONE).

(** Every slot that can be read is [slot_ok]. *)
Definition slots_ok (t : chan_table) : Prop :=
  forall p l c, chan_at t p l = Some c -> slot_ok c.

Section Ops.
Context {hw : Type} `{Drv : adi_gpio hw}.
Variable GPIO_PORT_SHIFT : Z.
Variable NC : Z.

(** Running one call; the status of [gpio_irq_init] and the pin object it
    fills are dropped. *)
Definition apply_op (op : gpio_op) (st : gpio_state hw) : option (gpio_state hw) :=
  match op with
  | OpInit obj pin handler id =>
      snd <$> gpio_irq_init GPIO_PORT_SHIFT NC obj pin handler id st
  | OpFree obj => gpio_irq_free GPIO_PORT_SHIFT obj st
  | OpSet obj ev enable => gpio_irq_set GPIO_PORT_SHIFT obj ev enable st
  | OpEnable obj => gpio_irq_enable GPIO_PORT_SHIFT obj st
  | OpDisable obj => gpio_irq_disable GPIO_PORT_SHIFT obj st
  end.

(** Running calls one after the other. *)
Fixpoint run (ops : list gpio_op) (st : gpio_state hw) : option (gpio_state hw) :=
  match ops with
  | [] => Some st
  | op :: ops => st ← apply_op op st; run ops st
  end.

End Ops.

(** A session for the examples, run from [GpioSim.boot]: line 2 of port 1
    is claimed, armed for falling edges, switched off and on again. *)
Definition demo_ops : list gpio_op :=
  [OpInit GpioSpec.demo_obj GpioSpec.demo_pin 4096 7;
   OpSet (mk_obj 7 GpioSpec.demo_pin) IRQ_FALL 1;
   OpDisable (mk_obj 7 GpioSpec.demo_pin);
   OpEnable (mk_obj 7 GpioSpec.demo_pin)].

(** The state that session ends in. *)
Definition demo_after : gpio_state GpioSim.gpio_block :=
  default GpioSim.boot (run GpioSpec.demo_shift GpioSpec.demo_NC demo_ops GpioSim.boot).

(** [GpioSpec.demo_state] after its armed line 2 of port 1 is given up. *)
Definition demo_freed : gpio_state GpioSim.gpio_block :=
  default GpioSpec.demo_state
    (apply_op GpioSpec.demo_shift GpioSpec.demo_NC (OpFree GpioSpec.demo_obj)
       GpioSpec.demo_state).

End GpioOps.

(* ===================================================================== *)
(** * trng_api.c                                                          *)
(* ===================================================================== *)

Module Trng.

Definition u8 (x : Z) : Z := x mod 2 ^ 8.

(** The random number generator seen from the file: how often its ready
    flag has been polled and how many data words have been fetched.  The
    flag shown by the [n]-th poll and the word handed out by the [n]-th
    fetch are given by two oracles. *)
Record rng_world : Type := mk_rng {
  polls : nat;
  fetches : nat
}.

Section Rng.
Variable rdy : nat -> bool.
Variable data : nat -> Z.

Definition adi_rng_GetRdyStatus (w : rng_world) : bool * rng_world :=
  (rdy (polls w), mk_rng (S (polls w)) (fetches w)).

Definition adi_rng_GetRngData (w : rng_world) : Z * rng_world :=
  (u32 (data (fetches w)), mk_rng (polls w) (S (fetches w))).

(** [output[i] = v]; [None] is a store outside the buffer. *)
Definition store (output : list Z) (i : Z) (v : Z) : option (list Z) :=
  if decide (Z.to_nat i < length output)%nat then Some (<[Z.to_nat i := v]> output)
  else None.

(** [for (i = 0; i < length; ) { ... }] with a bound on the number of
    polls; [None] when the bound is used up or a store leaves the buffer. *)
Fixpoint get_bytes_loop (fuel : nat) (output : list Z) (length i : Z) (w : rng_world)
    : option (list Z * rng_world) :=
  if i <? length then
    match fuel with
    | O => None
    | S fuel =>
        let '(bRNGRdy, w) := adi_rng_GetRdyStatus w in
        if bRNGRdy then
          let '(nRandomNum, w) := adi_rng_GetRngData w in
          output ← store output i (u8 nRandomNum);
          get_bytes_loop fuel output length (u32 (i + 1)) w
        else get_bytes_loop fuel output length i w
    end
  else Some (output, w).

(** *** trng_get_bytes

    The result is the status, the buffer, [*output_length] and the
    generator. *)
Definition trng_get_bytes (fuel : nat) (output : list Z) (length : Z) (w : rng_world)
    : option (Z * list Z * Z * rng_world) :=
  '(output, w) ← get_bytes_loop fuel output length 0 w;
  Some (0, output, length, w).

End Rng.

End Trng.

(** ** Vocabulary for the statements about trng_api.c *)
Module TrngSpec.
Import Trng.

(** The low bytes of the words number [from], ..., [from + n - 1]. *)
Definition low_bytes (data : nat -> Z) (from n : nat) : list Z :=
  map (fun k => u8 (u32 (data k))) (seq from n).

(** How many of the polls number [from], ..., [from + n - 1] show the
    generator ready. *)
Definition ready_count (rdy : nat -> bool) (from n : nat) : nat :=
  length (filter (fun k => rdy k = true) (seq from n)).

(** A generator that is ready at every third poll and counts its words. *)
Definition demo_rdy (n : nat) : bool := (n mod 3 =? 2)%nat.
Definition demo_data (n : nat) : Z := 4660 + Z.of_nat n.

End TrngSpec.

(* ===================================================================== *)
(** * Facts about gpio_irq_api.c                                          *)
(* ===================================================================== *)

Module GpioIrqFacts.
Import GpioIrq GpioSpec.

 


Lemma chan_at_wf (t : chan_table) (port line : Z) :
  table_wf t -> 0 <= port < MAX_GPIO_PORTS -> 0 <= line < MAX_GPIO_LINES ->
  is_Some (chan_at t port line).
Proof.
  intros [Hlen Hrows] Hp Hl. unfold chan_at, MAX_GPIO_PORTS, MAX_GPIO_LINES in *.
  replace ((0 <=? port) && (0 <=? line)) with true by (symmetry; apply andb_true_iff; split; apply Z.leb_le; lia).
  destruct (lookup_lt_is_Some_2 t (Z.to_nat port)) as [row Hrow]; [lia|].
  rewrite Hrow. simpl.
  apply lookup_lt_is_Some_2.
  rewrite Forall_forall in Hrows. erewrite Hrows by (eapply list_elem_of_lookup_2; eauto).
  lia.
Qed.




 

Section Callback.
Context {hw : Type} `{Drv : adi_gpio hw}.


Lemma callback_loop_unfold (st : gpio_state hw) Event pin index calls :
  callback_loop st Event pin index calls =
  if N.eq_dec pin 0%N then Some (index, calls)
  else match callback_body st Event pin index calls with
       | None => None
       | Some calls' => callback_loop st Event (N.shiftr pin 1) (index + 1) calls'
       end.
Proof.
  simp callback_loop. destruct (N.eq_dec pin 0%N); simpl; [reflexivity|].
  destruct (callback_body st Event pin index calls); reflexivity.
Qed.


Lemma filter_ext_elem {A} (P1 P2 : A -> Prop)
    `{!forall x, Decision (P1 x), !forall x, Decision (P2 x)} (l : list A) :
  (forall x, x ∈ l -> P1 x <-> P2 x) -> filter P1 l = filter P2 l.
Proof.
  induction l as [|a l IH]; intros Hext; [reflexivity|].
  rewrite !filter_cons.
  rewrite IH by (intros x Hx; apply Hext; right; exact Hx).
  destruct (decide (P1 a)) as [H1|H1], (decide (P2 a)) as [H2|H2]; try reflexivity;
    exfalso; apply (Hext a (list_elem_of_here a l)) in H1 || apply (Hext a (list_elem_of_here a l)) in H2; contradiction.
Qed.

Lemma land_1_testbit (pin : N) :
  (N.land pin 1 =? 0)%N = negb (N.testbit pin 0).
Proof. destruct pin as [|[p|p|]]; reflexivity. Qed.

Lemma size_shiftr_1 (pin : N) :
  pin <> 0%N -> N.size pin = N.succ (N.size (N.shiftr pin 1)).
Proof. destruct pin as [|[p|p|]]; intros H; try reflexivity; contradiction. Qed.

Lemma shiftr_1_lt (pin : N) (n : nat) :
  (pin < 2 ^ N.of_nat (S n))%N -> (N.shiftr pin 1 < 2 ^ N.of_nat n)%N.
Proof.
  intros H. rewrite N.shiftr_div_pow2. change (2 ^ 1)%N with 2%N.
  rewrite Nat2N.inj_succ, N.pow_succ_r' in H.
  apply N.Div0.div_lt_upper_bound. lia.
Qed.

Lemma callback_loop_run (st : gpio_state hw) Event :
  table_wf (channel_ids st) -> 0 <= Event < MAX_GPIO_PORTS ->
  forall (n : nat) pin index calls,
    (pin < 2 ^ N.of_nat n)%N -> 0 <= index -> index + Z.of_nat n <= MAX_GPIO_LINES ->
    callback_loop st Event pin index calls =
    Some (index + Z.of_N (N.size pin),
          calls ++ (if irq_handler st =? NULL then []
                    else dispatch st Event <$>
                         filter (fun i => N.testbit pin (Z.to_N (i - index)) = true)
                                (seqZ index (Z.of_nat n)))).
Proof.
  intros Hwf HE n. induction n as [|n IH]; intros pin index calls Hpin Hi Hn.
  - assert (pin = 0%N) as -> by (simpl in Hpin; lia).
    rewrite callback_loop_unfold. simpl.
    destruct (irq_handler st =? NULL); rewrite app_nil_r, Z.add_0_r; reflexivity.
  - rewrite callback_loop_unfold.
    destruct (N.eq_dec pin 0%N) as [->|Hne].
    + simpl N.size. rewrite Z.add_0_r.
      replace (filter _ _) with (@nil Z).
      * destruct (irq_handler st =? NULL); rewrite app_nil_r; reflexivity.
      * symmetry. generalize (seqZ index (Z.of_nat (S n))). intros l.
        induction l as [|a l IHl]; [reflexivity|].
        rewrite filter_cons_False; [exact IHl|]. rewrite N.bits_0. discriminate.
    + rewrite seqZ_cons by lia. rewrite filter_cons.
      replace (Z.to_N (index - index)) with 0%N by lia.
      replace (Z.pred (Z.of_nat (S n))) with (Z.of_nat n) by lia.
      rewrite (filter_ext_elem _
                 (fun i => N.testbit (N.shiftr pin 1) (Z.to_N (i - Z.succ index)) = true)).
      2:{ intros x Hx. apply elem_of_seqZ in Hx. rewrite N.shiftr_spec by lia.
          replace (Z.to_N (x - Z.succ index) + 1)%N with (Z.to_N (x - index)) by lia.
          reflexivity. }
      assert (Hlookup : is_Some (chan_at (channel_ids st) Event index)).
      { apply chan_at_wf; [assumption|assumption|]. unfold MAX_GPIO_LINES in *. lia. }
      destruct Hlookup as [c Hc].
      unfold callback_body. rewrite land_1_testbit, negb_involutive.
      rewrite size_shiftr_1 by assumption.
      specialize (IH (N.shiftr pin 1) (Z.succ index)).
      unfold Z.succ in *.
      destruct (N.testbit pin 0) eqn:Hb0; simpl.
      * destruct (irq_handler st =? NULL) eqn:Hh; simpl.
        -- rewrite IH; [|apply shiftr_1_lt; assumption|lia|lia].
           f_equal. f_equal. lia.
        -- rewrite Hc. simpl.
           rewrite IH; [|apply shiftr_1_lt; assumption|lia|lia].
           destruct (decide (true = true)) as [_|Hf]; [|contradiction].
           rewrite <- app_assoc. simpl.
           f_equal. f_equal; [lia|]. f_equal. f_equal.
           unfold dispatch. rewrite Hc. reflexivity.
      * rewrite IH; [|apply shiftr_1_lt; assumption|lia|lia].
        destruct (decide (false = true)) as [Hf|_]; [discriminate|].
        f_equal. f_equal. lia.
Qed.


Lemma filter_bits_length (n : nat) :
  forall (pin : N) (index : Z),
    (pin < 2 ^ N.of_nat n)%N ->
    length (filter (fun i => N.testbit pin (Z.to_N (i - index)) = true)
                   (seqZ index (Z.of_nat n))) = popcount pin.
Proof.
  induction n as [|n IH]; intros pin index Hpin.
  - assert (pin = 0%N) as -> by (simpl in Hpin; lia). reflexivity.
  - rewrite seqZ_cons by lia. rewrite filter_cons.
    replace (Z.to_N (index - index)) with 0%N by lia.
    replace (Z.pred (Z.of_nat (S n))) with (Z.of_nat n) by lia.
    rewrite (filter_ext_elem _
               (fun i => N.testbit (N.shiftr pin 1) (Z.to_N (i - Z.succ index)) = true)).
    2:{ intros x Hx. apply elem_of_seqZ in Hx. rewrite N.shiftr_spec by lia.
        replace (Z.to_N (x - Z.succ index) + 1)%N with (Z.to_N (x - index)) by lia.
        reflexivity. }
    specialize (IH (N.shiftr pin 1) (Z.succ index) (shiftr_1_lt pin n Hpin)).
    set (L := filter _ (seqZ (Z.succ index) _)) in *.
    assert (Hpop : popcount pin = ((if N.testbit pin 0 then 1 else 0) + popcount (N.shiftr pin 1))%nat)
      by (destruct pin as [|[p|p|]]; reflexivity).
    rewrite Hpop, <- IH.
    destruct (N.testbit pin 0).
    + destruct (decide (true = true)); [|contradiction]. reflexivity.
    + destruct (decide (false = true)); [discriminate|]. reflexivity.
Qed.

Lemma set_bits_length (M : N) : (M < 2 ^ 16)%N -> length (set_bits M) = popcount M.
Proof.
  intros HM. unfold set_bits.
  rewrite <- (filter_bits_length 16 M 0 HM).
  apply (f_equal length). apply list_filter_iff. intros i. rewrite Z.sub_0_r. reflexivity.
Qed.

Lemma set_bits_spec (M : N) (i : Z) :
  i ∈ set_bits M <-> 0 <= i < 16 /\ N.testbit M (Z.to_N i) = true.
Proof.
  unfold set_bits. rewrite list_elem_of_filter, elem_of_seqZ. intuition lia.
Qed.

Lemma StronglySorted_filter_lt (P : Z -> Prop) `{!forall x, Decision (P x)} (l : list Z) :
  StronglySorted Z.lt l -> StronglySorted Z.lt (filter P l).
Proof.
  induction 1 as [|a l Hs IH Ha]; [constructor|].
  rewrite filter_cons. destruct (decide (P a)); [|exact IH].
  constructor; [exact IH|].
  rewrite Forall_forall in *. intros x Hx. apply Ha.
  apply list_elem_of_filter in Hx. tauto.
Qed.

Lemma set_bits_ascending (M : N) : StronglySorted Z.lt (set_bits M).
Proof.
  unfold set_bits. apply StronglySorted_filter_lt.
  repeat (constructor; [|repeat (constructor; try lia)]). constructor.
Qed.

(** C1. For a port [Event] of the table and a 16-bit mask [M], the
    demultiplexer returns; with no handler registered it makes no call;
    with a handler registered it makes as many calls as [M] has set bits,
    one per set bit in ascending bit position, each to the registered
    handler with the [id] and [event] stored in the channel table at
    [(Event, bit position)]. *)
Theorem gpio_irq_callback_dispatch (st : gpio_state hw) (Event : Z) (M : N) :
  table_wf (channel_ids st) -> 0 <= Event < MAX_GPIO_PORTS -> (M < 2 ^ 16)%N ->
  exists calls,
    gpio_irq_callback st Event M = Some calls /\
    StronglySorted Z.lt (set_bits M) /\
    (irq_handler st = NULL -> calls = []) /\
    (irq_handler st <> NULL ->
       length calls = popcount M /\
       Forall2 (fun call i =>
                  exists c, chan_at (channel_ids st) Event i = Some c /\
                            call = mk_call (irq_handler st) (id c) (event c))
               calls (set_bits M)).
Proof.
  intros Hwf HE HM. unfold gpio_irq_callback.
  rewrite N.mod_small by exact HM.
  rewrite (callback_loop_run st Event Hwf HE 16 M 0 []); [|exact HM|lia|unfold MAX_GPIO_LINES; lia].
  simpl fmap. eexists. split; [reflexivity|]. split; [apply set_bits_ascending|].
  assert (Hf : filter (fun i => N.testbit M (Z.to_N (i - 0)) = true) (seqZ 0 (Z.of_nat 16))
               = set_bits M).
  { unfold set_bits. apply list_filter_iff. intros i. rewrite Z.sub_0_r. reflexivity. }
  rewrite Hf. split.
  - intros ->. reflexivity.
  - intros Hh. apply Z.eqb_neq in Hh. rewrite Hh. split.
    + rewrite length_fmap. apply set_bits_length. exact HM.
    + apply Forall2_fmap_l. apply Forall_Forall2_diag.
      apply Forall_forall. intros i Hi. apply set_bits_spec in Hi as [Hi _].
      destruct (chan_at_wf (channel_ids st) Event i Hwf HE) as [c Hc];
        [unfold MAX_GPIO_LINES; lia|].
      exists c. split; [exact Hc|]. simpl. unfold dispatch. rewrite Hc. reflexivity.
Qed.

(** C10. The scan loop of the demultiplexer terminates on every 16-bit
    mask: one iteration shifts the remaining mask right by one bit, which
    makes a non-zero mask strictly smaller, and the loop returns with
    [index], the number of iterations made, equal to the bit length of the
    mask and so at most 16. *)
Theorem gpio_irq_callback_terminates (st : gpio_state hw) (Event : Z) (M : N) :
  table_wf (channel_ids st) -> 0 <= Event < MAX_GPIO_PORTS -> (M < 2 ^ 16)%N ->
  (forall pin : N, pin <> 0%N -> (N.shiftr pin 1 < pin)%N) /\
  exists index calls,
    callback_loop st Event M 0 [] = Some (index, calls) /\
    index = Z.of_N (N.size M) /\ 0 <= index <= 16.
Proof.
  intros Hwf HE HM. split.
  - intros pin Hpin. rewrite N.shiftr_div_pow2. change (2 ^ 1)%N with 2%N.
    apply N.div_lt; lia.
  - rewrite (callback_loop_run st Event Hwf HE 16 M 0 []); [|exact HM|lia|unfold MAX_GPIO_LINES; lia].
    eexists _, _. split; [reflexivity|]. split; [lia|].
    assert (N.size M <= 16)%N; [|lia].
    destruct (N.eq_dec M 0%N) as [->|Hne]; [simpl; lia|].
    rewrite N.size_log2 by exact Hne.
    assert (N.log2 M < 16)%N; [|lia].
    apply N.log2_lt_pow2; lia.
Qed.

End Callback.


Lemma demo_state_wf : table_wf (channel_ids demo_state).
Proof. split; [reflexivity|]. repeat constructor. Qed.

Lemma gpio_irq_callback_dispatch_witness :
  exists calls,
    gpio_irq_callback demo_state 1 5 = Some calls /\
    StronglySorted Z.lt (set_bits 5) /\
    (irq_handler demo_state = NULL -> calls = []) /\
    (irq_handler demo_state <> NULL ->
       length calls = popcount 5 /\
       Forall2 (fun call i =>
                  exists c, chan_at (channel_ids demo_state) 1 i = Some c /\
                            call = mk_call (irq_handler demo_state) (id c) (event c))
               calls (set_bits 5)).
Proof.
  apply (gpio_irq_callback_dispatch demo_state 1 5 demo_state_wf).
  - unfold MAX_GPIO_PORTS. lia.
  - reflexivity.
Defined.

Lemma gpio_irq_callback_terminates_witness :
  (forall pin : N, pin <> 0%N -> (N.shiftr pin 1 < pin)%N) /\
  exists index calls,
    callback_loop demo_state 1 5 0 [] = Some (index, calls) /\
    index = Z.of_N (N.size 5) /\ 0 <= index <= 16.
Proof.
  apply (gpio_irq_callback_terminates demo_state 1 5 demo_state_wf).
  - unfold MAX_GPIO_PORTS. lia.
  - reflexivity.
Defined.

Example demo_calls :
  gpio_irq_callback demo_state 1 5 =
  Some [mk_call 4096 7 IRQ_RISE; mk_call 4096 9 IRQ_FALL].
Proof. vm_compute. reflexivity. Qed.

(** Without a handler the same mask gives no call. *)
Example demo_no_handler :
  gpio_irq_callback (with_irq_handler NULL demo_state) 1 5 = Some [].
Proof. vm_compute. reflexivity. Qed.

(** A port outside the table is an access outside [channel_ids]. *)
Example demo_bad_port : gpio_irq_callback demo_state 3 5 = None.
Proof. vm_compute. reflexivity. Qed.

 


Lemma in_range_true (port line : Z) :
  0 <= port -> 0 <= line -> (0 <=? port) && (0 <=? line) = true.
Proof. intros. apply andb_true_iff; split; apply Z.leb_le; assumption. Qed.

Lemma chan_update_slot_write (t : chan_table) port line f c :
  chan_at t port line = Some c ->
  chan_update t port line f = Some (slot_write t port line (f c)).
Proof.
  unfold chan_at, chan_update, slot_write.
  destruct ((0 <=? port) && (0 <=? line)); [|discriminate].
  destruct (t !! Z.to_nat port) as [row|]; simpl; [|discriminate].
  intros ->. reflexivity.
Qed.

Lemma chan_at_slot_write (t : chan_table) port line c0 c :
  0 <= port -> 0 <= line ->
  chan_at t port line = Some c0 ->
  chan_at (slot_write t port line c) port line = Some c.
Proof.
  intros Hp Hl. unfold chan_at, slot_write. rewrite in_range_true by assumption.
  destruct (t !! Z.to_nat port) as [row|] eqn:Hrow; simpl; [|discriminate].
  intros Hc.
  rewrite list_lookup_insert_eq by (eapply lookup_lt_Some; eauto). simpl.
  rewrite list_lookup_insert_eq by (eapply lookup_lt_Some; eauto). reflexivity.
Qed.

Lemma slot_write_twice (t : chan_table) port line c1 c2 :
  slot_write (slot_write t port line c1) port line c2 = slot_write t port line c2.
Proof.
  unfold slot_write.
  destruct (decide (Z.to_nat port < length t)%nat) as [Hlt|Hge].
  - rewrite list_lookup_insert_eq by assumption. simpl.
    rewrite list_insert_insert_eq. rewrite list_insert_insert_eq. reflexivity.
  - rewrite (list_insert_ge t _ (<[_:=c1]> _)) by lia. reflexivity.
Qed.

Lemma slot_write_wf (t : chan_table) port line c :
  table_wf t -> table_wf (slot_write t port line c).
Proof.
  intros [Hlen Hrows]. unfold slot_write. split.
  - rewrite length_insert. exact Hlen.
  - rewrite Forall_forall in *. intros r Hr.
    apply list_elem_of_lookup in Hr as [i Hi].
    destruct (decide (i = Z.to_nat port)) as [->|Hne].
    + assert (Hlt : (Z.to_nat port < length t)%nat).
      { apply lookup_lt_Some in Hi. rewrite length_insert in Hi. exact Hi. }
      rewrite list_lookup_insert_eq in Hi by assumption. injection Hi as <-.
      rewrite length_insert.
      destruct (lookup_lt_is_Some_2 t _ Hlt) as [row Hrow]. rewrite Hrow. simpl.
      apply Hrows. eapply list_elem_of_lookup_2; eauto.
    + rewrite list_lookup_insert_ne in Hi by congruence.
      apply Hrows. eapply list_elem_of_lookup_2; eauto.
Qed.

Lemma chan_at_slot_write_ne (t : chan_table) port line c p l :
  0 <= port -> 0 <= line ->
  (p, l) <> (port, line) ->
  chan_at (slot_write t port line c) p l = chan_at t p l.
Proof.
  intros Hp Hl Hne. unfold chan_at, slot_write.
  destruct ((0 <=? p) && (0 <=? l)) eqn:Hb; [|reflexivity].
  apply andb_true_iff in Hb as [Hp0 Hl0]. apply Z.leb_le in Hp0, Hl0.
  destruct (decide (Z.to_nat p = Z.to_nat port)) as [Hpe|Hpne].
  - rewrite Hpe.
    destruct (t !! Z.to_nat port) as [row|] eqn:Hrow.
    + rewrite list_lookup_insert_eq by (eapply lookup_lt_Some; eauto). simpl.
      rewrite list_lookup_insert_ne; [reflexivity|].
      intros Hle. apply Hne. f_equal; lia.
    + rewrite list_insert_ge by (apply lookup_ge_None; assumption).
      rewrite Hrow. reflexivity.
  - rewrite list_lookup_insert_ne by congruence. reflexivity.
Qed.

(** Two tables of the declared shape that read alike are the same table. *)
Lemma table_ext (t1 t2 : chan_table) :
  table_wf t1 -> table_wf t2 ->
  (forall p l, 0 <= p -> 0 <= l -> chan_at t1 p l = chan_at t2 p l) -> t1 = t2.
Proof.
  intros [Hl1 Hr1] [Hl2 Hr2] Hext.
  apply list_eq_same_length with (length t1); [congruence|reflexivity|].
  intros i r1 r2 Hi H1 H2.
  rewrite Forall_forall in Hr1, Hr2.
  assert (Hlen1 : length r1 = Z.to_nat MAX_GPIO_LINES)
    by (apply Hr1; eapply list_elem_of_lookup_2; eauto).
  assert (Hlen2 : length r2 = Z.to_nat MAX_GPIO_LINES)
    by (apply Hr2; eapply list_elem_of_lookup_2; eauto).
  apply list_eq_same_length with (length r1); [congruence|reflexivity|].
  intros j c1 c2 Hj Hc1 Hc2.
  specialize (Hext (Z.of_nat i) (Z.of_nat j) ltac:(lia) ltac:(lia)).
  unfold chan_at in Hext. rewrite in_range_true in Hext by lia.
  rewrite !Nat2Z.id, H1, H2 in Hext. simpl in Hext. congruence.
Qed.

(** The three stores that fill a slot. *)
Lemma chan_store_slot (t : chan_table) port line v :
  table_wf t -> 0 <= port < MAX_GPIO_PORTS -> 0 <= line < MAX_GPIO_LINES ->
  (t ← chan_update t port line (set_id v);
   t ← chan_update t port line (set_event IRQ_NONE);
   chan_update t port line (set_int_enable 0))
  = Some (slot_write t port line (mk_chan v IRQ_NONE 0)).
Proof.
  intros Hwf Hp Hl.
  destruct (chan_at_wf t port line Hwf Hp Hl) as [c Hc].
  rewrite (chan_update_slot_write _ _ _ _ c Hc). simpl.
  erewrite chan_update_slot_write
    by (eapply chan_at_slot_write; [lia|lia|exact Hc]). simpl.
  erewrite chan_update_slot_write
    by (eapply chan_at_slot_write; [lia|lia|]; eapply chan_at_slot_write; [lia|lia|exact Hc]).
  rewrite !slot_write_twice. reflexivity.
Qed.

 

Section Api.
Context {hw : Type} `{Drv : adi_gpio hw}.
Variable GPIO_PORT_SHIFT NC : Z.

Local Abbreviation pin_port := (GpioIrq.pin_port GPIO_PORT_SHIFT).
Local Abbreviation valid_pin := (GpioIrq.valid_pin GPIO_PORT_SHIFT).
Local Abbreviation gpio_irq_init := (GpioIrq.gpio_irq_init GPIO_PORT_SHIFT NC).
Local Abbreviation gpio_irq_free := (GpioIrq.gpio_irq_free GPIO_PORT_SHIFT).
Local Abbreviation gpio_irq_set := (GpioIrq.gpio_irq_set GPIO_PORT_SHIFT).
Local Abbreviation gpio_irq_enable := (GpioIrq.gpio_irq_enable GPIO_PORT_SHIFT).
Local Abbreviation gpio_irq_disable := (GpioIrq.gpio_irq_disable GPIO_PORT_SHIFT).

Lemma u32_nonneg (x : Z) : 0 <= u32 x.
Proof. unfold u32. apply Z.mod_pos_bound. lia. Qed.

Lemma valid_pin_range (pin : Z) :
  valid_pin pin ->
  0 <= pin_port pin < MAX_GPIO_PORTS /\ 0 <= pin_line pin < MAX_GPIO_LINES.
Proof.
  intros [Hp Hl]. unfold GpioIrq.pin_port, pin_line in *.
  pose proof (u32_nonneg (Z.shiftr pin GPIO_PORT_SHIFT)).
  pose proof (u32_nonneg (Z.land pin 255)). lia.
Qed.

(** What a successful [gpio_irq_init] leaves behind. *)
Lemma gpio_irq_init_ok (obj : gpio_irq_t) (pin handler id : Z) (st : gpio_state hw) :
  table_wf (channel_ids st) -> valid_pin pin -> pin <> NC -> id <> 0 ->
  exists st',
    gpio_irq_init obj pin handler id st = Some (0, mk_obj id pin, st') /\
    channel_ids st' =
      slot_write (channel_ids st) (pin_port pin) (pin_line pin) (mk_chan id IRQ_NONE 0) /\
    irq_handler st' = (if handler =? NULL then irq_handler st else handler).
Proof.
  intros Hwf Hv Hnc Hid. apply valid_pin_range in Hv as [Hp Hl].
  unfold GpioIrq.gpio_irq_init.
  apply Z.eqb_neq in Hnc, Hid. rewrite Hnc, Hid. simpl orb. cbv iota.
  match goal with
  | |- context [chan_update (channel_ids ?s) _ _ _] => set (s1 := s)
  end.
  assert (Ht : channel_ids s1 = channel_ids st).
  { unfold s1. destruct (gpio_initialized st =? 0), (handler =? NULL); reflexivity. }
  assert (Hh : irq_handler s1 = (if handler =? NULL then irq_handler st else handler)).
  { unfold s1. destruct (gpio_initialized st =? 0), (handler =? NULL); reflexivity. }
  clearbody s1.
  assert (Hwf1 : table_wf (channel_ids s1)) by (rewrite Ht; exact Hwf).
  pose proof (chan_store_slot (channel_ids s1) (pin_port pin) (pin_line pin) id Hwf1 Hp Hl) as Hs.
  destruct (chan_update (channel_ids s1) _ _ (set_id id)) as [t1|]; simpl in Hs |- *; [|discriminate].
  destruct (chan_update t1 _ _ (set_event IRQ_NONE)) as [t2|]; simpl in Hs |- *; [|discriminate].
  rewrite Hs. simpl.
  eexists. split; [reflexivity|]. simpl. rewrite Ht. split; [reflexivity|exact Hh].
Qed.

(** C5. For a pin name that is [NC] or designates a slot of the table,
    [gpio_irq_init] returns; its status is negative exactly when the pin
    is [NC] or [id] is 0; a negative status leaves the pin object and the
    whole state as they were; otherwise the status is 0 and the slot of
    the pin holds [id], no edge, not enabled. *)
Theorem gpio_irq_init_status (obj : gpio_irq_t) (pin handler id : Z) (st : gpio_state hw) :
  table_wf (channel_ids st) -> pin = NC \/ valid_pin pin ->
  exists status obj' st',
    gpio_irq_init obj pin handler id st = Some (status, obj', st') /\
    (status < 0 <-> pin = NC \/ id = 0) /\
    (status < 0 -> obj' = obj /\ st' = st) /\
    (~ status < 0 ->
       status = 0 /\
       chan_at (channel_ids st') (pin_port pin) (pin_line pin)
         = Some (mk_chan id IRQ_NONE 0)).
Proof.
  intros Hwf Hpin.
  destruct (decide (pin = NC \/ id = 0)) as [Hbad|Hgood].
  - exists (-1), obj, st. unfold GpioIrq.gpio_irq_init.
    replace ((pin =? NC) || (id =? 0)) with true.
    + repeat split; try tauto; try lia.
    + symmetry. apply orb_true_iff. destruct Hbad as [->| ->]; [left|right]; apply Z.eqb_refl.
  - assert (Hnc : pin <> NC) by tauto. assert (Hid : id <> 0) by tauto.
    destruct Hpin as [Hpin|Hv]; [contradiction|].
    destruct (gpio_irq_init_ok obj pin handler id st Hwf Hv Hnc Hid) as (st' & Hinit & Ht & _).
    exists 0, (mk_obj id pin), st'. split; [exact Hinit|].
    split; [split; [lia|tauto]|]. split; [lia|]. intros _. split; [reflexivity|].
    rewrite Ht. apply valid_pin_range in Hv as [Hp Hl].
    destruct (chan_at_wf (channel_ids st) _ _ Hwf Hp Hl) as [c Hc].
    eapply chan_at_slot_write; [lia|lia|exact Hc].
Qed.

(** C6. [gpio_irq_set] with the event [IRQ_NONE] returns at once: the
    channel table (configured edge, enable flag), the handler and every
    register of the GPIO block are as before, whatever the enable flag. *)
Theorem gpio_irq_set_none (obj : gpio_irq_t) (enable : Z) (st : gpio_state hw) :
  gpio_irq_set obj IRQ_NONE enable st = Some st.
Proof. reflexivity. Qed.

Lemma gpio_irq_disable_ok (obj : gpio_irq_t) (st : gpio_state hw) :
  table_wf (channel_ids st) -> valid_pin (pinname obj) ->
  exists st' c,
    gpio_irq_disable obj st = Some st' /\
    irq_handler st' = irq_handler st /\
    channel_ids st' =
      slot_write (channel_ids st) (pin_port (pinname obj)) (pin_line (pinname obj)) c.
Proof.
  intros Hwf Hv. apply valid_pin_range in Hv as [Hp Hl].
  destruct (chan_at_wf (channel_ids st) _ _ Hwf Hp Hl) as [c Hc].
  unfold GpioIrq.gpio_irq_disable. rewrite Hc. simpl.
  destruct (gpio_irq_event_eqb (event c) IRQ_NONE).
  - exists st, c. split; [reflexivity|]. split; [reflexivity|].
    unfold slot_write, chan_at in *. rewrite in_range_true in Hc by lia.
    destruct (channel_ids st !! _) as [row|] eqn:Hrow; simpl in Hc; [|discriminate].
    simpl. rewrite (list_insert_id row) by exact Hc.
    rewrite list_insert_id by exact Hrow. reflexivity.
  - match goal with
    | |- context [chan_update (channel_ids ?s) _ _ _] => set (s1 := s)
    end.
    assert (Ht : channel_ids s1 = channel_ids st).
    { unfold s1. destruct (gpio_irq_event_eqb (event c) IRQ_RISE),
                          (gpio_irq_event_eqb (event c) IRQ_FALL); reflexivity. }
    assert (Hh : irq_handler s1 = irq_handler st).
    { unfold s1. destruct (gpio_irq_event_eqb (event c) IRQ_RISE),
                          (gpio_irq_event_eqb (event c) IRQ_FALL); reflexivity. }
    clearbody s1. rewrite <- Ht in Hc.
    rewrite (chan_update_slot_write _ _ _ _ c Hc). simpl. rewrite Ht.
    eexists _, _. split; [reflexivity|]. split; [exact Hh|reflexivity].
Qed.

(** What [gpio_irq_free] leaves behind. *)
Lemma gpio_irq_free_ok (obj : gpio_irq_t) (st : gpio_state hw) :
  table_wf (channel_ids st) -> valid_pin (pinname obj) ->
  exists st',
    gpio_irq_free obj st = Some st' /\
    channel_ids st' =
      slot_write (channel_ids st) (pin_port (pinname obj)) (pin_line (pinname obj))
        unused_chan.
Proof.
  intros Hwf Hv.
  destruct (gpio_irq_disable_ok obj st Hwf Hv) as (st1 & c & Hdis & _ & Ht1).
  apply valid_pin_range in Hv as [Hp Hl].
  unfold GpioIrq.gpio_irq_free. rewrite Hdis. simpl.
  assert (Hwf1 : table_wf (channel_ids st1)) by (rewrite Ht1; apply slot_write_wf; exact Hwf).
  pose proof (chan_store_slot (channel_ids st1) _ _ 0 Hwf1 Hp Hl) as Hs.
  destruct (chan_update (channel_ids st1) _ _ (set_id 0)) as [t1|]; simpl in Hs |- *; [|discriminate].
  destruct (chan_update t1 _ _ (set_event IRQ_NONE)) as [t2|]; simpl in Hs |- *; [|discriminate].
  rewrite Hs. simpl. eexists. split; [reflexivity|]. simpl.
  rewrite Ht1, slot_write_twice. reflexivity.
Qed.


(** C7. [gpio_irq_free] returns for every pin object of the table and
    leaves the slot of its pin unused (id 0, no edge, not enabled); a
    [gpio_irq_init] of the same pin with a non-zero id that follows gives
    the channel table that the same call gives on [fresh], a state in
    which the pin was never used and the other slots are those of [st]. *)
Theorem gpio_irq_free_then_init (obj obj' : gpio_irq_t) (handler id : Z)
    (st fresh : gpio_state hw) :
  table_wf (channel_ids st) -> valid_pin (pinname obj) ->
  pinname obj <> NC -> id <> 0 ->
  table_wf (channel_ids fresh) ->
  chan_at (channel_ids fresh) (pin_port (pinname obj)) (pin_line (pinname obj))
    = Some unused_chan ->
  (forall p l, (p, l) <> (pin_port (pinname obj), pin_line (pinname obj)) ->
               chan_at (channel_ids fresh) p l = chan_at (channel_ids st) p l) ->
  exists st1,
    gpio_irq_free obj st = Some st1 /\
    chan_at (channel_ids st1) (pin_port (pinname obj)) (pin_line (pinname obj))
      = Some unused_chan /\
    exists o s1 s0,
      gpio_irq_init obj' (pinname obj) handler id st1 = Some (0, o, s1) /\
      gpio_irq_init obj' (pinname obj) handler id fresh = Some (0, o, s0) /\
      channel_ids s1 = channel_ids s0.
Proof.
  intros Hwf Hv Hnc Hid Hwf0 Hslot Hrest.
  destruct (gpio_irq_free_ok obj st Hwf Hv) as (st1 & Hfree & Ht1).
  pose proof (valid_pin_range _ Hv) as [Hp Hl].
  destruct (chan_at_wf (channel_ids st) _ _ Hwf Hp Hl) as [c Hc].
  assert (Hwf1 : table_wf (channel_ids st1)) by (rewrite Ht1; apply slot_write_wf; exact Hwf).
  assert (Hat1 : chan_at (channel_ids st1) (pin_port (pinname obj)) (pin_line (pinname obj))
                 = Some unused_chan).
  { rewrite Ht1. eapply chan_at_slot_write; [lia|lia|exact Hc]. }
  assert (Hsame : channel_ids st1 = channel_ids fresh).
  { apply table_ext; [exact Hwf1|exact Hwf0|]. intros p l _ _.
    destruct (decide ((p, l) = (pin_port (pinname obj), pin_line (pinname obj)))) as [Heq|Hne].
    - injection Heq as -> ->. rewrite Hat1, Hslot. reflexivity.
    - rewrite Hrest by exact Hne. rewrite Ht1.
      apply chan_at_slot_write_ne; [lia|lia|exact Hne]. }
  exists st1. split; [exact Hfree|]. split; [exact Hat1|].
  destruct (gpio_irq_init_ok obj' (pinname obj) handler id st1 Hwf1 Hv Hnc Hid)
    as (s1 & Hi1 & Hs1 & _).
  destruct (gpio_irq_init_ok obj' (pinname obj) handler id fresh Hwf0 Hv Hnc Hid)
    as (s0 & Hi0 & Hs0 & _).
  exists (mk_obj id (pinname obj)), s1, s0.
  split; [exact Hi1|]. split; [exact Hi0|]. rewrite Hs1, Hs0, Hsame. reflexivity.
Qed.

(** C9. A successful [gpio_irq_init] with a null handler argument leaves
    the registered handler as it was, and that handler goes on receiving
    the dispatches: for every port of the table and every 16-bit mask the
    demultiplexer makes, when a handler is registered, one call per set
    bit in ascending order, each to the handler registered before, with
    the id and event the slot held before the call, or with the new id
    and IRQ_NONE for the slot that was just initialised.  A non-null
    handler argument replaces the handler. *)
Theorem gpio_irq_init_keeps_handler (obj : gpio_irq_t) (pin handler id : Z)
    (st : gpio_state hw) :
  table_wf (channel_ids st) -> valid_pin pin -> pin <> NC -> id <> 0 ->
  exists obj' st',
    gpio_irq_init obj pin handler id st = Some (0, obj', st') /\
    (handler = NULL ->
       irq_handler st' = irq_handler st /\
       forall Event M, 0 <= Event < MAX_GPIO_PORTS -> (M < 2 ^ 16)%N ->
         exists calls,
           gpio_irq_callback st' Event M = Some calls /\
           Forall (fun c => call_fn c = irq_handler st) calls /\
           (irq_handler st = NULL -> calls = []) /\
           (irq_handler st <> NULL ->
              length calls = popcount M /\
              Forall2 (fun call i =>
                         if decide ((Event, i) = (pin_port pin, pin_line pin))
                         then call = mk_call (irq_handler st) id IRQ_NONE
                         else exists c,
                                chan_at (channel_ids st) Event i = Some c /\
                                call = mk_call (irq_handler st) (GpioIrq.id c) (event c))
                      calls (set_bits M))) /\
    (handler <> NULL -> irq_handler st' = handler).
Proof.
  intros Hwf Hv Hnc Hid.
  destruct (gpio_irq_init_ok obj pin handler id st Hwf Hv Hnc Hid) as (st' & Hinit & Ht & Hh).
  destruct (valid_pin_range pin Hv) as [Hp Hl].
  exists (mk_obj id pin), st'. split; [exact Hinit|]. split.
  - intros ->. rewrite Z.eqb_refl in Hh. split; [exact Hh|].
    intros Event M HE HM.
    assert (Hwf' : table_wf (channel_ids st')) by (rewrite Ht; apply slot_write_wf; exact Hwf).
    unfold gpio_irq_callback. rewrite N.mod_small by exact HM.
    rewrite (callback_loop_run st' Event Hwf' HE 16 M 0 []);
      [|exact HM|lia|unfold MAX_GPIO_LINES; lia].
    simpl fmap. eexists. split; [reflexivity|].
    assert (Hf : filter (fun i => N.testbit M (Z.to_N (i - 0)) = true) (seqZ 0 (Z.of_nat 16))
                 = set_bits M).
    { unfold set_bits. apply list_filter_iff. intros i. rewrite Z.sub_0_r. reflexivity. }
    rewrite Hf, Hh. split; [|split].
    + destruct (irq_handler st =? NULL); [constructor|].
      simpl. apply Forall_fmap, Forall_forall. intros i _. simpl. exact Hh.
    + intros ->. reflexivity.
    + intros Hn. apply Z.eqb_neq in Hn. rewrite Hn. simpl. split.
      * rewrite length_fmap. apply set_bits_length. exact HM.
      * apply Forall2_fmap_l. apply Forall_Forall2_diag.
        apply Forall_forall. intros i Hi. apply set_bits_spec in Hi as [Hi _].
        unfold compose, dispatch. rewrite Hh, Ht.
        destruct (chan_at_wf (channel_ids st) _ _ Hwf Hp Hl) as [c0 Hc0].
        destruct (decide ((Event, i) = (pin_port pin, pin_line pin))) as [Heq|Hne].
        -- injection Heq as -> ->.
           rewrite (chan_at_slot_write _ _ _ c0 _ (proj1 Hp) (proj1 Hl) Hc0). reflexivity.
        -- rewrite chan_at_slot_write_ne; [|lia|lia|exact Hne].
           destruct (chan_at_wf (channel_ids st) Event i Hwf HE) as [c Hc];
             [unfold MAX_GPIO_LINES; lia|].
           exists c. split; [exact Hc|]. rewrite Hc. reflexivity.
  - intros Hn. apply Z.eqb_neq in Hn. rewrite Hn in Hh. exact Hh.
Qed.

End Api.


Lemma demo_pin_valid : valid_pin demo_shift demo_pin.
Proof. split; reflexivity. Qed.

Lemma boot_wf : table_wf (channel_ids GpioSim.boot).
Proof. split; [reflexivity|]. repeat constructor. Qed.

Lemma gpio_irq_init_status_witness :
  exists status obj' st',
    gpio_irq_init demo_shift demo_NC demo_obj demo_pin 4096 7 GpioSim.boot
      = Some (status, obj', st') /\
    (status < 0 <-> demo_pin = demo_NC \/ 7 = 0) /\
    (status < 0 -> obj' = demo_obj /\ st' = GpioSim.boot) /\
    (~ status < 0 ->
       status = 0 /\
       chan_at (channel_ids st') (pin_port demo_shift demo_pin) (pin_line demo_pin)
         = Some (mk_chan 7 IRQ_NONE 0)).
Proof.
  apply (gpio_irq_init_status demo_shift demo_NC demo_obj demo_pin 4096 7 GpioSim.boot boot_wf).
  right. exact demo_pin_valid.
Defined.

Lemma gpio_irq_free_then_init_witness :
  exists st1,
    gpio_irq_free demo_shift demo_obj demo_state = Some st1 /\
    chan_at (channel_ids st1) (pin_port demo_shift demo_pin) (pin_line demo_pin)
      = Some unused_chan /\
    exists o s1 s0,
      gpio_irq_init demo_shift demo_NC demo_obj demo_pin 0 11 st1 = Some (0, o, s1) /\
      gpio_irq_init demo_shift demo_NC demo_obj demo_pin 0 11
        demo_fresh
        = Some (0, o, s0) /\
      channel_ids s1 = channel_ids s0.
Proof.
  apply (gpio_irq_free_then_init demo_shift demo_NC demo_obj demo_obj 0 11 demo_state
           demo_fresh
           demo_state_wf demo_pin_valid).
  - discriminate.
  - discriminate.
  - split; [reflexivity|]. repeat constructor.
  - reflexivity.
  - intros p l Hne. apply chan_at_slot_write_ne; [lia|lia|exact Hne].
Defined.

Lemma gpio_irq_init_keeps_handler_witness :
  exists obj' st' calls,
    gpio_irq_init demo_shift demo_NC demo_obj demo_pin NULL 11 demo_state
      = Some (0, obj', st') /\
    irq_handler st' = irq_handler demo_state /\
    gpio_irq_callback st' 1 5 = Some calls /\
    Forall (fun c => call_fn c = irq_handler demo_state) calls /\
    length calls = popcount 5 /\
    Forall2 (fun call i =>
               if decide ((1, i) = (pin_port demo_shift demo_pin, pin_line demo_pin))
               then call = mk_call (irq_handler demo_state) 11 IRQ_NONE
               else exists c,
                      chan_at (channel_ids demo_state) 1 i = Some c /\
                      call = mk_call (irq_handler demo_state) (id c) (event c))
            calls (set_bits 5).
Proof.
  destruct (gpio_irq_init_keeps_handler demo_shift demo_NC demo_obj demo_pin NULL 11 demo_state
              demo_state_wf demo_pin_valid ltac:(discriminate) ltac:(discriminate))
    as (obj' & st' & Hinit & Hnull & _).
  destruct (Hnull eq_refl) as [Hh Hcalls].
  destruct (Hcalls 1 5%N ltac:(unfold MAX_GPIO_PORTS; lia) ltac:(reflexivity))
    as (calls & Hcb & Hfn & _ & Hdisp).
  destruct (Hdisp ltac:(discriminate)) as [Hlen Hall].
  exists obj', st', calls. repeat split; assumption.
Defined.


(** With an event other than [IRQ_NONE], [gpio_irq_set] does store the
    edge and touch the registers. *)
Example demo_set_rise :
  gpio_irq_set demo_shift demo_obj IRQ_RISE 1 demo_state
  = Some (mk_state
            (slot_write (channel_ids demo_state) 1 2 (mk_chan 9 IRQ_RISE 1))
            4096 1
            (GpioSim.mk_block
               [GpioSim.mk_port 0 0 0 0; GpioSim.mk_port 4 0 4 0; GpioSim.mk_port 0 0 0 0]
               [SYS_GPIO_INTA_IRQn] false)).
Proof. vm_compute. reflexivity. Qed.

Example demo_free :
  channel_ids <$> gpio_irq_free demo_shift demo_obj demo_state
  = Some (slot_write (channel_ids demo_state) 1 2 unused_chan).
Proof. vm_compute. reflexivity. Qed.

End GpioIrqFacts.

(* ===================================================================== *)
(** * Facts about single-precision arithmetic                             *)
(* ===================================================================== *)

Module Float32Facts.
Import Float32 Float32Spec.

(** ** Bit lengths *)

Lemma digits2_pos_log2 (p : positive) : Z.pos (digits2_pos p) = Z.log2 (Z.pos p) + 1.
Proof.
  induction p as [p IH|p IH|]; simpl digits2_pos.
  - rewrite Pos2Z.inj_succ, IH.
    change (Z.pos p~1) with (2 * Z.pos p + 1). rewrite Z.log2_succ_double by lia. lia.
  - rewrite Pos2Z.inj_succ, IH.
    change (Z.pos p~0) with (2 * Z.pos p). rewrite Z.log2_double by lia. lia.
  - reflexivity.
Qed.

Lemma Zdigits2_log2 (m : Z) : 0 < m -> Zdigits2 m = Z.log2 m + 1.
Proof. destruct m as [|p|p]; intros H; try lia. apply digits2_pos_log2. Qed.

Lemma log2_bounds (m : Z) : 0 < m -> 2 ^ Z.log2 m <= m < 2 ^ (Z.log2 m + 1).
Proof. intros H. pose proof (Z.log2_spec m H). lia. Qed.

Lemma log2_unique' (m k : Z) : 0 <= k -> 2 ^ k <= m < 2 ^ (k + 1) -> Z.log2 m = k.
Proof. intros Hk H. apply Z.log2_unique; [exact Hk|]. rewrite <- Z.add_1_r. exact H. Qed.

(** ** Rounding to the nearest integer *)

Lemma loc_cases (N D : Z) :
  0 < D ->
  (N mod D = 0 /\ loc N D = loc_Exact) \/
  (0 < N mod D /\ 2 * (N mod D) < D /\ loc N D = loc_Inexact Lt) \/
  (2 * (N mod D) = D /\ loc N D = loc_Inexact Eq) \/
  (D < 2 * (N mod D) /\ loc N D = loc_Inexact Gt).
Proof.
  intros HD. unfold loc. pose proof (Z.mod_pos_bound N D HD).
  destruct (Z.eqb_spec (N mod D) 0); [left; split; [assumption|reflexivity]|].
  right. destruct (Z.compare_spec (2 * (N mod D)) D); [right; left|left|right; right];
    repeat split; try assumption; lia.
Qed.

Lemma rne_cases (N D : Z) :
  0 < D ->
  (rne N D = N / D /\ 2 * (N mod D) <= D) \/
  (rne N D = N / D + 1 /\ D <= 2 * (N mod D)).
Proof.
  intros HD. unfold rne.
  destruct (loc_cases N D HD) as [[H ->]|[(H1 & H2 & ->)|[[H ->]|[H ->]]]]; simpl.
  - left. split; [reflexivity|]. lia.
  - left. split; [reflexivity|lia].
  - destruct (Z.even (N / D)); [left|right]; split; try reflexivity; lia.
  - right. split; [reflexivity|lia].
Qed.

(** The rounded value is within one half of the fraction. *)
Lemma rne_near (N D : Z) :
  0 < D -> 2 * N - D <= 2 * D * rne N D <= 2 * N + D.
Proof.
  intros HD. pose proof (Z.div_mod N D ltac:(lia)) as Hdm.
  pose proof (Z.mod_pos_bound N D HD).
  destruct (rne_cases N D HD) as [[-> H1]|[-> H1]]; nia.
Qed.

Lemma rne_floor_ceil (N D : Z) : 0 < D -> N / D <= rne N D <= N / D + 1.
Proof. intros HD. destruct (rne_cases N D HD) as [[-> _]|[-> _]]; lia. Qed.

Lemma rne_exact (k D : Z) : 0 < D -> rne (k * D) D = k.
Proof.
  intros HD. unfold rne, loc. rewrite Z.mod_mul by lia. rewrite Z.div_mul by lia. reflexivity.
Qed.





Lemma rne_mono (N1 N2 D : Z) : 0 < D -> N1 <= N2 -> rne N1 D <= rne N2 D.
Proof.
  intros HD Hle.
  pose proof (Z.div_le_mono N1 N2 D HD Hle) as Hq.
  destruct (Z.eq_dec (N1 / D) (N2 / D)) as [Heq|Hne].
  - assert (Hr : N1 mod D <= N2 mod D).
    { pose proof (Z.div_mod N1 D ltac:(lia)). pose proof (Z.div_mod N2 D ltac:(lia)). nia. }
    unfold rne. rewrite Heq.
    pose proof (Z.mod_pos_bound N1 D HD). pose proof (Z.mod_pos_bound N2 D HD).
    destruct (loc_cases N1 D HD) as [[H1 ->]|[(H1 & H1' & ->)|[[H1 ->]|[H1 ->]]]];
    destruct (loc_cases N2 D HD) as [[H2 ->]|[(H2 & H2' & ->)|[[H2 ->]|[H2 ->]]]];
      simpl; try lia; destruct (Z.even (N2 / D)); lia.
  - pose proof (rne_floor_ceil N1 D HD). pose proof (rne_floor_ceil N2 D HD). lia.
Qed.

(** The rounding depends on the fraction only. *)
Lemma rne_scale (N D k : Z) : 0 < D -> 0 < k -> rne (N * k) (D * k) = rne N D.
Proof.
  intros HD Hk. unfold rne, loc.
  rewrite Z.div_mul_cancel_r by lia. rewrite Z.mul_mod_distr_r by lia.
  destruct (Z.eqb_spec (N mod D * k) 0) as [H|H], (Z.eqb_spec (N mod D) 0) as [H'|H'];
    try reflexivity; try nia.
  destruct (Z.compare_spec (2 * (N mod D)) D), (Z.compare_spec (2 * (N mod D * k)) (D * k));
    try reflexivity; nia.
Qed.

Lemma rne_ratio (N1 D1 N2 D2 : Z) :
  0 < D1 -> 0 < D2 -> N1 * D2 = N2 * D1 -> rne N1 D1 = rne N2 D2.
Proof.
  intros H1 H2 Heq.
  rewrite <- (rne_scale N1 D1 D2 H1 H2), <- (rne_scale N2 D2 D1 H2 H1).
  rewrite Heq. f_equal. lia.
Qed.

(** ** Shifting a significand right *)

Lemma shr_record_of_loc_inv (m : Z) (l : location) :
  shr_m (shr_record_of_loc m l) = m /\
  loc_of_shr_record (shr_record_of_loc m l) = l.
Proof. destruct l as [|[| |]]; split; reflexivity. Qed.

Lemma shr_1_nonneg (m : Z) (r s : bool) :
  0 <= m -> shr_1 (Build_shr_record m r s) = Build_shr_record (m / 2) (Z.odd m) (r || s).
Proof.
  intros Hm. destruct m as [|[p|p|]|p]; try lia; simpl shr_1; f_equal.
  - apply Z.div_unique with 1; lia.
  - apply Z.div_unique with 0; lia.
Qed.

(** One step: the location of N/D becomes the location of N/(2D). *)
Lemma shr_1_loc (N D : Z) :
  0 <= N -> 0 < D ->
  shr_1 (shr_record_of_loc (N / D) (loc N D)) = shr_record_of_loc (N / (D * 2)) (loc N (D * 2)).
Proof.
  intros HN HD.
  assert (Hq : 0 <= N / D) by (apply Z.div_pos; lia).
  pose proof (Z.div_mod N D ltac:(lia)) as Hdm.
  pose proof (Z.mod_pos_bound N D HD) as Hr.
  pose proof (Z.div_mod (N / D) 2 ltac:(lia)) as Hdm2.
  pose proof (Z.mod_pos_bound (N / D) 2 ltac:(lia)) as Hr2.
  assert (Hdiv : N / (D * 2) = N / D / 2) by (rewrite Z.div_div by lia; reflexivity).
  assert (Hmod : N mod (D * 2) = (N / D) mod 2 * D + N mod D).
  { rewrite Z.mod_eq by lia. rewrite Hdiv. nia. }
  assert (Hodd : Z.odd (N / D) = ((N / D) mod 2 =? 1)).
  { rewrite Zmod_odd. destruct (Z.odd (N / D)); reflexivity. }
  assert (Hrec : shr_1 (shr_record_of_loc (N / D) (loc N D)) =
                 Build_shr_record (N / D / 2) (Z.odd (N / D)) (negb (N mod D =? 0))).
  { unfold loc. destruct (Z.eqb_spec (N mod D) 0).
    - unfold shr_record_of_loc. rewrite shr_1_nonneg by exact Hq. reflexivity.
    - destruct (2 * (N mod D) ?= D); unfold shr_record_of_loc;
        rewrite shr_1_nonneg by exact Hq; reflexivity. }
  rewrite Hrec, Hdiv, Hodd. unfold loc at 1. rewrite Hmod.
  destruct (Z.eqb_spec ((N / D) mod 2) 1) as [H1|H1].
  - rewrite H1.
    destruct (Z.eqb_spec (N mod D) 0) as [H0|H0].
    + rewrite H0. replace (1 * D + 0 =? 0) with false by (symmetry; apply Z.eqb_neq; lia).
      replace (2 * (1 * D + 0) ?= D * 2) with Eq by (symmetry; apply Z.compare_eq_iff; lia).
      reflexivity.
    + replace (1 * D + N mod D =? 0) with false by (symmetry; apply Z.eqb_neq; lia).
      replace (2 * (1 * D + N mod D) ?= D * 2) with Gt by (symmetry; apply Z.compare_gt_iff; lia).
      reflexivity.
  - assert (H00 : (N / D) mod 2 = 0) by lia. rewrite H00.
    destruct (Z.eqb_spec (N mod D) 0) as [H0|H0].
    + rewrite H0. reflexivity.
    + replace (0 * D + N mod D =? 0) with false by (symmetry; apply Z.eqb_neq; lia).
      replace (2 * (0 * D + N mod D) ?= D * 2) with Lt by (symmetry; apply Z.compare_lt_iff; lia).
      reflexivity.
Qed.

Lemma iter_pos_shr_loc (k : positive) :
  forall N D, 0 <= N -> 0 < D ->
  SpecFloat.iter_pos shr_1 k (shr_record_of_loc (N / D) (loc N D))
  = shr_record_of_loc (N / (D * 2 ^ Z.pos k)) (loc N (D * 2 ^ Z.pos k)).
Proof.
  induction k as [k IH|k IH|]; intros N D HN HD; simpl SpecFloat.iter_pos.
  - rewrite shr_1_loc by assumption.
    assert (H2k : 0 < 2 ^ Z.pos k) by (apply Z.pow_pos_nonneg; lia).
    rewrite IH by nia. rewrite IH by nia.
    replace (D * 2 ^ Z.pos k~1) with (D * 2 * 2 ^ Z.pos k * 2 ^ Z.pos k); [reflexivity|].
    replace (Z.pos k~1) with (1 + (Z.pos k + Z.pos k)) by lia.
    rewrite !Z.pow_add_r by lia. change (2 ^ 1) with 2. ring.
  - assert (H2k : 0 < 2 ^ Z.pos k) by (apply Z.pow_pos_nonneg; lia).
    rewrite IH by nia. rewrite IH by nia.
    replace (D * 2 ^ Z.pos k~0) with (D * 2 ^ Z.pos k * 2 ^ Z.pos k); [reflexivity|].
    replace (Z.pos k~0) with (Z.pos k + Z.pos k) by lia.
    rewrite !Z.pow_add_r by lia. ring.
  - apply shr_1_loc; assumption.
Qed.

(** Shifting right by [n] bits divides by [2^n] and keeps track of what
    was shifted out. *)
Lemma shr_loc (N D e n : Z) :
  0 <= N -> 0 < D -> 0 <= n ->
  shr (shr_record_of_loc (N / D) (loc N D)) e n
  = (shr_record_of_loc (N / (D * 2 ^ n)) (loc N (D * 2 ^ n)), e + n).
Proof.
  intros HN HD Hn. unfold shr. destruct n as [|k|k]; try lia.
  - rewrite Z.mul_1_r, Z.add_0_r. reflexivity.
  - rewrite iter_pos_shr_loc by assumption. reflexivity.
Qed.

(** ** Rounding to 24 bits *)

Lemma fexp_normal (x : Z) : -149 <= x - 24 -> fexp prec emax x = x - 24.
Proof. intros H. unfold fexp, emin, prec, emax. lia. Qed.

Lemma excess_nonneg (N D : Z) : 2 ^ 23 <= N / D -> 0 <= excess N D.
Proof.
  intros H. unfold excess.
  assert (23 <= Z.log2 (N / D)); [|lia].
  change 23 with (Z.log2 (2 ^ 23)). apply Z.log2_le_mono. exact H.
Qed.

(** After the excess bits are dropped the quotient has exactly 24 bits. *)
Lemma excess_quot (N D : Z) :
  0 < D -> 2 ^ 23 <= N / D ->
  2 ^ 23 <= N / (D * 2 ^ excess N D) < 2 ^ 24.
Proof.
  intros HD H. pose proof (excess_nonneg N D H) as Hn.
  pose proof (log2_bounds (N / D) ltac:(lia)) as [Hlo Hhi].
  assert (Hp : 0 < 2 ^ excess N D) by (apply Z.pow_pos_nonneg; lia).
  rewrite <- Z.div_div by lia.
  unfold excess in *.
  replace (Z.log2 (N / D)) with (23 + (Z.log2 (N / D) + 1 - 24)) in Hlo at 1 by lia.
  replace (Z.log2 (N / D) + 1) with (24 + (Z.log2 (N / D) + 1 - 24)) in Hhi at 1 by lia.
  rewrite Z.pow_add_r in Hlo, Hhi by lia.
  split.
  - apply Z.div_le_lower_bound; lia.
  - apply Z.div_lt_upper_bound; lia.
Qed.

Lemma rne_24_bounds (N D : Z) :
  0 < D -> 2 ^ 23 <= N / D ->
  2 ^ 23 <= rne N (D * 2 ^ excess N D) <= 2 ^ 24.
Proof.
  intros HD H. pose proof (excess_quot N D HD H).
  assert (Hp : 0 < 2 ^ excess N D)
    by (apply Z.pow_pos_nonneg; [lia|apply excess_nonneg; exact H]).
  pose proof (rne_floor_ceil N (D * 2 ^ excess N D) ltac:(nia)). lia.
Qed.

Lemma normalize24_aux (M e : Z) :
  2 ^ 23 <= M <= 2 ^ 24 -> -149 <= e -> e + 1 <= 104 ->
  (let '(mrs, e') := shr_fexp prec emax M e loc_Exact in
   match shr_m mrs with
   | Z0 => S754_zero false
   | Zpos m => if e' <=? emax - prec then S754_finite false m e' else S754_infinity false
   | Zneg _ => S754_nan
   end) = normalize24 M e.
Proof.
  intros HM He He'. unfold normalize24, shr_fexp.
  destruct (Z.eqb_spec M (2 ^ 24)) as [->|Hne].
  - change (Zdigits2 (2 ^ 24)) with 25.
    rewrite fexp_normal by lia.
    replace (25 + e - 24 - e) with 1 by lia. simpl.
    replace (e + 1 <=? emax - prec) with true
      by (symmetry; apply Z.leb_le; unfold emax, prec; lia).
    reflexivity.
  - rewrite Zdigits2_log2 by lia.
    rewrite (log2_unique' M 23) by lia.
    rewrite fexp_normal by lia.
    replace (23 + 1 + e - 24 - e) with 0 by lia. simpl.
    destruct M as [|m|m]; try lia. simpl.
    replace (e <=? emax - prec) with true
      by (symmetry; apply Z.leb_le; unfold emax, prec; lia).
    reflexivity.
Qed.

(** What [binary_round_aux] computes on a quotient of at least 24 bits,
    away from subnormal numbers and from overflow. *)
Lemma binary_round_aux_spec (N D e : Z) :
  0 <= N -> 0 < D -> 2 ^ 23 <= N / D ->
  -149 <= e + excess N D -> e + excess N D + 1 <= 104 ->
  binary_round_aux prec emax false (N / D) e (loc N D) = round24 N D e.
Proof.
  intros HN HD H He He'. pose proof (excess_nonneg N D H) as Hn.
  unfold binary_round_aux, round24.
  unfold shr_fexp at 1.
  rewrite Zdigits2_log2 by lia.
  rewrite fexp_normal by (unfold excess in He; lia).
  replace (Z.log2 (N / D) + 1 + e - 24 - e) with (excess N D) by (unfold excess; lia).
  rewrite shr_loc by assumption.
  destruct (shr_record_of_loc_inv (N / (D * 2 ^ excess N D)) (loc N (D * 2 ^ excess N D)))
    as [-> ->].
  fold (rne N (D * 2 ^ excess N D)).
  apply normalize24_aux; [apply rne_24_bounds; assumption|lia|lia].
Qed.

(** ** Integral parts *)

Lemma shiftl_nonpos (X E : Z) : E <= 0 -> Z.shiftl X E = X / 2 ^ (- E).
Proof.
  apply Z.shiftl_div_pow2.
Qed.

Lemma shiftl_double (M E : Z) : Z.shiftl (2 * M) E = Z.shiftl M (E + 1).
Proof.
  destruct (Z.le_gt_cases 0 E).
  - rewrite !Z.shiftl_mul_pow2 by lia. rewrite Z.pow_add_r by lia. lia.
  - rewrite !shiftl_nonpos by lia.
    replace (- E) with (1 + - (E + 1)) by lia.
    rewrite Z.pow_add_r by lia. change (2 ^ 1) with 2.
    apply Z.div_mul_cancel_l; [|lia].
    apply Z.pow_nonzero; lia.
Qed.

Lemma trunc_normalize24 (M E : Z) :
  0 < M -> trunc (normalize24 M E) = Some (Z.shiftl M E).
Proof.
  intros HM. unfold normalize24.
  destruct (Z.eqb_spec M (2 ^ 24)) as [->|Hne]; simpl.
  - f_equal. change (2 ^ 24) with (2 * 2 ^ 23). rewrite shiftl_double. reflexivity.
  - rewrite Z2Pos.id by exact HM. reflexivity.
Qed.

(** ** [round24] depends on the value only, and is monotone *)

Lemma log2_quot_shift (N D k : Z) :
  0 < D -> 1 <= N / D -> 0 <= k ->
  Z.log2 (N * 2 ^ k / D) = Z.log2 (N / D) + k.
Proof.
  intros HD H Hk.
  assert (Hp : 0 < 2 ^ k) by (apply Z.pow_pos_nonneg; lia).
  pose proof (log2_bounds (N / D) ltac:(lia)) as [Hlo Hhi].
  pose proof (Z.log2_nonneg (N / D)) as HL.
  apply log2_unique'; [lia|].
  replace (Z.log2 (N / D) + k + 1) with (Z.log2 (N / D) + 1 + k) by lia.
  rewrite !Z.pow_add_r by lia.
  pose proof (Z.div_mod N D ltac:(lia)) as Hdm.
  pose proof (Z.mod_pos_bound N D HD) as Hr.
  assert (H1 : D * 2 ^ Z.log2 (N / D) <= N) by nia.
  assert (H2 : N < D * 2 ^ (Z.log2 (N / D) + 1)) by nia.
  rewrite Z.pow_add_r in H2 by lia.
  split.
  - apply Z.div_le_lower_bound; [lia|].
    rewrite Z.mul_assoc. apply Z.mul_le_mono_nonneg_r; lia.
  - apply Z.div_lt_upper_bound; [lia|].
    rewrite Z.mul_assoc. apply Z.mul_lt_mono_pos_r; lia.
Qed.

Lemma round24_shift (N D e k : Z) :
  0 < D -> 2 ^ 23 <= N / D -> 0 <= k ->
  round24 (N * 2 ^ k) D e = round24 N D (e + k).
Proof.
  intros HD H Hk. unfold round24, excess.
  rewrite log2_quot_shift by (try assumption; lia).
  pose proof (excess_nonneg N D H) as Hn. unfold excess in Hn.
  assert (Hp : 0 < 2 ^ k) by (apply Z.pow_pos_nonneg; lia).
  assert (Hp' : 0 < 2 ^ (Z.log2 (N / D) + 1 - 24)) by (apply Z.pow_pos_nonneg; lia).
  replace (Z.log2 (N / D) + k + 1 - 24) with (Z.log2 (N / D) + 1 - 24 + k) by lia.
  rewrite Z.pow_add_r by lia. rewrite Z.mul_assoc.
  rewrite rne_scale by nia. f_equal. lia.
Qed.

Lemma fle_normalize24 (M1 E1 M2 E2 : Z) :
  2 ^ 23 <= M1 <= 2 ^ 24 -> 2 ^ 23 <= M2 <= 2 ^ 24 ->
  E1 < E2 \/ (E1 = E2 /\ M1 <= M2) ->
  fle (normalize24 M1 E1) (normalize24 M2 E2).
Proof.
  intros H1 H2 Hle. unfold normalize24, fle.
  destruct (Z.eqb_spec M1 (2 ^ 24)) as [->|Hn1], (Z.eqb_spec M2 (2 ^ 24)) as [->|Hn2];
    rewrite ?Z2Pos.id by lia; lia.
Qed.

Lemma round24_mono (N1 N2 D e : Z) :
  0 < D -> 2 ^ 23 <= N1 / D -> N1 <= N2 ->
  fle (round24 N1 D e) (round24 N2 D e).
Proof.
  intros HD H1 Hle.
  assert (Hq : N1 / D <= N2 / D) by (apply Z.div_le_mono; lia).
  assert (H2 : 2 ^ 23 <= N2 / D) by lia.
  unfold round24.
  pose proof (rne_24_bounds N1 D HD H1) as Hb1.
  pose proof (rne_24_bounds N2 D HD H2) as Hb2.
  apply fle_normalize24; try assumption.
  assert (Hn : excess N1 D <= excess N2 D).
  { unfold excess. pose proof (Z.log2_le_mono _ _ Hq). lia. }
  destruct (Z.eq_dec (excess N1 D) (excess N2 D)) as [Heq|Hne].
  - right. split; [lia|]. rewrite Heq. apply rne_mono; [|exact Hle].
    pose proof (excess_nonneg N2 D H2).
    assert (0 < 2 ^ excess N2 D) by (apply Z.pow_pos_nonneg; lia). nia.
  - left. lia.
Qed.

Lemma normal24_normalize24 (M E : Z) : 2 ^ 23 <= M <= 2 ^ 24 -> normal24 (normalize24 M E).
Proof.
  intros H. unfold normalize24, normal24.
  destruct (Z.eqb_spec M (2 ^ 24)) as [->|Hn]; rewrite ?Z2Pos.id by lia; lia.
Qed.

Lemma normal24_round24 (N D e : Z) :
  0 < D -> 2 ^ 23 <= N / D -> normal24 (round24 N D e).
Proof. intros HD H. apply normal24_normalize24, rne_24_bounds; assumption. Qed.

Lemma shiftl_mono_l (a b E : Z) : a <= b -> Z.shiftl a E <= Z.shiftl b E.
Proof.
  intros H. destruct (Z.le_gt_cases 0 E).
  - rewrite !Z.shiftl_mul_pow2 by lia.
    assert (0 < 2 ^ E) by (apply Z.pow_pos_nonneg; lia). nia.
  - rewrite !shiftl_nonpos by lia. apply Z.div_le_mono; [|exact H].
    apply Z.pow_pos_nonneg; lia.
Qed.

Lemma shiftl_mono_r (a E F : Z) : 0 <= a -> E <= F -> Z.shiftl a E <= Z.shiftl a F.
Proof.
  intros Ha H.
  replace F with (E + (F - E)) by lia.
  assert (Hk : 0 <= F - E) by lia. revert Hk. generalize (F - E). intros k Hk.
  pattern k. apply natlike_ind; [| |exact Hk].
  - rewrite Z.add_0_r. lia.
  - intros x Hx IH. replace (E + Z.succ x) with (E + x + 1) by lia.
    rewrite <- shiftl_double. etransitivity; [exact IH|].
    apply shiftl_mono_l. lia.
Qed.

(** The integral part is monotone. *)
Lemma trunc_fle (f g : spec_float) (a b : Z) :
  normal24 f -> normal24 g -> fle f g ->
  trunc f = Some a -> trunc g = Some b -> a <= b.
Proof.
  destruct f as [| | |[] m e], g as [| | |[] m' e']; simpl; try tauto.
  intros Hf Hg Hle [= <-] [= <-].
  destruct Hle as [Hlt|[-> Hm]].
  - etransitivity; [apply (shiftl_mono_l _ (2 * 2 ^ 23)); lia|].
    rewrite shiftl_double.
    etransitivity; [apply (shiftl_mono_r _ _ e'); lia|].
    apply shiftl_mono_l. lia.
  - apply shiftl_mono_l. exact Hm.
Qed.

(** ** The three operations of the ticker *)

Lemma loc_unit (N : Z) : loc N 1 = loc_Exact.
Proof. unfold loc. rewrite Z.mod_1_r. reflexivity. Qed.

Lemma new_location_loc (N D : Z) : 0 < D -> new_location D (N mod D) = loc N D.
Proof.
  intros HD. pose proof (Z.mod_pos_bound N D HD) as Hr.
  unfold new_location, new_location_even, new_location_odd, loc.
  destruct (Z.even D) eqn:He; destruct (Z.eqb_spec (N mod D) 0); try reflexivity.
  f_equal.
  assert (Hodd : Z.odd D = true) by (rewrite <- Z.negb_even, He; reflexivity).
  apply Z.odd_spec in Hodd as [k Hk].
  destruct (Z.compare_spec (2 * (N mod D) + 1) D), (Z.compare_spec (2 * (N mod D)) D);
    try reflexivity; lia.
Qed.

Lemma iter_xO (d p : positive) : Z.pos (Pos.iter xO p d) = Z.pos p * 2 ^ Z.pos d.
Proof.
  induction d as [|d IH] using Pos.peano_ind.
  - simpl. lia.
  - rewrite Pos.iter_succ, Pos2Z.inj_xO, IH, Pos2Z.inj_succ, Z.pow_succ_r by lia. ring.
Qed.

Lemma shl_align_spec (p : positive) (ex ex' : Z) :
  Z.pos (fst (shl_align p ex ex')) = Z.pos p * 2 ^ (ex - Z.min ex ex') /\
  snd (shl_align p ex ex') = Z.min ex ex'.
Proof.
  unfold shl_align. destruct (ex' - ex) as [|d|d] eqn:Hd; simpl fst; simpl snd.
  - replace (Z.min ex ex') with ex by lia. rewrite Z.sub_diag. simpl. lia.
  - replace (Z.min ex ex') with ex by lia. rewrite Z.sub_diag. simpl. lia.
  - replace (Z.min ex ex') with ex' by lia. rewrite iter_xO.
    replace (ex - ex') with (Z.pos d) by lia. split; reflexivity.
Qed.

(** [(float)n] is [n] rounded to 24 bits. *)
Lemma of_Z_spec (n : Z) :
  1 <= n < 2 ^ 32 -> of_Z n = round24 (n * 2 ^ 24) 1 (-24).
Proof.
  intros Hn. destruct n as [|p|p]; try lia.
  unfold of_Z, binary_normalize, binary_round.
  pose proof (shl_align_spec p 0 (fexp prec emax (Z.pos (digits2_pos p) + 0))) as [Hm He].
  destruct (shl_align p 0 _) as [mz ez]. simpl fst in Hm. simpl snd in He.
  rewrite digits2_pos_log2 in He, Hm.
  pose proof (Z.log2_nonneg (Z.pos p)) as HL0.
  assert (HL : Z.log2 (Z.pos p) < 32) by (apply Z.log2_lt_pow2; lia).
  rewrite fexp_normal in He, Hm by lia.
  pose proof (log2_bounds (Z.pos p) ltac:(lia)) as [Hlo Hhi].
  assert (Hez : -23 <= ez <= 0) by lia.
  assert (Hmz : 2 ^ 23 <= Z.pos mz).
  { rewrite Hm. destruct (Z.le_gt_cases 23 (Z.log2 (Z.pos p))) as [Hc|Hc].
    - replace (0 - Z.min 0 (Z.log2 (Z.pos p) + 1 + 0 - 24)) with 0 by lia.
      rewrite Z.mul_1_r. etransitivity; [|exact Hlo]. apply Z.pow_le_mono_r; lia.
    - replace (0 - Z.min 0 (Z.log2 (Z.pos p) + 1 + 0 - 24)) with (23 - Z.log2 (Z.pos p)) by lia.
      replace 23 with (Z.log2 (Z.pos p) + (23 - Z.log2 (Z.pos p))) at 1 by lia.
      rewrite Z.pow_add_r by lia.
      apply Z.mul_le_mono_nonneg_r; [apply Z.pow_nonneg; lia|exact Hlo]. }
  assert (Hmz' : Z.pos mz < 2 ^ 32).
  { rewrite Hm. destruct (Z.le_gt_cases 23 (Z.log2 (Z.pos p))) as [Hc|Hc].
    - replace (0 - Z.min 0 (Z.log2 (Z.pos p) + 1 + 0 - 24)) with 0 by lia. lia.
    - replace (0 - Z.min 0 (Z.log2 (Z.pos p) + 1 + 0 - 24)) with (23 - Z.log2 (Z.pos p)) by lia.
      apply Z.lt_le_trans with (2 ^ (Z.log2 (Z.pos p) + 1) * 2 ^ (23 - Z.log2 (Z.pos p))).
      + apply Z.mul_lt_mono_pos_r; [apply Z.pow_pos_nonneg; lia|exact Hhi].
      + rewrite <- Z.pow_add_r by lia. apply Z.pow_le_mono_r; lia. }
  assert (Hex : 0 <= excess (Z.pos mz) 1 <= 8).
  { unfold excess. rewrite Z.div_1_r.
    assert (Z.log2 (Z.pos mz) < 32) by (apply Z.log2_lt_pow2; lia).
    assert (23 <= Z.log2 (Z.pos mz)) by (change 23 with (Z.log2 (2 ^ 23)); apply Z.log2_le_mono; lia).
    lia. }
  rewrite <- (Z.div_1_r (Z.pos mz)). rewrite <- (loc_unit (Z.pos mz)).
  rewrite binary_round_aux_spec; try lia; [|rewrite Z.div_1_r; lia].
  replace (Z.pos p * 2 ^ 24) with (Z.pos mz * 2 ^ (24 + ez)).
  - rewrite round24_shift; [f_equal; lia|lia|rewrite Z.div_1_r; lia|lia].
  - rewrite Hm, <- Z.mul_assoc, <- Z.pow_add_r by lia. f_equal. f_equal. lia.
Qed.

Lemma TIME_US_PER_TICK_eq : LpTicker.TIME_US_PER_TICK = S754_finite false 16000000 (-19).
Proof. vm_compute. reflexivity. Qed.

(** [f / TIME_US_PER_TICK] *)
Lemma div_tick_spec (m : positive) (e : Z) :
  2 ^ 23 <= Z.pos m < 2 ^ 24 -> -100 <= e <= 100 ->
  div (S754_finite false m e) LpTicker.TIME_US_PER_TICK
  = round24 (Z.pos m * 2 ^ 24) 16000000 (e - 5).
Proof.
  intros Hm He. rewrite TIME_US_PER_TICK_eq. unfold div, SFdiv, SFdiv_core_binary.
  rewrite !Zdigits2_log2 by lia.
  rewrite (log2_unique' (Z.pos m) 23) by lia.
  change (Z.log2 16000000) with 23.
  rewrite fexp_normal by lia.
  replace (Z.min (23 + 1 + e - (23 + 1 + -19) - 24) (e - -19)) with (e - 5) by lia.
  replace (e - -19 - (e - 5)) with 24 by lia.
  rewrite Z.shiftl_mul_pow2 by lia.
  pose proof (Z.div_eucl_eq (Z.pos m * 2 ^ 24) 16000000 ltac:(lia)) as Hde.
  assert (Hq : fst (Z.div_eucl (Z.pos m * 2 ^ 24) 16000000) = Z.pos m * 2 ^ 24 / 16000000)
    by reflexivity.
  assert (Hr : snd (Z.div_eucl (Z.pos m * 2 ^ 24) 16000000) = (Z.pos m * 2 ^ 24) mod 16000000)
    by reflexivity.
  destruct (Z.div_eucl (Z.pos m * 2 ^ 24) 16000000) as [q r]. simpl in Hq, Hr. subst q r.
  simpl xorb. rewrite new_location_loc by lia.
  assert (Hquot : 2 ^ 23 <= Z.pos m * 2 ^ 24 / 16000000 < 2 ^ 25).
  { split; [apply Z.div_le_lower_bound; lia|apply Z.div_lt_upper_bound; lia]. }
  assert (Hex : 0 <= excess (Z.pos m * 2 ^ 24) 16000000 <= 1).
  { unfold excess.
    assert (Z.log2 (Z.pos m * 2 ^ 24 / 16000000) < 25) by (apply Z.log2_lt_pow2; lia).
    assert (23 <= Z.log2 (Z.pos m * 2 ^ 24 / 16000000))
      by (change 23 with (Z.log2 (2 ^ 23)); apply Z.log2_le_mono; lia).
    lia. }
  apply binary_round_aux_spec; lia.
Qed.

(** [f * TIME_US_PER_TICK] *)
Lemma mul_tick_spec (m : positive) (e : Z) :
  2 ^ 23 <= Z.pos m < 2 ^ 24 -> -100 <= e <= 50 ->
  mul (S754_finite false m e) LpTicker.TIME_US_PER_TICK
  = round24 (Z.pos m * 16000000) 1 (e - 19).
Proof.
  intros Hm He. rewrite TIME_US_PER_TICK_eq. unfold mul, SFmul. simpl xorb.
  rewrite Pos2Z.inj_mul.
  rewrite <- (Z.div_1_r (Z.pos m * 16000000)) at 1. rewrite <- (loc_unit (Z.pos m * 16000000)).
  assert (Hex : 23 <= excess (Z.pos m * 16000000) 1 <= 24).
  { unfold excess. rewrite Z.div_1_r.
    assert (Z.log2 (Z.pos m * 16000000) < 48) by (apply Z.log2_lt_pow2; lia).
    assert (46 <= Z.log2 (Z.pos m * 16000000))
      by (change 46 with (Z.log2 (2 ^ 46)); apply Z.log2_le_mono; lia).
    lia. }
  replace (e + -19) with (e - 19) by lia.
  apply binary_round_aux_spec; try lia. rewrite Z.div_1_r. lia.
Qed.

(** ** Shape and order of the results *)

Lemma round24_finite (N D e : Z) :
  0 < D -> 2 ^ 23 <= N / D ->
  exists m e',
    round24 N D e = S754_finite false m e' /\
    2 ^ 23 <= Z.pos m < 2 ^ 24 /\
    e + excess N D <= e' <= e + excess N D + 1.
Proof.
  intros HD H. pose proof (rne_24_bounds N D HD H) as Hb.
  unfold round24, normalize24.
  destruct (Z.eqb_spec (rne N (D * 2 ^ excess N D)) (2 ^ 24)) as [Heq|Hne].
  - eexists _, _. split; [reflexivity|]. split; [simpl; lia|lia].
  - eexists _, _. split; [reflexivity|]. rewrite Z2Pos.id by lia. split; lia.
Qed.

Lemma scaled_quot (A D m : Z) : 0 < D -> D <= A -> 2 ^ 23 <= m -> 2 ^ 23 <= m * A / D.
Proof.
  intros HD HA Hm. apply Z.div_le_lower_bound; [lia|]. nia.
Qed.

(** Scaling by a fixed ratio [A/D] of at least 1 and rounding is monotone. *)
Lemma round24_scaled_mono (A D c : Z) (m m' : positive) (e e' : Z) :
  0 < D -> D <= A ->
  2 ^ 23 <= Z.pos m < 2 ^ 24 -> 2 ^ 23 <= Z.pos m' < 2 ^ 24 ->
  fle (S754_finite false m e) (S754_finite false m' e') ->
  fle (round24 (Z.pos m * A) D (e + c)) (round24 (Z.pos m' * A) D (e' + c)).
Proof.
  intros HD HA Hm Hm' Hle. simpl in Hle.
  pose proof (scaled_quot A D (Z.pos m) HD HA ltac:(lia)) as Hq.
  pose proof (scaled_quot A D (Z.pos m') HD HA ltac:(lia)) as Hq'.
  destruct Hle as [Hlt|[<- Hmm]].
  - assert (Hk : 0 <= e' - e) by lia.
    replace (e' + c) with (e + c + (e' - e)) by lia.
    rewrite <- (round24_shift (Z.pos m' * A) D (e + c) (e' - e)) by assumption.
    apply round24_mono; [assumption|assumption|].
    assert (2 <= 2 ^ (e' - e)).
    { change 2 with (2 ^ 1) at 1. apply Z.pow_le_mono_r; lia. }
    replace (Z.pos m' * A * 2 ^ (e' - e)) with (Z.pos m' * 2 ^ (e' - e) * A) by ring.
    apply Z.mul_le_mono_nonneg_r; [lia|]. nia.
  - apply round24_mono; [assumption|assumption|]. nia.
Qed.

Lemma of_Z_mono (a b : Z) : 1 <= a <= b -> b < 2 ^ 32 -> fle (of_Z a) (of_Z b).
Proof.
  intros Ha Hb. rewrite !of_Z_spec by lia.
  apply round24_mono; [lia|rewrite Z.div_1_r; lia|lia].
Qed.

Lemma of_Z_finite (n : Z) :
  1 <= n < 2 ^ 32 ->
  exists m e, of_Z n = S754_finite false m e /\
              2 ^ 23 <= Z.pos m < 2 ^ 24 /\ -24 <= e <= 9.
Proof.
  intros Hn. rewrite of_Z_spec by exact Hn.
  destruct (round24_finite (n * 2 ^ 24) 1 (-24)) as (m & e & Heq & Hm & He);
    [lia|rewrite Z.div_1_r; lia|].
  exists m, e. split; [exact Heq|]. split; [exact Hm|].
  assert (Hex : 1 <= excess (n * 2 ^ 24) 1 <= 32).
  { unfold excess. rewrite Z.div_1_r.
    assert (Z.log2 (n * 2 ^ 24) < 56) by (apply Z.log2_lt_pow2; lia).
    assert (24 <= Z.log2 (n * 2 ^ 24)) by (apply Z.log2_le_pow2; lia).
    lia. }
  lia.
Qed.

End Float32Facts.

(* ===================================================================== *)
(** * Facts about the unit conversions of lp_ticker_api.c                 *)
(* ===================================================================== *)

Module ConversionFacts.
Import Float32 Float32Spec Float32Facts LpTicker LpTickerSpec.

Lemma to_u32_trunc (f : spec_float) (v : Z) :
  trunc f = Some v -> 0 <= v < 2 ^ 32 -> to_u32 f = Some v.
Proof.
  intros Ht Hv. unfold to_u32. rewrite Ht. simpl.
  replace ((0 <=? v) && (v <? 2 ^ 32)) with true; [reflexivity|].
  symmetry. apply andb_true_iff. split; [apply Z.leb_le|apply Z.ltb_lt]; lia.
Qed.

Lemma to_u32_inv (f : spec_float) (v : Z) :
  to_u32 f = Some v -> trunc f = Some v /\ 0 <= v < 2 ^ 32.
Proof.
  unfold to_u32. destruct (trunc f) as [x|]; simpl; [|discriminate].
  destruct ((0 <=? x) && (x <? 2 ^ 32)) eqn:Hb; [|discriminate].
  intros [= <-]. apply andb_true_iff in Hb as [H1 H2].
  apply Z.leb_le in H1. apply Z.ltb_lt in H2. split; [reflexivity|lia].
Qed.

Lemma trunc_normal24_nonneg (f : spec_float) :
  normal24 f -> exists v, trunc f = Some v /\ 0 <= v.
Proof.
  destruct f as [| | |[] m e]; simpl; try tauto. intros _.
  eexists. split; [reflexivity|]. apply Z.shiftl_nonneg. lia.
Qed.

Lemma ticks_float_spec (ts : Z) :
  1 <= ts < 2 ^ 32 ->
  exists m e, of_Z ts = S754_finite false m e /\
              2 ^ 23 <= Z.pos m < 2 ^ 24 /\ -24 <= e <= 9 /\
              ticks_float ts = round24 (Z.pos m * 2 ^ 24) 16000000 (e - 5).
Proof.
  intros Hts. destruct (of_Z_finite ts Hts) as (m & e & Heq & Hm & He).
  exists m, e. repeat split; try assumption; try lia.
  unfold ticks_float. rewrite Heq. apply div_tick_spec; lia.
Qed.

Lemma us_float_spec (c : Z) :
  1 <= c < 2 ^ 32 ->
  exists m e, of_Z c = S754_finite false m e /\
              2 ^ 23 <= Z.pos m < 2 ^ 24 /\ -24 <= e <= 9 /\
              us_float c = round24 (Z.pos m * 16000000) 1 (e - 19).
Proof.
  intros Hc. destruct (of_Z_finite c Hc) as (m & e & Heq & Hm & He).
  exists m, e. repeat split; try assumption; try lia.
  unfold us_float. rewrite Heq. apply mul_tick_spec; lia.
Qed.

Lemma ticks_float_normal (ts : Z) : 1 <= ts < 2 ^ 32 -> normal24 (ticks_float ts).
Proof.
  intros Hts. destruct (ticks_float_spec ts Hts) as (m & e & _ & Hm & _ & ->).
  apply normal24_round24; [lia|]. apply scaled_quot; lia.
Qed.

Lemma us_float_normal (c : Z) : 1 <= c < 2 ^ 32 -> normal24 (us_float c).
Proof.
  intros Hc. destruct (us_float_spec c Hc) as (m & e & _ & Hm & _ & ->).
  apply normal24_round24; [lia|]. apply scaled_quot; lia.
Qed.

Lemma ticks_float_mono (a b : Z) :
  1 <= a <= b -> b < 2 ^ 32 -> fle (ticks_float a) (ticks_float b).
Proof.
  intros Ha Hb. pose proof (of_Z_mono a b Ha Hb) as Hle.
  destruct (ticks_float_spec a ltac:(lia)) as (m & e & Heq & Hm & _ & ->).
  destruct (ticks_float_spec b ltac:(lia)) as (m' & e' & Heq' & Hm' & _ & ->).
  rewrite Heq, Heq' in Hle.
  replace (e - 5) with (e + -5) by lia. replace (e' - 5) with (e' + -5) by lia.
  apply round24_scaled_mono; try assumption; lia.
Qed.

Lemma us_float_mono (a b : Z) :
  1 <= a <= b -> b < 2 ^ 32 -> fle (us_float a) (us_float b).
Proof.
  intros Ha Hb. pose proof (of_Z_mono a b Ha Hb) as Hle.
  destruct (us_float_spec a ltac:(lia)) as (m & e & Heq & Hm & _ & ->).
  destruct (us_float_spec b ltac:(lia)) as (m' & e' & Heq' & Hm' & _ & ->).
  rewrite Heq, Heq' in Hle.
  replace (e - 19) with (e + -19) by lia. replace (e' - 19) with (e' + -19) by lia.
  apply round24_scaled_mono; try assumption; lia.
Qed.

(** The conversion of a deadline to ticks is defined on every 32-bit
    timestamp, the tick value stays below 2^28. *)
Lemma us_to_ticks_total (ts : Z) :
  0 <= ts < 2 ^ 32 -> exists n, us_to_ticks ts = Some n /\ 0 <= n <= 140737488.
Proof.
  intros Hts. destruct (Z.eq_dec ts 0) as [->|Hne].
  - exists 0. split; [vm_compute; reflexivity|lia].
  - assert (Hmax : us_to_ticks 4294967295 = Some 140737488) by (vm_compute; reflexivity).
    apply to_u32_inv in Hmax as [Hmax _].
    destruct (trunc_normal24_nonneg (ticks_float ts)) as (v & Hv & Hv0);
      [apply ticks_float_normal; lia|].
    pose proof (trunc_fle (ticks_float ts) (ticks_float 4294967295) v 140737488
                  (ticks_float_normal ts ltac:(lia)) (ticks_float_normal 4294967295 ltac:(lia))
                  (ticks_float_mono ts 4294967295 ltac:(lia) ltac:(lia)) Hv Hmax) as Hle.
    exists v. split; [|lia]. apply to_u32_trunc; [exact Hv|lia].
Qed.

(** The conversion of a tick count to microseconds is monotone as far as
    it is defined. *)
Lemma ticks_to_us_mono (a b vb : Z) :
  0 <= a <= b -> b < 2 ^ 32 -> ticks_to_us b = Some vb ->
  exists va, ticks_to_us a = Some va /\ va <= vb.
Proof.
  intros Ha Hb Hvb. pose proof (to_u32_inv _ _ Hvb) as [Htb Hrb].
  destruct (Z.eq_dec a 0) as [->|Hne].
  - exists 0. split; [vm_compute; reflexivity|lia].
  - destruct (trunc_normal24_nonneg (us_float a)) as (v & Hv & Hv0);
      [apply us_float_normal; lia|].
    pose proof (trunc_fle (us_float a) (us_float b) v vb
                  (us_float_normal a ltac:(lia)) (us_float_normal b ltac:(lia))
                  (us_float_mono a b ltac:(lia) Hb) Hv Htb) as Hle.
    exists v. split; [|exact Hle]. apply to_u32_trunc; [exact Hv|lia].
Qed.

(** ** Round trip *)

(** Integers below 2^24 are floats. *)
Lemma of_Z_exact (n : Z) :
  1 <= n < 2 ^ 24 ->
  exists m e, of_Z n = S754_finite false m e /\
              2 ^ 23 <= Z.pos m < 2 ^ 24 /\ -23 <= e <= 0 /\
              Z.pos m = n * 2 ^ (- e).
Proof.
  intros Hn. rewrite of_Z_spec by lia. unfold round24.
  set (x := excess (n * 2 ^ 24) 1).
  pose proof (Z.log2_nonneg n) as HL0.
  assert (HL : Z.log2 n < 24) by (apply Z.log2_lt_pow2; lia).
  pose proof (log2_bounds n ltac:(lia)) as [Hlo Hhi].
  assert (Hx : x = Z.log2 n + 1).
  { unfold x, excess. rewrite Z.div_1_r. rewrite Z.log2_mul_pow2 by lia. lia. }
  assert (Hsplit : 2 ^ (24 - x) * 2 ^ x = 2 ^ 24)
    by (rewrite <- Z.pow_add_r by lia; f_equal; lia).
  assert (Hp1 : 0 < 2 ^ (24 - x)) by (apply Z.pow_pos_nonneg; lia).
  assert (Hp2 : 0 < 2 ^ x) by (apply Z.pow_pos_nonneg; lia).
  assert (Hrne : rne (n * 2 ^ 24) (1 * 2 ^ x) = n * 2 ^ (24 - x)).
  { rewrite <- Hsplit, Z.mul_assoc, Z.mul_1_l. apply rne_exact. exact Hp2. }
  rewrite Hrne.
  assert (Hlo' : 2 ^ 23 <= n * 2 ^ (24 - x)).
  { replace 23 with (Z.log2 n + (24 - x)) at 1 by lia. rewrite Z.pow_add_r by lia.
    apply Z.mul_le_mono_nonneg_r; lia. }
  assert (Hhi' : n * 2 ^ (24 - x) < 2 ^ 24).
  { rewrite <- Hsplit. rewrite (Z.mul_comm (2 ^ (24 - x))).
    apply Z.mul_lt_mono_pos_r; [exact Hp1|]. rewrite Hx. exact Hhi. }
  unfold normalize24.
  destruct (Z.eqb_spec (n * 2 ^ (24 - x)) (2 ^ 24)) as [Heq|_]; [lia|].
  eexists _, _. split; [reflexivity|]. rewrite Z2Pos.id by lia.
  split; [lia|]. split; [lia|]. f_equal. f_equal. lia.
Qed.

Lemma ticks_float_small (ts : Z) :
  1 <= ts < 2 ^ 24 -> ticks_float ts = round24 (ts * 2 ^ 48) 16000000 (-29).
Proof.
  intros Hts. destruct (of_Z_exact ts Hts) as (m & e & Heq & Hm & He & Hme).
  unfold ticks_float. rewrite Heq, div_tick_spec by lia.
  replace (ts * 2 ^ 48) with (Z.pos m * 2 ^ 24 * 2 ^ (24 + e)).
  - rewrite (round24_shift (Z.pos m * 2 ^ 24) 16000000 (-29) (24 + e));
      [f_equal; lia|lia|apply scaled_quot; lia|lia].
  - rewrite Hme.
    replace (ts * 2 ^ (- e) * 2 ^ 24 * 2 ^ (24 + e))
      with (ts * (2 ^ (- e) * 2 ^ (24 + e) * 2 ^ 24)) by ring.
    rewrite <- Z.pow_add_r by lia.
    replace (- e + (24 + e)) with 24 by lia. reflexivity.
Qed.

Lemma us_float_small (c : Z) :
  1 <= c < 2 ^ 24 -> us_float c = round24 (c * 16000000 * 2 ^ 24) 1 (-43).
Proof.
  intros Hc. destruct (of_Z_exact c Hc) as (m & e & Heq & Hm & He & Hme).
  unfold us_float. rewrite Heq, mul_tick_spec by lia.
  replace (c * 16000000 * 2 ^ 24) with (Z.pos m * 16000000 * 2 ^ (24 + e)).
  - rewrite (round24_shift (Z.pos m * 16000000) 1 (-43) (24 + e));
      [f_equal; lia|lia|apply scaled_quot; lia|lia].
  - rewrite Hme.
    replace (c * 2 ^ (- e) * 16000000 * 2 ^ (24 + e))
      with (c * 16000000 * (2 ^ (- e) * 2 ^ (24 + e))) by ring.
    rewrite <- Z.pow_add_r by lia.
    replace (- e + (24 + e)) with 24 by lia. reflexivity.
Qed.

(** The integral part of a rounded value below 2^24, as a quotient of
    integers: [A/B] is the value, [2^-s] the last place of the float. *)
Lemma trunc_round24_frac (N D e A B : Z) :
  0 < D -> 2 ^ 23 <= N / D -> 0 < B ->
  e + excess N D <= 0 ->
  N * B = A * 2 ^ (- (e + excess N D)) * (D * 2 ^ excess N D) ->
  trunc (round24 N D e)
  = Some (rne (A * 2 ^ (- (e + excess N D))) B / 2 ^ (- (e + excess N D))).
Proof.
  intros HD H HB Hs Heq. unfold round24.
  pose proof (rne_24_bounds N D HD H) as Hb.
  rewrite trunc_normalize24 by lia.
  rewrite shiftl_nonpos by exact Hs.
  f_equal. f_equal. apply rne_ratio; [|exact HB|exact Heq].
  pose proof (excess_nonneg N D H).
  assert (0 < 2 ^ excess N D) by (apply Z.pow_pos_nonneg; lia). nia.
Qed.

(** Rounding at a finer place and truncating stays between the floor of
    the value and the value plus half of that place. *)
Lemma trunc_rne_bounds (A B K : Z) :
  0 < B -> 0 < K ->
  A / B <= rne (A * K) B / K /\
  2 * B * K * (rne (A * K) B / K) <= 2 * A * K + B.
Proof.
  intros HB HK.
  pose proof (rne_near (A * K) B HB) as [_ Hhi].
  pose proof (rne_floor_ceil (A * K) B HB) as [Hfl _].
  pose proof (Z.div_mod (rne (A * K) B) K ltac:(lia)) as Hdm.
  pose proof (Z.mod_pos_bound (rne (A * K) B) K HK) as Hr.
  split.
  - apply Z.div_le_lower_bound; [exact HK|].
    etransitivity; [|exact Hfl].
    apply Z.div_le_lower_bound; [exact HB|].
    pose proof (Z.div_mod A B ltac:(lia)). pose proof (Z.mod_pos_bound A B HB). nia.
  - nia.
Qed.

(** Microseconds to ticks below 2^24: the tick value is the floor of
    [ts * 32768 / 10^6 = ts * 512 / 15625] or, when the quotient is within
    half a last place of the next integer, that integer. *)
Lemma us_to_ticks_small (ts : Z) :
  1 <= ts < 2 ^ 24 ->
  exists n, us_to_ticks ts = Some n /\
            ts * 512 / 15625 <= n /\
            n * 15625 <= ts * 512 + 488 /\
            (ts < 16000000 -> n * 15625 <= ts * 512 + 244).
Proof.
  intros Hts. unfold us_to_ticks. fold (ticks_float ts).
  rewrite ticks_float_small by exact Hts.
  assert (Hq : 2 ^ 23 <= ts * 2 ^ 48 / 16000000 < 2 ^ 49).
  { split; [apply Z.div_le_lower_bound; lia|apply Z.div_lt_upper_bound; lia]. }
  assert (Hx : 0 <= excess (ts * 2 ^ 48) 16000000 <= 25).
  { unfold excess.
    assert (Z.log2 (ts * 2 ^ 48 / 16000000) < 49) by (apply Z.log2_lt_pow2; lia).
    assert (23 <= Z.log2 (ts * 2 ^ 48 / 16000000)) by (apply Z.log2_le_pow2; lia).
    lia. }
  assert (Hx' : ts < 16000000 -> excess (ts * 2 ^ 48) 16000000 <= 24).
  { intros Hlt. unfold excess.
    assert (Z.log2 (ts * 2 ^ 48 / 16000000) < 48); [|lia].
    apply Z.log2_lt_pow2; [lia|]. apply Z.div_lt_upper_bound; lia. }
  set (x := excess (ts * 2 ^ 48) 16000000) in *.
  assert (Hsx : 2 ^ (- (-29 + x)) * 2 ^ x = 2 ^ 29)
    by (rewrite <- Z.pow_add_r by lia; f_equal; lia).
  assert (HK : 16 <= 2 ^ (- (-29 + x)))
    by (change 16 with (2 ^ 4); apply Z.pow_le_mono_r; lia).
  assert (HK' : ts < 16000000 -> 32 <= 2 ^ (- (-29 + x))).
  { intros Hlt. specialize (Hx' Hlt). change 32 with (2 ^ 5). apply Z.pow_le_mono_r; lia. }
  unfold to_u32.
  rewrite (trunc_round24_frac (ts * 2 ^ 48) 16000000 (-29) (ts * 512) 15625);
    [|lia|lia|lia|fold x; lia|fold x].
  2:{ replace (ts * 512 * 2 ^ (- (-29 + x)) * (16000000 * 2 ^ x))
        with (ts * 512 * 16000000 * (2 ^ (- (-29 + x)) * 2 ^ x)) by ring.
      rewrite Hsx. lia. }
  fold x. set (K := 2 ^ (- (-29 + x))) in *.
  destruct (trunc_rne_bounds (ts * 512) 15625 K ltac:(lia) ltac:(lia)) as [Hlo Hhi].
  set (t := rne (ts * 512 * K) 15625 / K) in *.
  assert (H0 : 0 <= ts * 512 / 15625) by (apply Z.div_pos; lia).
  assert (Hup : t * 15625 <= ts * 512 + 488) by nia.
  assert (Hup' : ts < 16000000 -> t * 15625 <= ts * 512 + 244).
  { intros Hlt. specialize (HK' Hlt). nia. }
  exists t. split; [|tauto].
  simpl. replace ((0 <=? t) && (t <? 2 ^ 32)) with true; [reflexivity|].
  symmetry. apply andb_true_iff. split; [apply Z.leb_le|apply Z.ltb_lt]; lia.
Qed.

(** Ticks to microseconds while the value stays below 2^24: the floor of
    [c * 10^6 / 32768 = c * 15625 / 512], or the next integer when the
    value is within half a last place of it. *)
Lemma ticks_to_us_small (c : Z) :
  1 <= c -> c * 15625 < 2 ^ 33 ->
  exists v, ticks_to_us c = Some v /\
            c * 15625 / 512 <= v /\
            v * 512 <= c * 15625 + 256.
Proof.
  intros Hc Hlt. unfold ticks_to_us. fold (us_float c).
  rewrite us_float_small by lia.
  assert (Hx : 23 <= excess (c * 16000000 * 2 ^ 24) 1 <= 43).
  { unfold excess. rewrite Z.div_1_r.
    assert (Z.log2 (c * 16000000 * 2 ^ 24) < 67) by (apply Z.log2_lt_pow2; lia).
    assert (46 <= Z.log2 (c * 16000000 * 2 ^ 24)) by (apply Z.log2_le_pow2; lia).
    lia. }
  set (x := excess (c * 16000000 * 2 ^ 24) 1) in *.
  assert (Hsx : 2 ^ (- (-43 + x)) * 2 ^ x = 2 ^ 43)
    by (rewrite <- Z.pow_add_r by lia; f_equal; lia).
  assert (HK : 1 <= 2 ^ (- (-43 + x)))
    by (change 1 with (2 ^ 0) at 1; apply Z.pow_le_mono_r; lia).
  unfold to_u32.
  rewrite (trunc_round24_frac (c * 16000000 * 2 ^ 24) 1 (-43) (c * 15625) 512);
    [|lia|rewrite Z.div_1_r; lia|lia|fold x; lia|fold x].
  2:{ replace (c * 15625 * 2 ^ (- (-43 + x)) * (1 * 2 ^ x))
        with (c * 15625 * (2 ^ (- (-43 + x)) * 2 ^ x)) by ring.
      rewrite Hsx. lia. }
  fold x. set (K := 2 ^ (- (-43 + x))) in *.
  destruct (trunc_rne_bounds (c * 15625) 512 K ltac:(lia) ltac:(lia)) as [Hlo Hhi].
  set (v := rne (c * 15625 * K) 512 / K) in *.
  assert (H0 : 0 <= c * 15625 / 512) by (apply Z.div_pos; lia).
  assert (Hup : v * 512 <= c * 15625 + 256) by nia.
  exists v. split; [|split; [exact Hlo|exact Hup]].
  simpl. replace ((0 <=? v) && (v <? 2 ^ 32)) with true; [reflexivity|].
  symmetry. apply andb_true_iff. split; [apply Z.leb_le|apply Z.ltb_lt]; lia.
Qed.

(** The way back from the tick value of a timestamp below 2^24 is
    defined and loses at most 31 microseconds. *)
Lemma ticks_back_lower (ts n : Z) :
  0 <= ts < 2 ^ 24 -> us_to_ticks ts = Some n ->
  exists v, ticks_to_us n = Some v /\ ts - 31 <= v.
Proof.
  intros Hts Hn. destruct (Z.eq_dec ts 0) as [->|Hne].
  - assert (n = 0) as -> by (vm_compute in Hn; congruence).
    exists 0. split; [vm_compute; reflexivity|lia].
  - destruct (us_to_ticks_small ts ltac:(lia)) as (n' & Hn' & Hlo & Hhi & _).
    rewrite Hn in Hn'. injection Hn' as <-.
    pose proof (Z.div_mod (ts * 512) 15625 ltac:(lia)) as Hdm.
    pose proof (Z.mod_pos_bound (ts * 512) 15625 ltac:(lia)) as Hr.
    assert (H0 : 0 <= ts * 512 / 15625) by (apply Z.div_pos; lia).
    destruct (Z.eq_dec n 0) as [->|Hn0].
    + exists 0. split; [vm_compute; reflexivity|lia].
    + destruct (ticks_to_us_small n ltac:(lia) ltac:(lia)) as (v & Hv & Hvlo & _).
      exists v. split; [exact Hv|].
      pose proof (Z.div_mod (n * 15625) 512 ltac:(lia)) as Hdm'.
      pose proof (Z.mod_pos_bound (n * 15625) 512 ltac:(lia)) as Hr'. lia.
Qed.

(** Tick counts up to 140737479 convert to microseconds. *)
Lemma ticks_to_us_total (c : Z) :
  0 <= c <= 140737479 -> exists v, ticks_to_us c = Some v.
Proof.
  intros Hc.
  assert (Hmax : ticks_to_us 140737479 = Some 4294966784) by (vm_compute; reflexivity).
  destruct (ticks_to_us_mono c 140737479 _ ltac:(lia) ltac:(lia) Hmax) as (v & Hv & _).
  exists v. exact Hv.
Qed.

End ConversionFacts.

(* ===================================================================== *)
(** * The error of the conversions on all 32-bit values                   *)
(* ===================================================================== *)

Module RoundTripFacts.
Import Float32 Float32Spec Float32Facts LpTicker LpTickerSpec ConversionFacts.

Lemma scaled_normalize24 (M E : Z) :
  2 ^ 23 <= M <= 2 ^ 24 -> -64 <= E -> scaled (normalize24 M E) = M * 2 ^ (E + 64).
Proof.
  intros HM HE. unfold normalize24.
  destruct (Z.eqb_spec M (2 ^ 24)) as [->|Hne]; unfold scaled.
  - rewrite Z2Pos.id by lia.
    replace (E + 1 + 64) with (1 + (E + 64)) by lia.
    rewrite Z.pow_add_r by lia.
    change (2 ^ 24) with (2 ^ 23 * 2 ^ 1). ring.
  - rewrite Z2Pos.id by lia. reflexivity.
Qed.

(** Rounding to 24 bits moves a value by at most 2^-24 of itself. *)
Lemma round24_rel (N D e : Z) :
  0 < D -> 2 ^ 23 <= N / D -> -64 <= e ->
  (2 ^ 24 - 1) * (N * 2 ^ (e + 64)) <= 2 ^ 24 * (D * scaled (round24 N D e))
    <= (2 ^ 24 + 1) * (N * 2 ^ (e + 64)).
Proof.
  intros HD HN He. unfold round24.
  pose proof (excess_nonneg N D HN) as Hn.
  pose proof (rne_24_bounds N D HD HN) as HR.
  pose proof (excess_quot N D HD HN) as [Hq _].
  set (n := excess N D) in *. clearbody n.
  assert (Hp : 0 < 2 ^ n) by (apply Z.pow_pos_nonneg; lia).
  assert (HW : 0 < D * 2 ^ n) by (apply Z.mul_pos_pos; lia).
  pose proof (rne_near N (D * 2 ^ n) HW) as Hnear.
  set (R := rne N (D * 2 ^ n)) in *. clearbody R.
  rewrite scaled_normalize24 by lia.
  replace (e + n + 64) with (n + (e + 64)) by lia.
  rewrite (Z.pow_add_r 2 n (e + 64)) by lia.
  assert (Hs : 0 < 2 ^ (e + 64)) by (apply Z.pow_pos_nonneg; lia).
  set (s := 2 ^ (e + 64)) in *. clearbody s.
  assert (HNW : 2 ^ 23 * (D * 2 ^ n) <= N).
  { pose proof (Z.mul_div_le N (D * 2 ^ n) HW) as Hle.
    assert (2 ^ 23 * (D * 2 ^ n) <= (D * 2 ^ n) * (N / (D * 2 ^ n))); [|lia].
    rewrite (Z.mul_comm (2 ^ 23)). apply Z.mul_le_mono_nonneg_l; lia. }
  set (W := D * 2 ^ n) in *.
  assert (HX : (2 ^ 24 - 1) * N <= 2 ^ 24 * (W * R) <= (2 ^ 24 + 1) * N).
  { replace (2 * W * R) with (2 * (W * R)) in Hnear by ring.
    set (X := W * R) in *. clearbody X. lia. }
  replace (2 ^ 24 * (D * (R * (2 ^ n * s)))) with (2 ^ 24 * (W * R) * s) by (unfold W; ring).
  replace ((2 ^ 24 - 1) * (N * s)) with ((2 ^ 24 - 1) * N * s) by ring.
  replace ((2 ^ 24 + 1) * (N * s)) with ((2 ^ 24 + 1) * N * s) by ring.
  split; apply Z.mul_le_mono_nonneg_r; lia.
Qed.

(** Truncation keeps the integral part. *)
Lemma trunc_scaled (m : positive) (E n : Z) :
  -64 <= E -> trunc (S754_finite false m E) = Some n ->
  n * 2 ^ 64 <= scaled (S754_finite false m E) < (n + 1) * 2 ^ 64.
Proof.
  intros HE [= <-]. simpl.
  destruct (Z.le_gt_cases 0 E) as [Hpos|Hneg].
  - rewrite Z.shiftl_mul_pow2 by lia. rewrite Z.pow_add_r by lia.
    assert (0 < 2 ^ E) by (apply Z.pow_pos_nonneg; lia).
    set (x := Z.pos m * 2 ^ E). nia.
  - rewrite shiftl_nonpos by lia.
    assert (Hk : 0 < 2 ^ (- E)) by (apply Z.pow_pos_nonneg; lia).
    assert (Hs : 0 < 2 ^ (E + 64)) by (apply Z.pow_pos_nonneg; lia).
    assert (Hsplit : 2 ^ 64 = 2 ^ (- E) * 2 ^ (E + 64))
      by (rewrite <- Z.pow_add_r by lia; f_equal; lia).
    rewrite Hsplit.
    pose proof (Z.div_mod (Z.pos m) (2 ^ (- E)) ltac:(lia)) as Hd.
    pose proof (Z.mod_pos_bound (Z.pos m) (2 ^ (- E)) Hk) as Hr.
    set (q := Z.pos m / 2 ^ (- E)) in *. set (r := Z.pos m mod 2 ^ (- E)) in *.
    set (k := 2 ^ (- E)) in *. set (s := 2 ^ (E + 64)) in *.
    clearbody q r k s. rewrite Hd. nia.
Qed.

(** The integral part of a float is a float. *)
Lemma of_Z_trunc_exact (f : spec_float) (n : Z) :
  normal24 f -> trunc f = Some n -> 1 <= n < 2 ^ 32 ->
  scaled (of_Z n) = n * 2 ^ 64.
Proof.
  destruct f as [| | |[] m E]; simpl normal24; try tauto.
  intros Hm Ht Hn. injection Ht as Ht.
  destruct (Z.le_gt_cases E 0) as [Hneg|Hpos].
  - assert (Hlt : n < 2 ^ 24).
    { rewrite <- Ht, shiftl_nonpos by lia.
      assert (0 < 2 ^ (- E)) by (apply Z.pow_pos_nonneg; lia).
      apply Z.div_lt_upper_bound; [lia|]. nia. }
    destruct (of_Z_exact n ltac:(lia)) as (m' & e' & -> & Hm' & He' & Heq).
    simpl. rewrite Heq, <- Z.mul_assoc, <- Z.pow_add_r by lia.
    f_equal. f_equal. lia.
  - rewrite Z.shiftl_mul_pow2 in Ht by lia. subst n.
    rewrite of_Z_spec by exact Hn.
    rewrite <- Z.mul_assoc, <- Z.pow_add_r by lia.
    rewrite (round24_shift (Z.pos m) 1 (-24) (E + 24)); [|lia|rewrite Z.div_1_r; lia|lia].
    unfold round24.
    assert (Hx : excess (Z.pos m) 1 = 0).
    { unfold excess. rewrite Z.div_1_r.
      rewrite (log2_unique' (Z.pos m) 23); lia. }
    rewrite Hx. change (1 * 2 ^ 0) with 1.
    replace (Z.pos m) with (Z.pos m * 1) at 1 by lia.
    rewrite rne_exact by lia.
    rewrite scaled_normalize24 by lia.
    replace (-24 + (E + 24) + 0 + 64) with (E + 64) by lia.
    rewrite Z.pow_add_r by lia. ring.
Qed.

Lemma of_Z_scaled (ts : Z) :
  1 <= ts < 2 ^ 32 ->
  (2 ^ 24 - 1) * (ts * 2 ^ 64) <= 2 ^ 24 * scaled (of_Z ts) <= (2 ^ 24 + 1) * (ts * 2 ^ 64).
Proof.
  intros Hts. rewrite of_Z_spec by exact Hts.
  pose proof (round24_rel (ts * 2 ^ 24) 1 (-24) ltac:(lia)
                ltac:(rewrite Z.div_1_r; lia) ltac:(lia)) as H.
  change (2 ^ (-24 + 64)) with (2 ^ 40) in H.
  replace (ts * 2 ^ 24 * 2 ^ 40) with (ts * 2 ^ 64) in H by (change (2 ^ 64) with (2 ^ 24 * 2 ^ 40); ring).
  rewrite Z.mul_1_l in H. exact H.
Qed.

(** The division by the tick duration, 15625/512 microseconds. *)
Lemma ticks_float_scaled (ts : Z) :
  1 <= ts < 2 ^ 32 ->
  (2 ^ 24 - 1) * (512 * scaled (of_Z ts)) <= 2 ^ 24 * (15625 * scaled (ticks_float ts))
    <= (2 ^ 24 + 1) * (512 * scaled (of_Z ts)).
Proof.
  intros Hts. destruct (ticks_float_spec ts Hts) as (m & e & Hof & Hm & He & ->).
  rewrite Hof. simpl scaled.
  pose proof (round24_rel (Z.pos m * 2 ^ 24) 16000000 (e - 5) ltac:(lia)
                ltac:(apply scaled_quot; lia) ltac:(lia)) as H.
  replace (e - 5 + 64) with (e + 59) in H by lia.
  replace (e + 64) with (e + 59 + 5) by lia. rewrite Z.pow_add_r by lia.
  assert (Hp : 0 < 2 ^ (e + 59)) by (apply Z.pow_pos_nonneg; lia).
  set (P := 2 ^ (e + 59)) in *. clearbody P.
  set (F := scaled (round24 (Z.pos m * 2 ^ 24) 16000000 (e - 5))) in *. clearbody F.
  set (X := Z.pos m * P).
  replace (Z.pos m * 2 ^ 24 * P) with (2 ^ 24 * X) in H by (unfold X; ring).
  replace (Z.pos m * (P * 2 ^ 5)) with (32 * X) by (unfold X; change (2 ^ 5) with 32; ring).
  clearbody X. lia.
Qed.

(** The multiplication by the tick duration. *)
Lemma us_float_scaled (c : Z) :
  1 <= c < 2 ^ 32 ->
  (2 ^ 24 - 1) * (15625 * scaled (of_Z c)) <= 2 ^ 24 * (512 * scaled (us_float c))
    <= (2 ^ 24 + 1) * (15625 * scaled (of_Z c)).
Proof.
  intros Hc. destruct (us_float_spec c Hc) as (m & e & Hof & Hm & He & ->).
  rewrite Hof. simpl scaled.
  pose proof (round24_rel (Z.pos m * 16000000) 1 (e - 19) ltac:(lia)
                ltac:(rewrite Z.div_1_r; lia) ltac:(lia)) as H.
  replace (e - 19 + 64) with (e + 45) in H by lia.
  replace (e + 64) with (e + 45 + 19) by lia. rewrite Z.pow_add_r by lia.
  assert (Hp : 0 < 2 ^ (e + 45)) by (apply Z.pow_pos_nonneg; lia).
  set (P := 2 ^ (e + 45)) in *. clearbody P.
  set (G := scaled (round24 (Z.pos m * 16000000) 1 (e - 19))) in *. clearbody G.
  set (X := Z.pos m * P).
  replace (Z.pos m * 16000000 * P) with (16000000 * X) in H by (unfold X; ring).
  replace (Z.pos m * (P * 2 ^ 19)) with (524288 * X)
    by (unfold X; change (2 ^ 19) with 524288; ring).
  rewrite Z.mul_1_l in H. clearbody X. lia.
Qed.

(** A float that is the result of a conversion, with its truncation. *)
Lemma trunc_scaled_normal (f : spec_float) (n : Z) :
  (exists m E, f = S754_finite false m E /\ -64 <= E) ->
  trunc f = Some n -> n * 2 ^ 64 <= scaled f < (n + 1) * 2 ^ 64.
Proof. intros (m & E & -> & HE) Ht. apply trunc_scaled; assumption. Qed.

Lemma ticks_float_finite (ts : Z) :
  1 <= ts < 2 ^ 32 -> exists m E, ticks_float ts = S754_finite false m E /\ -64 <= E.
Proof.
  intros Hts. destruct (ticks_float_spec ts Hts) as (m & e & _ & Hm & He & ->).
  destruct (round24_finite (Z.pos m * 2 ^ 24) 16000000 (e - 5)) as (m' & e' & -> & _ & He');
    [lia|apply scaled_quot; lia|].
  pose proof (excess_nonneg (Z.pos m * 2 ^ 24) 16000000 ltac:(apply scaled_quot; lia)).
  exists m', e'. split; [reflexivity|lia].
Qed.

Lemma us_float_finite (c : Z) :
  1 <= c < 2 ^ 32 -> exists m E, us_float c = S754_finite false m E /\ -64 <= E.
Proof.
  intros Hc. destruct (us_float_spec c Hc) as (m & e & _ & Hm & He & ->).
  destruct (round24_finite (Z.pos m * 16000000) 1 (e - 19)) as (m' & e' & -> & _ & He');
    [lia|rewrite Z.div_1_r; lia|].
  pose proof (excess_nonneg (Z.pos m * 16000000) 1 ltac:(rewrite Z.div_1_r; lia)).
  exists m', e'. split; [reflexivity|lia].
Qed.

(** The tick value of a timestamp: the exact quotient, off by the two
    roundings and the truncation. *)
Lemma us_to_ticks_error (ts n : Z) :
  1 <= ts < 2 ^ 32 -> us_to_ticks ts = Some n ->
  2 ^ 48 * 15625 * n <= (2 ^ 24 + 1) * (2 ^ 24 + 1) * 512 * ts /\
  (2 ^ 24 - 1) * (2 ^ 24 - 1) * 512 * ts < 2 ^ 48 * 15625 * (n + 1).
Proof.
  intros Hts Hn. apply to_u32_inv in Hn as [Ht _].
  pose proof (of_Z_scaled ts Hts) as HA.
  pose proof (ticks_float_scaled ts Hts) as HB.
  pose proof (trunc_scaled_normal _ n (ticks_float_finite ts Hts) Ht) as HC.
  change (us_to_ticks ts) with (to_u32 (ticks_float ts)) in *.
  set (F1 := scaled (of_Z ts)) in *. set (F2 := scaled (ticks_float ts)) in *.
  clearbody F1 F2. lia.
Qed.

(** The microseconds of a tick count: the exact product, off by one
    rounding and the truncation, when the count is itself a float. *)
Lemma ticks_to_us_error (c v : Z) :
  1 <= c < 2 ^ 32 -> scaled (of_Z c) = c * 2 ^ 64 -> ticks_to_us c = Some v ->
  2 ^ 24 * 512 * v <= (2 ^ 24 + 1) * 15625 * c /\
  (2 ^ 24 - 1) * 15625 * c < 2 ^ 24 * 512 * (v + 1).
Proof.
  intros Hc Hex Hv. apply to_u32_inv in Hv as [Ht _].
  pose proof (us_float_scaled c Hc) as HE. rewrite Hex in HE.
  pose proof (trunc_scaled_normal _ v (us_float_finite c Hc) Ht) as HF.
  set (G2 := scaled (us_float c)) in *. clearbody G2. lia.
Qed.

(** The tick value is monotone in the timestamp. *)
Lemma us_to_ticks_mono (a b na nb : Z) :
  0 <= a <= b -> b < 2 ^ 32 ->
  us_to_ticks a = Some na -> us_to_ticks b = Some nb -> na <= nb.
Proof.
  intros Ha Hb Hna Hnb.
  destruct (us_to_ticks_total b ltac:(lia)) as (nb' & Hnb' & Hnb0).
  destruct (Z.eq_dec a 0) as [->|Hne].
  - assert (H0 : us_to_ticks 0 = Some 0) by (vm_compute; reflexivity).
    rewrite H0 in Hna. injection Hna as <-. assert (nb' = nb) by congruence. lia.
  - apply to_u32_inv in Hna as [Hta _], Hnb as [Htb _].
    exact (trunc_fle (ticks_float a) (ticks_float b) na nb
             (ticks_float_normal a ltac:(lia)) (ticks_float_normal b ltac:(lia))
             (ticks_float_mono a b ltac:(lia) Hb) Hta Htb).
Qed.

(** The round trip on every timestamp that has one. *)
Lemma round_trip_error (ts n v : Z) :
  0 <= ts < 2 ^ 32 -> us_to_ticks ts = Some n -> ticks_to_us n = Some v ->
  ts - 32 - 3 * ts / 2 ^ 24 <= v <= ts + 1 + 3 * ts / 2 ^ 24.
Proof.
  intros Hts Hn Hv.
  destruct (Z.eq_dec ts 0) as [->|Hne].
  { assert (H0 : us_to_ticks 0 = Some 0) by (vm_compute; reflexivity).
    rewrite H0 in Hn. injection Hn as <-.
    assert (H1 : ticks_to_us 0 = Some 0) by (vm_compute; reflexivity).
    rewrite H1 in Hv. injection Hv as <-. vm_compute. split; discriminate. }
  pose proof (us_to_ticks_error ts n ltac:(lia) Hn) as [Hnhi Hnlo].
  pose proof (to_u32_inv _ _ Hn) as [Htn Hnr].
  pose proof (Z.div_mod (3 * ts) (2 ^ 24) ltac:(lia)) as Hd.
  pose proof (Z.mod_pos_bound (3 * ts) (2 ^ 24) ltac:(lia)) as Hr.
  set (q := 3 * ts / 2 ^ 24) in *. set (r := (3 * ts) mod 2 ^ 24) in *. clearbody q r.
  destruct (Z.eq_dec n 0) as [->|Hn0].
  { assert (H1 : ticks_to_us 0 = Some 0) by (vm_compute; reflexivity).
    rewrite H1 in Hv. injection Hv as <-. lia. }
  assert (Hex : scaled (of_Z n) = n * 2 ^ 64).
  { apply (of_Z_trunc_exact (ticks_float ts)); [apply ticks_float_normal; lia|exact Htn|lia]. }
  pose proof (ticks_to_us_error n v ltac:(lia) Hex Hv) as [Hvhi Hvlo].
  lia.
Qed.

End RoundTripFacts.

(* ===================================================================== *)
(** * Facts about lp_ticker_api.c                                         *)
(* ===================================================================== *)

Module LpTickerFacts.
Import Float32 LpTicker LpTickerSpec ConversionFacts RoundTripFacts.



Lemma u32_range (x : Z) : 0 <= u32 x < 2 ^ 32.
Proof. unfold u32. apply Z.mod_pos_bound. lia. Qed.

Lemma land_bit (k n : Z) :
  0 <= k -> Z.land (Z.shiftl 1 k) n = if Z.testbit n k then Z.shiftl 1 k else 0.
Proof.
  intros Hk. apply Z.bits_inj'. intros i Hi.
  rewrite Z.land_spec, Z.shiftl_spec by lia.
  destruct (Z.eq_dec i k) as [->|Hne].
  - rewrite Z.sub_diag. change (Z.testbit 1 0) with true. simpl.
    destruct (Z.testbit n k) eqn:Hb; [|apply eq_sym, Z.bits_0].
    rewrite Z.shiftl_spec by lia. rewrite Z.sub_diag. reflexivity.
  - assert (Z.testbit 1 (i - k) = false) as ->.
    { destruct (Z.lt_ge_cases (i - k) 0); [apply Z.testbit_neg_r; lia|].
      change 1 with (2 ^ 0). apply Z.pow2_bits_false. lia. }
    simpl. destruct (Z.testbit n k); [|apply eq_sym, Z.bits_0].
    rewrite Z.shiftl_spec by lia.
    destruct (Z.lt_ge_cases (i - k) 0); [symmetry; apply Z.testbit_neg_r; lia|].
    change 1 with (2 ^ 0). symmetry. apply Z.pow2_bits_false. lia.
Qed.

Lemma shiftl_1_pos (k : Z) : 0 <= k -> 0 < Z.shiftl 1 k.
Proof. intros Hk. rewrite Z.shiftl_1_l. apply Z.pow_pos_nonneg; lia. Qed.

(** C8 (as amended). Every 32-bit timestamp has a tick value, within the
    two roundings and the truncation of the exact quotient.  From
    4294967168 microseconds on the tick value is 140737488 and does not
    convert back: the product no longer fits [uint32_t].  Below that the
    value that comes back lies between [ts - 32 - 3 * ts / 2^24] and
    [ts + 1 + 3 * ts / 2^24]: one tick and one microsecond lost at most to
    the two truncations, 2^-24 of the value lost or gained at most in each
    of the three roundings.  For a timestamp below 2^24 microseconds, which
    single precision holds exactly, the tick value is the quotient
    [ts * 512 / 15625] truncated or the next integer, and the value that
    comes back lies between [ts - 31] and [ts + 1]; below 16000000
    microseconds it does not exceed [ts]. *)
Theorem us_ticks_round_trip (ts : Z) :
  0 <= ts < 2 ^ 32 ->
  exists n,
    us_to_ticks ts = Some n /\
    ts * 512 / 15625 - 1 - ts / 2 ^ 27 <= n <= ts * 512 / 15625 + 1 + ts / 2 ^ 27 /\
    (4294967168 <= ts -> n = 140737488 /\ ticks_to_us n = None) /\
    (ts < 4294967168 ->
       exists v,
         ticks_to_us n = Some v /\
         ts - 32 - 3 * ts / 2 ^ 24 <= v <= ts + 1 + 3 * ts / 2 ^ 24 /\
         (ts < 2 ^ 24 ->
            ts * 512 / 15625 <= n <= ts * 512 / 15625 + 1 /\
            ts - 31 <= v <= ts + 1 /\
            (ts < 16000000 -> v <= ts))).
Proof.
  intros Hts. destruct (us_to_ticks_total ts Hts) as (n & Hn & Hn0).
  exists n. split; [exact Hn|].
  pose proof (Z.div_mod (ts * 512) 15625 ltac:(lia)) as Hdm.
  pose proof (Z.mod_pos_bound (ts * 512) 15625 ltac:(lia)) as Hr.
  assert (H0 : 0 <= ts * 512 / 15625) by (apply Z.div_pos; lia).
  split; [|split].
  - destruct (Z.eq_dec ts 0) as [->|Hne].
    + assert (Hz : us_to_ticks 0 = Some 0) by (vm_compute; reflexivity).
      rewrite Hz in Hn. injection Hn as <-. vm_compute. split; discriminate.
    + pose proof (us_to_ticks_error ts n ltac:(lia) Hn) as [Hhi Hlo].
      pose proof (Z.div_mod ts (2 ^ 27) ltac:(lia)) as Hd.
      pose proof (Z.mod_pos_bound ts (2 ^ 27) ltac:(lia)) as Hr'.
      set (q := ts * 512 / 15625) in *. set (r := (ts * 512) mod 15625) in *.
      set (q' := ts / 2 ^ 27) in *. set (r' := ts mod 2 ^ 27) in *.
      clearbody q r q' r'. lia.
  - intros Hbig.
    assert (Hfirst : us_to_ticks 4294967168 = Some 140737488) by (vm_compute; reflexivity).
    pose proof (us_to_ticks_mono 4294967168 ts _ _ ltac:(lia) ltac:(lia) Hfirst Hn) as Hge.
    assert (n = 140737488) as -> by lia.
    split; [reflexivity|]. vm_compute. reflexivity.
  - intros Hsmall.
    assert (Hlast : us_to_ticks 4294967167 = Some 140737472) by (vm_compute; reflexivity).
    pose proof (us_to_ticks_mono ts 4294967167 _ _ ltac:(lia) ltac:(lia) Hn Hlast) as Hle.
    destruct (ticks_to_us_total n ltac:(lia)) as (v & Hv).
    exists v. split; [exact Hv|].
    split; [exact (round_trip_error ts n v Hts Hn Hv)|].
    intros H24. destruct (Z.eq_dec ts 0) as [->|Hne].
    + assert (Hz : us_to_ticks 0 = Some 0) by (vm_compute; reflexivity).
      rewrite Hz in Hn. injection Hn as <-.
      assert (Hz' : ticks_to_us 0 = Some 0) by (vm_compute; reflexivity).
      rewrite Hz' in Hv. injection Hv as <-.
      repeat split; vm_compute; discriminate.
    + destruct (us_to_ticks_small ts ltac:(lia)) as (n' & Hn' & Hlo & Hhi & Hhi').
      assert (n' = n) as -> by congruence.
      destruct (Z.eq_dec n 0) as [->|Hn1].
      * assert (Hz' : ticks_to_us 0 = Some 0) by (vm_compute; reflexivity).
        rewrite Hz' in Hv. injection Hv as <-. lia.
      * destruct (ticks_to_us_small n ltac:(lia) ltac:(lia)) as (v' & Hv' & Hvlo & Hvhi).
        assert (v' = v) as -> by congruence.
        pose proof (Z.div_mod (n * 15625) 512 ltac:(lia)) as Hdm'.
        pose proof (Z.mod_pos_bound (n * 15625) 512 ltac:(lia)) as Hr'.
        split; [lia|]. split; [lia|]. intros Hlt. specialize (Hhi' Hlt). lia.
Qed.

Lemma us_ticks_round_trip_witness :
  (exists n v,
     us_to_ticks 4294967000 = Some n /\ ticks_to_us n = Some v /\
     4294967000 * 512 / 15625 - 1 - 4294967000 / 2 ^ 27 <= n
       <= 4294967000 * 512 / 15625 + 1 + 4294967000 / 2 ^ 27 /\
     4294967000 - 32 - 3 * 4294967000 / 2 ^ 24 <= v
       <= 4294967000 + 1 + 3 * 4294967000 / 2 ^ 24) /\
  (exists n v,
     us_to_ticks 100 = Some n /\ ticks_to_us n = Some v /\
     100 * 512 / 15625 <= n <= 100 * 512 / 15625 + 1 /\
     100 - 31 <= v <= 100 + 1 /\ v <= 100) /\
  (exists n,
     us_to_ticks 4294967295 = Some n /\ n = 140737488 /\ ticks_to_us n = None).
Proof.
  split; [|split].
  - destruct (us_ticks_round_trip 4294967000 ltac:(lia)) as (n & Hn & Hnb & _ & Hdef).
    destruct (Hdef ltac:(lia)) as (v & Hv & Hb & _).
    exists n, v. repeat split; try assumption; lia.
  - destruct (us_ticks_round_trip 100 ltac:(lia)) as (n & Hn & _ & _ & Hdef).
    destruct (Hdef ltac:(lia)) as (v & Hv & _ & Hsmall).
    destruct (Hsmall ltac:(lia)) as (Hnb & Hvb & Hle).
    specialize (Hle ltac:(lia)).
    exists n, v. repeat split; try assumption; lia.
  - destruct (us_ticks_round_trip 4294967295 ltac:(lia)) as (n & Hn & _ & Hbig & _).
    destruct (Hbig ltac:(lia)) as [Heq Hnone].
    exists n. repeat split; assumption.
Defined.

(** C8 as stated fails: 4294967000 microseconds come back as 4294966784,
    216 microseconds (7 ticks) less; the 24-bit significand cannot hold
    the timestamp. *)
Lemma round_trip_off_by_216 :
  us_to_ticks 4294967000 = Some 140737472 /\
  ticks_to_us 140737472 = Some 4294966784 /\
  31 < 4294967000 - 4294966784.
Proof. repeat split; vm_compute; reflexivity. Qed.

(** Two truncations already add up to more than one tick of
    15625/512 microseconds: 61 comes back as 30. *)
Example round_trip_61 :
  us_to_ticks 61 = Some 1 /\ ticks_to_us 1 = Some 30 /\ 15625 < (61 - 30) * 512.
Proof. repeat split; vm_compute; reflexivity. Qed.

(** Above 16000000 the value that comes back can exceed the timestamp. *)
Example round_trip_16000030 :
  us_to_ticks 16000030 = Some 524289 /\ ticks_to_us 524289 = Some 16000031.
Proof. split; vm_compute; reflexivity. Qed.

(** From 4294967168 on the way back leaves the range of [uint32_t]. *)
Example round_trip_overflow :
  us_to_ticks 4294967168 = Some 140737488 /\ ticks_to_us 140737488 = None.
Proof. split; vm_compute; reflexivity. Qed.

Section Rtc.
Variable rtc_count : nat -> Z.
Variable alarm_bit : Z.
Hypothesis alarm_bit_nonneg : 0 <= alarm_bit.

Local Abbreviation ADI_RTC_ALARM_INT := (LpTicker.ADI_RTC_ALARM_INT alarm_bit).
Local Abbreviation rtc1_Callback := (LpTicker.rtc1_Callback alarm_bit).
Local Abbreviation adi_rtc_GetCount := (LpTicker.adi_rtc_GetCount rtc_count).
Local Abbreviation lp_ticker_read := (LpTicker.lp_ticker_read rtc_count).
Local Abbreviation poll_count := (LpTicker.poll_count rtc_count).
Local Abbreviation lp_ticker_set_interrupt :=
  (LpTicker.lp_ticker_set_interrupt rtc_count alarm_bit).
Local Abbreviation samplings := (LpTickerSpec.samplings rtc_count).

(** The callback calls the handler exactly when the alarm bit of the event
    word is set. *)
Lemma rtc1_Callback_bit (nEvent : Z) (w : rtc_world) :
  rtc1_Callback nEvent w = if Z.testbit nEvent alarm_bit then emit EvIrqHandler w else w.
Proof.
  unfold LpTicker.rtc1_Callback, LpTicker.ADI_RTC_ALARM_INT, lp_ticker_irq_handler.
  rewrite land_bit by exact alarm_bit_nonneg.
  pose proof (shiftl_1_pos alarm_bit alarm_bit_nonneg).
  destruct (Z.testbit nEvent alarm_bit).
  - destruct (Z.eqb_spec (Z.shiftl 1 alarm_bit) 0); [lia|reflexivity].
  - reflexivity.
Qed.

Lemma rtc1_Callback_alarm (w : rtc_world) :
  rtc1_Callback ADI_RTC_ALARM_INT w = emit EvIrqHandler w.
Proof.
  rewrite rtc1_Callback_bit. unfold LpTicker.ADI_RTC_ALARM_INT.
  rewrite Z.shiftl_spec by exact alarm_bit_nonneg. rewrite Z.sub_diag. reflexivity.
Qed.

(** C3. Every 32-bit deadline has a tick value; when it is at most the
    counter value just sampled, [lp_ticker_set_interrupt] returns after
    exactly two events, the sampling of the counter and one call of the
    expiration handler: nothing programs, enables or unmasks the alarm. *)
Theorem lp_ticker_set_interrupt_elapsed (fuel : nat) (timestamp : Z) (w : rtc_world) :
  0 <= timestamp < 2 ^ 32 ->
  exists set_time,
    us_to_ticks timestamp = Some set_time /\
    (set_time <= u32 (rtc_count (reads w)) ->
     exists w' new,
       lp_ticker_set_interrupt fuel timestamp w = Some w' /\
       log w' = log w ++ new /\
       new = [EvGetCount (u32 (rtc_count (reads w))); EvIrqHandler] /\
       handler_calls new = 1%nat /\
       existsb touches_alarm new = false).
Proof.
  intros Hrange. destruct (us_to_ticks_total timestamp Hrange) as (set_time & Hts & _).
  exists set_time. split; [exact Hts|]. intros Hle.
  unfold LpTicker.lp_ticker_set_interrupt. rewrite Hts. simpl.
  apply Z.leb_le in Hle. rewrite Hle. rewrite rtc1_Callback_alarm.
  eexists _, _. split; [reflexivity|]. split.
  - unfold emit. simpl. rewrite <- app_assoc. reflexivity.
  - split; [reflexivity|]. split; reflexivity.
Qed.

(** C4. Every 32-bit deadline has a tick value; when it exceeds the
    counter value just sampled by more than [TICKS_TO_ENABLE_ALARM],
    [lp_ticker_set_interrupt] returns without calling the expiration
    handler: after a second sampling it unmasks the alarm interrupt,
    programs the comparator with the tick value and enables the alarm,
    then samples once more.  [rtc1_Callback] calls the handler once when
    the alarm bit of the event word is set and not at all when it is
    clear, whatever the other bits. *)
Theorem lp_ticker_set_interrupt_armed (fuel : nat) (timestamp : Z) (w : rtc_world) :
  0 <= timestamp < 2 ^ 32 ->
  (exists set_time,
     us_to_ticks timestamp = Some set_time /\
     (u32 (rtc_count (reads w)) + TICKS_TO_ENABLE_ALARM < set_time ->
      exists w' new,
        lp_ticker_set_interrupt fuel timestamp w = Some w' /\
        log w' = log w ++ new /\
        new = [EvGetCount (u32 (rtc_count (reads w)));
               EvGetCount (u32 (rtc_count (S (reads w))));
               EvEnableInterrupts ADI_RTC_ALARM_INT true;
               EvSetAlarm set_time;
               EvEnableAlarm true;
               EvGetCount (u32 (rtc_count (S (S (reads w)))))] /\
        handler_calls new = 0%nat)) /\
  (forall nEvent w0,
     (Z.testbit nEvent alarm_bit = true ->
        rtc1_Callback nEvent w0 = emit EvIrqHandler w0) /\
     (Z.testbit nEvent alarm_bit = false -> rtc1_Callback nEvent w0 = w0)).
Proof.
  intros Hrange. split.
  - destruct (us_to_ticks_total timestamp Hrange) as (set_time & Hts & Hr).
    exists set_time. split; [exact Hts|]. intros Hgt.
    unfold LpTicker.lp_ticker_set_interrupt. rewrite Hts. simpl.
    pose proof (u32_range (rtc_count (reads w))) as Hc.
    unfold TICKS_TO_ENABLE_ALARM in *.
    assert (H1 : (set_time <=? u32 (rtc_count (reads w))) = false) by (apply Z.leb_gt; lia).
    assert (H2 : (set_time <=? u32 (u32 (rtc_count (reads w)) + 50)) = false).
    { apply Z.leb_gt. unfold u32 at 1. rewrite Z.mod_small by lia. lia. }
    rewrite H1, H2.
    eexists _, _. split; [reflexivity|]. split.
    + unfold adi_rtc_EnableAlarm, adi_rtc_SetAlarm, adi_rtc_EnableInterrupts, emit. simpl.
      rewrite <- !app_assoc. reflexivity.
    + split; reflexivity.
  - intros nEvent w0. rewrite rtc1_Callback_bit. split; intros ->; reflexivity.
Qed.

(** The busy-wait loop ends at the first sampling that has reached the
    deadline, when the bound on the samplings allows for it. *)
Lemma poll_count_reaches (fuel : nat) (set_time : Z) :
  forall (n : nat) (w : rtc_world),
    (n < fuel)%nat ->
    set_time <= u32 (rtc_count (reads w + n)) ->
    exists k w',
      (k <= n)%nat /\
      poll_count fuel set_time w = Some (u32 (rtc_count (reads w + k)), w') /\
      reads w' = (reads w + S k)%nat /\
      log w' = log w ++ samplings (reads w) (S k) /\
      set_time <= u32 (rtc_count (reads w + k)) /\
      (forall j, (j < k)%nat -> u32 (rtc_count (reads w + j)) < set_time).
Proof.
  induction fuel as [|fuel IH]; intros n w Hn Hreach; [lia|].
  simpl LpTicker.poll_count.
  destruct (Z.ltb_spec (u32 (rtc_count (reads w))) set_time) as [Hlt|Hge].
  - destruct n as [|n]; [rewrite Nat.add_0_r in Hreach; lia|].
    destruct (IH n (mk_world (S (reads w)) (log w ++ [EvGetCount (u32 (rtc_count (reads w)))])))
      as (k & w' & Hk & Hpoll & Hreads & Hlog & Hk1 & Hk2); [lia| |].
    { simpl. replace (S (reads w + n)) with (reads w + S n)%nat by lia. exact Hreach. }
    simpl in Hpoll, Hreads, Hlog, Hk1, Hk2.
    exists (S k), w'.
    replace (reads w + S k)%nat with (S (reads w + k)) by lia.
    split; [lia|]. split; [exact Hpoll|]. split; [lia|]. split.
    + rewrite Hlog, <- app_assoc. reflexivity.
    + split; [exact Hk1|]. intros j Hj. destruct j as [|j].
      * rewrite Nat.add_0_r. exact Hlt.
      * replace (reads w + S j)%nat with (S (reads w + j)) by lia. apply Hk2. lia.
  - exists 0%nat, (mk_world (S (reads w)) (log w ++ [EvGetCount (u32 (rtc_count (reads w)))])).
    rewrite Nat.add_0_r. simpl.
    split; [lia|]. split; [reflexivity|]. split; [lia|]. split; [reflexivity|].
    split; [lia|]. intros j Hj. lia.
Qed.

Lemma handler_calls_samplings (from n : nat) :
  handler_calls (samplings from n ++ [EvIrqHandler]) = 1%nat /\
  existsb touches_alarm (samplings from n ++ [EvIrqHandler]) = false.
Proof.
  unfold LpTickerSpec.samplings. revert from. induction n as [|n IH]; intros from.
  - split; reflexivity.
  - simpl. destruct (IH (S from)) as [H1 H2]. split; [exact H1|exact H2].
Qed.

(** C2 (as amended). Every 32-bit deadline has a tick value; when it is
    above the counter value just sampled by at most
    [TICKS_TO_ENABLE_ALARM] and the counter reaches it within the
    samplings allowed, [lp_ticker_set_interrupt] samples the counter until
    it shows the tick value or more, calls the expiration handler once
    and returns, leaving the alarm alone.  An [lp_ticker_read] that
    follows, sampling a count that is still at least the tick value and
    no more than 140737479, returns at least the tick value converted
    back to microseconds; that is at least the deadline less 31 when the
    deadline is below 2^24 microseconds. *)
Theorem lp_ticker_set_interrupt_poll (fuel n : nat) (timestamp : Z) (w : rtc_world) :
  0 <= timestamp < 2 ^ 32 ->
  exists set_time,
    us_to_ticks timestamp = Some set_time /\
    (u32 (rtc_count (reads w)) < set_time <=
       u32 (rtc_count (reads w)) + TICKS_TO_ENABLE_ALARM ->
     (n < fuel)%nat ->
     set_time <= u32 (rtc_count (S (reads w) + n)) ->
     exists k w',
       (k <= n)%nat /\
       lp_ticker_set_interrupt fuel timestamp w = Some w' /\
       log w' = log w ++ samplings (reads w) (S (S k)) ++ [EvIrqHandler] /\
       handler_calls (samplings (reads w) (S (S k)) ++ [EvIrqHandler]) = 1%nat /\
       existsb touches_alarm (samplings (reads w) (S (S k)) ++ [EvIrqHandler]) = false /\
       (forall j, (j < k)%nat -> u32 (rtc_count (S (reads w) + j)) < set_time) /\
       set_time <= u32 (rtc_count (S (reads w) + k)) /\
       (set_time <= u32 (rtc_count (reads w')) <= 140737479 ->
        exists v w'' v0,
          lp_ticker_read w' = Some (v, w'') /\
          ticks_to_us set_time = Some v0 /\ v0 <= v /\
          (timestamp < 2 ^ 24 -> timestamp - 31 <= v))).
Proof.
  intros Hrange. destruct (us_to_ticks_total timestamp Hrange) as (set_time & Hts & Hr).
  exists set_time. split; [exact Hts|]. intros Hnear Hfuel Hreach.
  pose proof (u32_range (rtc_count (reads w))) as Hc.
  unfold LpTicker.lp_ticker_set_interrupt. rewrite Hts. simpl.
  unfold TICKS_TO_ENABLE_ALARM in *.
  assert (H1 : (set_time <=? u32 (rtc_count (reads w))) = false) by (apply Z.leb_gt; lia).
  assert (H2 : (set_time <=? u32 (u32 (rtc_count (reads w)) + 50)) = true).
  { apply Z.leb_le. unfold u32 at 1. rewrite Z.mod_small by lia. lia. }
  rewrite H1, H2.
  destruct (poll_count_reaches fuel set_time n
              (mk_world (S (reads w)) (log w ++ [EvGetCount (u32 (rtc_count (reads w)))]))
              Hfuel Hreach)
    as (k & w1 & Hk & Hpoll & Hreads & Hlog & Hk1 & Hk2).
  simpl in Hpoll, Hreads, Hlog, Hk1, Hk2. rewrite Hpoll. simpl.
  rewrite rtc1_Callback_alarm.
  exists k, (emit EvIrqHandler w1). split; [exact Hk|]. split; [reflexivity|].
  split.
  { unfold emit. simpl. rewrite Hlog, <- !app_assoc. reflexivity. }
  destruct (handler_calls_samplings (reads w) (S (S k))) as [Hh Ha].
  split; [exact Hh|]. split; [exact Ha|]. split; [exact Hk2|]. split; [exact Hk1|].
  intros Hc'. simpl in Hc'.
  destruct (ticks_to_us_total (u32 (rtc_count (reads w1))) ltac:(lia)) as (v & Hv).
  pose proof (u32_range (rtc_count (reads w1))) as Hc1.
  destruct (ticks_to_us_mono set_time (u32 (rtc_count (reads w1))) v ltac:(lia) ltac:(lia) Hv)
    as (v0 & Hv0 & Hle).
  unfold LpTicker.lp_ticker_read. simpl. rewrite Hv. simpl.
  eexists v, _, v0. split; [reflexivity|]. split; [exact Hv0|]. split; [exact Hle|].
  intros Hsmall.
  destruct (ticks_back_lower timestamp set_time ltac:(lia) Hts) as (v' & Hv' & Hb).
  rewrite Hv0 in Hv'. injection Hv' as <-. lia.
Qed.

End Rtc.

Lemma lp_ticker_set_interrupt_elapsed_witness :
  exists w' new,
    lp_ticker_set_interrupt late_count 0 0 100 power_on = Some w' /\
    log w' = log power_on ++ new /\
    new = [EvGetCount (u32 (late_count (reads power_on))); EvIrqHandler] /\
    handler_calls new = 1%nat /\
    existsb touches_alarm new = false.
Proof.
  destruct (lp_ticker_set_interrupt_elapsed late_count 0 ltac:(lia) 0%nat 100 power_on
              ltac:(lia)) as (set_time & Hts & H).
  assert (set_time = 3) as -> by (vm_compute in Hts; congruence).
  apply H. vm_compute. discriminate.
Defined.

Lemma lp_ticker_set_interrupt_armed_witness :
  (exists w' new,
     lp_ticker_set_interrupt late_count 0 0 1000000 power_on = Some w' /\
     log w' = log power_on ++ new /\
     new = [EvGetCount (u32 (late_count (reads power_on)));
            EvGetCount (u32 (late_count (S (reads power_on))));
            EvEnableInterrupts (ADI_RTC_ALARM_INT 0) true;
            EvSetAlarm 32768;
            EvEnableAlarm true;
            EvGetCount (u32 (late_count (S (S (reads power_on)))))] /\
     handler_calls new = 0%nat) /\
  (forall nEvent w0,
     (Z.testbit nEvent 0 = true ->
        rtc1_Callback 0 nEvent w0 = emit EvIrqHandler w0) /\
     (Z.testbit nEvent 0 = false -> rtc1_Callback 0 nEvent w0 = w0)).
Proof.
  destruct (lp_ticker_set_interrupt_armed late_count 0 ltac:(lia) 0%nat 1000000 power_on
              ltac:(lia)) as ((set_time & Hts & H) & Hcb).
  assert (set_time = 32768) as -> by (vm_compute in Hts; congruence).
  split; [|exact Hcb]. apply H. vm_compute. reflexivity.
Defined.

Lemma lp_ticker_set_interrupt_poll_witness :
  exists k w',
    (k <= 5)%nat /\
    lp_ticker_set_interrupt slow_count 0 8 100 power_on = Some w' /\
    log w' = log power_on ++ samplings slow_count (reads power_on) (S (S k)) ++ [EvIrqHandler] /\
    handler_calls (samplings slow_count (reads power_on) (S (S k)) ++ [EvIrqHandler]) = 1%nat /\
    existsb touches_alarm (samplings slow_count (reads power_on) (S (S k)) ++ [EvIrqHandler])
      = false /\
    (forall j, (j < k)%nat -> u32 (slow_count (S (reads power_on) + j)) < 3) /\
    3 <= u32 (slow_count (S (reads power_on) + k)) /\
    (3 <= u32 (slow_count (reads w')) <= 140737479 ->
     exists v w'' v0,
       lp_ticker_read slow_count w' = Some (v, w'') /\
       ticks_to_us 3 = Some v0 /\ v0 <= v /\
       (100 < 2 ^ 24 -> 100 - 31 <= v)).
Proof.
  destruct (lp_ticker_set_interrupt_poll slow_count 0 ltac:(lia) 8 5 100 power_on
              ltac:(lia)) as (set_time & Hts & H).
  assert (set_time = 3) as -> by (vm_compute in Hts; congruence).
  apply H.
  - vm_compute. split; [reflexivity|discriminate].
  - lia.
  - vm_compute. discriminate.
Defined.

(** The events of the three branches on concrete runs. *)
Example run_elapsed :
  lp_ticker_set_interrupt late_count 0 0 100 power_on
  = Some (mk_world 1 [EvGetCount 1000; EvIrqHandler]).
Proof. vm_compute. reflexivity. Qed.

Example run_armed :
  lp_ticker_set_interrupt late_count 0 0 1000000 power_on
  = Some (mk_world 3 [EvGetCount 1000; EvGetCount 1000; EvEnableInterrupts 1 true;
                      EvSetAlarm 32768; EvEnableAlarm true; EvGetCount 1000]).
Proof. vm_compute. reflexivity. Qed.

(** C2 as stated fails: the deadline of 100 microseconds is 3 ticks; with
    the counter at 0 the call waits until the counter shows 3 and calls
    the handler, and an [lp_ticker_read] right after, the counter still
    at 3, returns 91, less than the deadline. *)
Lemma read_after_poll_below_deadline :
  us_to_ticks 100 = Some 3 /\
  u32 (slow_count 0) < 3 <= u32 (slow_count 0) + TICKS_TO_ENABLE_ALARM /\
  lp_ticker_set_interrupt slow_count 0 8 100 power_on
  = Some (mk_world 7 [EvGetCount 0; EvGetCount 0; EvGetCount 1; EvGetCount 1;
                      EvGetCount 2; EvGetCount 2; EvGetCount 3; EvIrqHandler]) /\
  lp_ticker_read slow_count
    (mk_world 7 [EvGetCount 0; EvGetCount 0; EvGetCount 1; EvGetCount 1;
                 EvGetCount 2; EvGetCount 2; EvGetCount 3; EvIrqHandler])
  = Some (91,
          mk_world 8 [EvGetCount 0; EvGetCount 0; EvGetCount 1; EvGetCount 1;
                      EvGetCount 2; EvGetCount 2; EvGetCount 3; EvIrqHandler;
                      EvGetCount 3]) /\
  91 < 100.
Proof. repeat split; vm_compute; try reflexivity; discriminate. Qed.

End LpTickerFacts.

(* ===================================================================== *)
(** * More facts about gpio_irq_api.c                                     *)
(* ===================================================================== *)

Module GpioApiFacts.
Import GpioIrq GpioSpec GpioOps GpioIrqFacts.

Lemma chan_at_nonneg (t : chan_table) (p l : Z) (c : gpio_chan_info_t) :
  chan_at t p l = Some c -> 0 <= p /\ 0 <= l.
Proof.
  unfold chan_at. destruct ((0 <=? p) && (0 <=? l)) eqn:Hb; [|discriminate].
  intros _. apply andb_true_iff in Hb as [H1 H2]. apply Z.leb_le in H1, H2. tauto.
Qed.

Lemma slot_write_same (t : chan_table) (p l : Z) (c : gpio_chan_info_t) :
  chan_at t p l = Some c -> slot_write t p l c = t.
Proof.
  intros Hc. pose proof (chan_at_nonneg _ _ _ _ Hc) as [Hp Hl].
  unfold slot_write, chan_at in *. rewrite in_range_true in Hc by assumption.
  destruct (t !! Z.to_nat p) as [row|] eqn:Hrow; simpl in Hc; [|discriminate].
  simpl. rewrite (list_insert_id row) by exact Hc.
  apply list_insert_id. exact Hrow.
Qed.

Lemma chan_update_none (t : chan_table) (p l : Z) f :
  chan_at t p l = None -> chan_update t p l f = None.
Proof.
  unfold chan_at, chan_update.
  destruct ((0 <=? p) && (0 <=? l)); [|reflexivity].
  destruct (t !! Z.to_nat p) as [row|]; simpl; [|reflexivity].
  intros ->. reflexivity.
Qed.

(** The three stores that fill a slot, on a slot that can be read. *)
Lemma chan_store_slot_at (t : chan_table) (p l v : Z) (c : gpio_chan_info_t) :
  chan_at t p l = Some c ->
  (t ← chan_update t p l (set_id v);
   t ← chan_update t p l (set_event IRQ_NONE);
   chan_update t p l (set_int_enable 0))
  = Some (slot_write t p l (mk_chan v IRQ_NONE 0)).
Proof.
  intros Hc. pose proof (chan_at_nonneg _ _ _ _ Hc) as [Hp Hl].
  rewrite (chan_update_slot_write _ _ _ _ c Hc). simpl.
  erewrite chan_update_slot_write
    by (eapply chan_at_slot_write; [lia|lia|exact Hc]). simpl.
  erewrite chan_update_slot_write
    by (eapply chan_at_slot_write; [lia|lia|]; eapply chan_at_slot_write; [lia|lia|exact Hc]).
  rewrite !slot_write_twice. reflexivity.
Qed.

Lemma event_eqb_spec (a b : gpio_irq_event) :
  gpio_irq_event_eqb a b = true <-> a = b.
Proof. destruct a, b; simpl; split; congruence. Qed.

Section Api.
Context {hw : Type} `{Drv : adi_gpio hw}.
Variable GPIO_PORT_SHIFT NC : Z.

Local Abbreviation pin_port := (GpioIrq.pin_port GPIO_PORT_SHIFT).
Local Abbreviation valid_pin := (GpioIrq.valid_pin GPIO_PORT_SHIFT).
Local Abbreviation gpio_irq_init := (GpioIrq.gpio_irq_init GPIO_PORT_SHIFT NC).
Local Abbreviation gpio_irq_free := (GpioIrq.gpio_irq_free GPIO_PORT_SHIFT).
Local Abbreviation gpio_irq_set := (GpioIrq.gpio_irq_set GPIO_PORT_SHIFT).
Local Abbreviation gpio_irq_enable := (GpioIrq.gpio_irq_enable GPIO_PORT_SHIFT).
Local Abbreviation gpio_irq_disable := (GpioIrq.gpio_irq_disable GPIO_PORT_SHIFT).
Local Abbreviation apply_op := (GpioOps.apply_op GPIO_PORT_SHIFT NC).
Local Abbreviation run := (GpioOps.run GPIO_PORT_SHIFT NC).
Local Abbreviation op_result := (GpioOps.op_result NC).

(** The state [gpio_irq_disable] returns, slot readable. *)
Lemma gpio_irq_disable_eq (obj : gpio_irq_t) (st : gpio_state hw) (c : gpio_chan_info_t) :
  chan_at (channel_ids st) (pin_port (pinname obj)) (pin_line (pinname obj)) = Some c ->
  gpio_irq_disable obj st =
  Some (if gpio_irq_event_eqb (event c) IRQ_NONE then st
        else with_channel_ids
               (slot_write (channel_ids st) (pin_port (pinname obj)) (pin_line (pinname obj))
                  (set_int_enable 0 c))
               (with_regs (disable_pin_interrupt (pin_port (pinname obj))
                             (pin_line (pinname obj)) (regs st)) st)).
Proof.
  intros Hc. unfold GpioIrq.gpio_irq_disable. rewrite Hc. simpl.
  destruct (event c) eqn:He; simpl; try reflexivity;
    rewrite (chan_update_slot_write _ _ _ _ c Hc); reflexivity.
Qed.

(** The state [gpio_irq_enable] returns, slot readable. *)
Lemma gpio_irq_enable_eq (obj : gpio_irq_t) (st : gpio_state hw) (c : gpio_chan_info_t) :
  chan_at (channel_ids st) (pin_port (pinname obj)) (pin_line (pinname obj)) = Some c ->
  gpio_irq_enable obj st =
  Some (if gpio_irq_event_eqb (event c) IRQ_NONE then st
        else with_channel_ids
               (slot_write (channel_ids st) (pin_port (pinname obj)) (pin_line (pinname obj))
                  (set_int_enable 1 c))
               (with_regs
                  (let irq := if gpio_irq_event_eqb (event c) IRQ_RISE
                              then SYS_GPIO_INTA_IRQn else SYS_GPIO_INTB_IRQn in
                   enable_pin_interrupt (pin_port (pinname obj)) (pin_line (pinname obj)) irq
                     (adi_gpio_RegisterCallback irq (regs st))) st)).
Proof.
  intros Hc. unfold GpioIrq.gpio_irq_enable. rewrite Hc. simpl.
  destruct (event c) eqn:He; simpl; try reflexivity;
    rewrite (chan_update_slot_write _ _ _ _ c Hc); reflexivity.
Qed.

(** One call on a pin whose slot can be read: it returns, the table is the
    old one with that slot rewritten by [op_result], and the handler
    changes only in a [gpio_irq_init] that succeeds with a non-null
    handler. *)
Lemma apply_op_at (op : gpio_op) (st : gpio_state hw) (c : gpio_chan_info_t) :
  chan_at (channel_ids st) (pin_port (op_pin op)) (pin_line (op_pin op)) = Some c ->
  exists st',
    apply_op op st = Some st' /\
    channel_ids st' =
      slot_write (channel_ids st) (pin_port (op_pin op)) (pin_line (op_pin op))
        (op_result op c) /\
    irq_handler st' =
      match op with
      | OpInit _ pin handler id =>
          if (pin =? NC) || (id =? 0) then irq_handler st
          else if handler =? NULL then irq_handler st else handler
      | _ => irq_handler st
      end.
Proof.
  intros Hc.
  destruct op as [obj pin handler id|obj|obj ev enable|obj|obj]; simpl in Hc |- *;
    pose proof (chan_at_nonneg _ _ _ _ Hc) as [Hp Hl].
  - unfold GpioIrq.gpio_irq_init.
    destruct ((pin =? NC) || (id =? 0)).
    + simpl. eexists. split; [reflexivity|]. split; [|reflexivity].
      symmetry. apply slot_write_same. exact Hc.
    + match goal with
      | |- context [chan_update (channel_ids ?s) _ _ _] => set (s1 := s)
      end.
      assert (Ht : channel_ids s1 = channel_ids st).
      { unfold s1. destruct (gpio_initialized st =? 0), (handler =? NULL); reflexivity. }
      assert (Hh : irq_handler s1 = (if handler =? NULL then irq_handler st else handler)).
      { unfold s1. destruct (gpio_initialized st =? 0), (handler =? NULL); reflexivity. }
      clearbody s1. rewrite <- Ht in Hc.
      pose proof (chan_store_slot_at _ _ _ id _ Hc) as Hs.
      destruct (chan_update (channel_ids s1) _ _ (set_id id)) as [t1|];
        simpl in Hs |- *; [|discriminate].
      destruct (chan_update t1 _ _ (set_event IRQ_NONE)) as [t2|];
        simpl in Hs |- *; [|discriminate].
      rewrite Hs. simpl. eexists. split; [reflexivity|]. simpl. rewrite Ht.
      split; [reflexivity|exact Hh].
  - unfold GpioIrq.gpio_irq_free. rewrite (gpio_irq_disable_eq obj st c Hc). simpl.
    match goal with
    | |- context [chan_update (channel_ids ?s) _ _ _] => set (s1 := s)
    end.
    assert (Hc1 : exists c1, chan_at (channel_ids s1) (pin_port (pinname obj))
                               (pin_line (pinname obj)) = Some c1 /\
                             channel_ids s1 = slot_write (channel_ids st)
                               (pin_port (pinname obj)) (pin_line (pinname obj)) c1).
    { unfold s1. destruct (gpio_irq_event_eqb (event c) IRQ_NONE).
      - exists c. split; [exact Hc|]. symmetry. apply slot_write_same. exact Hc.
      - eexists. simpl. split; [|reflexivity].
        eapply chan_at_slot_write; [lia|lia|exact Hc]. }
    assert (Hh : irq_handler s1 = irq_handler st).
    { unfold s1. destruct (gpio_irq_event_eqb (event c) IRQ_NONE); reflexivity. }
    clearbody s1. destruct Hc1 as (c1 & Hc1 & Ht1).
    pose proof (chan_store_slot_at _ _ _ 0 _ Hc1) as Hs.
    destruct (chan_update (channel_ids s1) _ _ (set_id 0)) as [t1|];
      simpl in Hs |- *; [|discriminate].
    destruct (chan_update t1 _ _ (set_event IRQ_NONE)) as [t2|];
      simpl in Hs |- *; [|discriminate].
    rewrite Hs. simpl. eexists. split; [reflexivity|]. simpl.
    rewrite Ht1, slot_write_twice. split; [reflexivity|exact Hh].
  - unfold GpioIrq.gpio_irq_set.
    destruct (gpio_irq_event_eqb ev IRQ_NONE) eqn:Hev.
    + eexists. split; [reflexivity|]. split; [|reflexivity].
      symmetry. apply slot_write_same. exact Hc.
    + simpl. rewrite (chan_update_slot_write _ _ _ _ c Hc). simpl.
      match goal with
      | |- context [with_channel_ids ?t ?s] => set (s1 := with_channel_ids t s)
      end.
      assert (Hc1 : chan_at (channel_ids s1) (pin_port (pinname obj)) (pin_line (pinname obj))
                    = Some (set_event ev c)).
      { unfold s1. simpl. eapply chan_at_slot_write; [lia|lia|exact Hc]. }
      assert (Ht1 : channel_ids s1 = slot_write (channel_ids st) (pin_port (pinname obj))
                                       (pin_line (pinname obj)) (set_event ev c))
        by reflexivity.
      assert (Hh : irq_handler s1 = irq_handler st) by reflexivity.
      clearbody s1.
      destruct (enable =? 0); simpl.
      * rewrite (gpio_irq_disable_eq obj s1 _ Hc1). simpl. rewrite Hev.
        eexists. split; [reflexivity|]. simpl.
        rewrite Ht1, slot_write_twice. split; [reflexivity|exact Hh].
      * rewrite (gpio_irq_enable_eq obj s1 _ Hc1). simpl. rewrite Hev.
        eexists. split; [reflexivity|]. simpl.
        rewrite Ht1, slot_write_twice. split; [reflexivity|exact Hh].
  - rewrite (gpio_irq_enable_eq obj st c Hc).
    eexists. split; [reflexivity|].
    destruct (gpio_irq_event_eqb (event c) IRQ_NONE); simpl.
    + split; [|reflexivity]. symmetry. apply slot_write_same. exact Hc.
    + split; reflexivity.
  - rewrite (gpio_irq_disable_eq obj st c Hc).
    eexists. split; [reflexivity|].
    destruct (gpio_irq_event_eqb (event c) IRQ_NONE); simpl.
    + split; [|reflexivity]. symmetry. apply slot_write_same. exact Hc.
    + split; reflexivity.
Qed.

(** One call on a pin whose slot cannot be read is an access outside the
    table, unless it is a [gpio_irq_init] that rejects its arguments or a
    [gpio_irq_set] with IRQ_NONE, which return before touching anything. *)
Lemma apply_op_outside (op : gpio_op) (st st' : gpio_state hw) :
  chan_at (channel_ids st) (pin_port (op_pin op)) (pin_line (op_pin op)) = None ->
  apply_op op st = Some st' ->
  st' = st /\
  ((exists obj pin handler id, op = OpInit obj pin handler id /\ (pin = NC \/ id = 0)) \/
   (exists obj enable, op = OpSet obj IRQ_NONE enable)).
Proof.
  intros Hc.
  destruct op as [obj pin handler id|obj|obj ev enable|obj|obj]; simpl in Hc |- *.
  - unfold GpioIrq.gpio_irq_init.
    destruct ((pin =? NC) || (id =? 0)) eqn:Hb.
    + simpl. intros [= <-]. split; [reflexivity|]. left. exists obj, pin, handler, id.
      split; [reflexivity|]. apply orb_true_iff in Hb as [H|H]; apply Z.eqb_eq in H; tauto.
    + match goal with
      | |- context [chan_update (channel_ids ?s) _ _ _] => set (s1 := s)
      end.
      assert (Ht : channel_ids s1 = channel_ids st).
      { unfold s1. destruct (gpio_initialized st =? 0), (handler =? NULL); reflexivity. }
      clearbody s1. rewrite Ht, chan_update_none by exact Hc. discriminate.
  - unfold GpioIrq.gpio_irq_free, GpioIrq.gpio_irq_disable. rewrite Hc. discriminate.
  - unfold GpioIrq.gpio_irq_set.
    destruct (gpio_irq_event_eqb ev IRQ_NONE) eqn:Hev.
    + (* nothing is read when the event is IRQ_NONE *)
      intros [= <-]. split; [reflexivity|]. right. exists obj, enable.
      apply event_eqb_spec in Hev. subst ev. reflexivity.
    + simpl. rewrite chan_update_none by exact Hc. discriminate.
  - unfold GpioIrq.gpio_irq_enable. rewrite Hc. discriminate.
  - unfold GpioIrq.gpio_irq_disable. rewrite Hc. discriminate.
Qed.


Lemma op_result_ok (op : gpio_op) (c : gpio_chan_info_t) :
  slot_ok c -> slot_ok (op_result op c).
Proof.
  intros Hc. unfold slot_ok in *.
  destruct op as [obj pin handler id|obj|obj ev enable|obj|obj]; simpl.
  - destruct ((pin =? NC) || (id =? 0)); simpl; [exact Hc|]. split; [lia|discriminate].
  - split; [lia|discriminate].
  - destruct (gpio_irq_event_eqb ev IRQ_NONE) eqn:He; [exact Hc|]. simpl.
    split; [destruct (enable =? 0); lia|].
    intros _ ->. discriminate.
  - destruct (gpio_irq_event_eqb (event c) IRQ_NONE) eqn:He; [exact Hc|]. simpl.
    split; [lia|]. intros _ H. rewrite H in He. discriminate.
  - destruct (gpio_irq_event_eqb (event c) IRQ_NONE) eqn:He; [exact Hc|]. simpl.
    split; [lia|]. intros H. discriminate.
Qed.

Lemma slots_ok_slot_write (t : chan_table) (p l : Z) (c0 c : gpio_chan_info_t) :
  chan_at t p l = Some c0 -> slots_ok t -> slot_ok c -> slots_ok (slot_write t p l c).
Proof.
  intros H0 Hok Hc p' l' c' H'.
  pose proof (chan_at_nonneg _ _ _ _ H0) as [Hp Hl].
  destruct (decide ((p', l') = (p, l))) as [[= -> ->]|Hne].
  - rewrite (chan_at_slot_write t p l c0 c Hp Hl H0) in H'. congruence.
  - rewrite chan_at_slot_write_ne in H' by assumption. eapply Hok. exact H'.
Qed.

Lemma init_slots_ok : slots_ok channel_ids_init.
Proof.
  intros p l c. unfold chan_at, channel_ids_init.
  destruct ((0 <=? p) && (0 <=? l)); [|discriminate].
  destruct (replicate _ _ !! Z.to_nat p) as [row|] eqn:Hrow; simpl; [|discriminate].
  apply lookup_replicate in Hrow as [-> _].
  intros H. apply lookup_replicate in H as [-> _].
  split; simpl; [lia|discriminate].
Qed.

(** One call keeps the shape of the table and [slots_ok]. *)
Lemma apply_op_keeps (op : gpio_op) (st st' : gpio_state hw) :
  apply_op op st = Some st' ->
  table_wf (channel_ids st) -> slots_ok (channel_ids st) ->
  table_wf (channel_ids st') /\ slots_ok (channel_ids st').
Proof.
  intros H Hwf Hok.
  destruct (chan_at (channel_ids st) (pin_port (op_pin op)) (pin_line (op_pin op)))
    as [c|] eqn:Hc.
  - destruct (apply_op_at op st c Hc) as (s & Hs & Ht & _).
    assert (s = st') as -> by congruence. rewrite Ht. split.
    + apply slot_write_wf. exact Hwf.
    + eapply slots_ok_slot_write; [exact Hc|exact Hok|].
      apply op_result_ok. eapply Hok. exact Hc.
  - apply (apply_op_outside op st st' Hc) in H as [-> _]. tauto.
Qed.

(** X1: a call of the API that returns has rewritten, in the channel
    table, the one slot of its pin, from what that slot held, as
    [op_result] says: [gpio_irq_init] claims it with the id, no edge, not
    enabled; [gpio_irq_free] zeroes it; [gpio_irq_set] with an edge stores
    the edge and the flag 0 or 1; [gpio_irq_enable] and [gpio_irq_disable]
    set the flag of a slot that has an edge; everything else leaves the
    slot as it is.  A call that returns for a pin outside the table has
    changed nothing at all. *)
Theorem apply_op_slot (op : gpio_op) (st st' : gpio_state hw) :
  apply_op op st = Some st' ->
  match chan_at (channel_ids st) (pin_port (op_pin op)) (pin_line (op_pin op)) with
  | Some c =>
      channel_ids st' =
        slot_write (channel_ids st) (pin_port (op_pin op)) (pin_line (op_pin op))
          (op_result op c)
  | None => st' = st
  end.
Proof.
  intros H.
  destruct (chan_at (channel_ids st) (pin_port (op_pin op)) (pin_line (op_pin op)))
    as [c|] eqn:Hc.
  - destruct (apply_op_at op st c Hc) as (s & Hs & Ht & _).
    rewrite H in Hs. injection Hs as <-. exact Ht.
  - apply (apply_op_outside op st st' Hc) in H. tauto.
Qed.

(** X2: a call of the API that returns leaves every other slot of the
    channel table as it was, and leaves the registered handler as it was
    unless it is a [gpio_irq_init] with a non-null handler. *)
Theorem apply_op_frame (op : gpio_op) (st st' : gpio_state hw) :
  apply_op op st = Some st' ->
  (forall p l, (p, l) <> (pin_port (op_pin op), pin_line (op_pin op)) ->
     chan_at (channel_ids st') p l = chan_at (channel_ids st) p l) /\
  ((forall obj pin handler id, op = OpInit obj pin handler id -> handler = NULL) ->
   irq_handler st' = irq_handler st).
Proof.
  intros H.
  destruct (chan_at (channel_ids st) (pin_port (op_pin op)) (pin_line (op_pin op)))
    as [c|] eqn:Hc.
  - destruct (apply_op_at op st c Hc) as (s & Hs & Ht & Hh).
    rewrite H in Hs. injection Hs as <-. split.
    + intros p l Hne. rewrite Ht.
      apply chan_at_slot_write_ne; [apply u32_nonneg|apply u32_nonneg|exact Hne].
    + intros Hnull. rewrite Hh. destruct op as [obj pin handler id| | | |]; try reflexivity.
      rewrite (Hnull obj pin handler id eq_refl).
      destruct ((pin =? NC) || (id =? 0)); reflexivity.
  - apply (apply_op_outside op st st' Hc) in H as [-> _]. split; reflexivity.
Qed.

(** X3: whatever calls of the API are made one after the other, if they
    return they keep the channel table a 3 by 16 array in which every
    enable flag is 0 or 1 and a slot with the flag set has an edge. *)
Theorem run_invariant (ops : list gpio_op) (st st' : gpio_state hw) :
  table_wf (channel_ids st) -> slots_ok (channel_ids st) ->
  run ops st = Some st' ->
  table_wf (channel_ids st') /\ slots_ok (channel_ids st').
Proof.
  revert st. induction ops as [|op ops IH]; intros st Hwf Hok H; simpl in H.
  - injection H as <-. tauto.
  - destruct (apply_op op st) as [s|] eqn:Hs; simpl in H; [|discriminate].
    destruct (apply_op_keeps op st s Hs Hwf Hok) as [Hwf' Hok'].
    exact (IH s Hwf' Hok' H).
Qed.

(** X4: on a 3 by 16 channel table, calls of the API on pin names whose
    port is below 3 and whose line is below 16 never reach outside the
    table: every such sequence of calls returns. *)
Theorem run_in_bounds (ops : list gpio_op) (st : gpio_state hw) :
  table_wf (channel_ids st) ->
  Forall (fun op => valid_pin (op_pin op)) ops ->
  exists st', run ops st = Some st' /\ table_wf (channel_ids st').
Proof.
  revert st. induction ops as [|op ops IH]; intros st Hwf Hv; simpl.
  - exists st. tauto.
  - apply Forall_cons in Hv as [Hop Hv].
    destruct (valid_pin_range GPIO_PORT_SHIFT _ Hop) as [Hp Hl].
    destruct (chan_at_wf (channel_ids st) _ _ Hwf Hp Hl) as [c Hc].
    destruct (apply_op_at op st c Hc) as (s & Hs & Ht & _).
    rewrite Hs. simpl. apply IH; [|exact Hv].
    rewrite Ht. apply slot_write_wf. exact Hwf.
Qed.


(** X5: the content of any slot after a sequence of calls that returned is
    what [op_result] makes, call by call in order, of the calls whose pin
    names that slot; calls on other pins do not count. *)
Theorem run_slot_history (ops : list gpio_op) (st st' : gpio_state hw)
    (p l : Z) (c : gpio_chan_info_t) :
  run ops st = Some st' ->
  chan_at (channel_ids st) p l = Some c ->
  chan_at (channel_ids st') p l =
  Some (foldl (fun c op => op_result op c) c
          (filter (fun op => (pin_port (op_pin op), pin_line (op_pin op)) = (p, l)) ops)).
Proof.
  revert st c. induction ops as [|op ops IH]; intros st c H Hc; simpl in H.
  - injection H as <-. exact Hc.
  - destruct (apply_op op st) as [s|] eqn:Hs; simpl in H; [|discriminate].
    rewrite filter_cons.
    destruct (decide ((pin_port (op_pin op), pin_line (op_pin op)) = (p, l))) as [Heq|Hne].
    + injection Heq as Hp Hl. simpl. apply (IH s); [exact H|].
      rewrite <- Hp, <- Hl in Hc |- *.
      destruct (apply_op_at op st c Hc) as (s' & Hs' & Ht & _).
      assert (s' = s) as -> by congruence. rewrite Ht.
      eapply chan_at_slot_write; [apply u32_nonneg|apply u32_nonneg|exact Hc].
    + apply (IH s); [exact H|].
      destruct (chan_at (channel_ids st) (pin_port (op_pin op)) (pin_line (op_pin op)))
        as [c0|] eqn:Hc0.
      * destruct (apply_op_at op st c0 Hc0) as (s' & Hs' & Ht & _).
        assert (s' = s) as -> by congruence. rewrite Ht.
        rewrite chan_at_slot_write_ne; [exact Hc|apply u32_nonneg|apply u32_nonneg|].
        intros E. apply Hne. symmetry. exact E.
      * apply (apply_op_outside op st s Hc0) in Hs as [-> _]. exact Hc.
Qed.

(** The calls the demultiplexer makes for a port of the table and a 16-bit
    mask, as one list. *)
Lemma gpio_irq_callback_eq (st : gpio_state hw) (Event : Z) (M : N) :
  table_wf (channel_ids st) -> 0 <= Event < MAX_GPIO_PORTS -> (M < 2 ^ 16)%N ->
  gpio_irq_callback st Event M =
  Some (if irq_handler st =? NULL then [] else dispatch st Event <$> set_bits M).
Proof.
  intros Hwf HE HM. unfold gpio_irq_callback.
  rewrite N.mod_small by exact HM.
  rewrite (callback_loop_run st Event Hwf HE 16 M 0 []);
    [|exact HM|lia|unfold MAX_GPIO_LINES; lia].
  assert (Hf : filter (fun i => N.testbit M (Z.to_N (i - 0)) = true) (seqZ 0 (Z.of_nat 16))
               = set_bits M).
  { unfold set_bits. apply list_filter_iff. intros i. rewrite Z.sub_0_r. reflexivity. }
  rewrite Hf. reflexivity.
Qed.

Lemma set_bits_pow2 (l : Z) : 0 <= l < 16 -> set_bits (Z.to_N (2 ^ l)) = [l].
Proof.
  intros Hl. replace l with (Z.of_nat (Z.to_nat l)) by lia.
  assert (Hn : (Z.to_nat l < 16)%nat) by lia. revert Hn. generalize (Z.to_nat l).
  intros n Hn. do 16 (destruct n as [|n]; [vm_compute; reflexivity|]). lia.
Qed.

(** X6: a pin claimed with a handler and an id and then armed with
    [gpio_irq_set] for an edge is served by the demultiplexer: when the
    pin's bit alone is pending on its port, the one call made is to that
    handler with that id and that edge.  The enable argument of
    [gpio_irq_set] plays no part in it: the demultiplexer does not look at
    the enable flag of the slot. *)
Theorem gpio_irq_armed_dispatch (obj : gpio_irq_t) (pin handler id : Z)
    (ev : gpio_irq_event) (enable : Z) (st : gpio_state hw) :
  table_wf (channel_ids st) -> valid_pin pin ->
  pin <> NC -> id <> 0 -> handler <> NULL -> ev <> IRQ_NONE ->
  exists obj' st1 st2,
    gpio_irq_init obj pin handler id st = Some (0, obj', st1) /\
    gpio_irq_set obj' ev enable st1 = Some st2 /\
    gpio_irq_callback st2 (pin_port pin) (Z.to_N (2 ^ pin_line pin))
      = Some [mk_call handler id ev].
Proof.
  intros Hwf Hv Hnc Hid Hh Hev.
  destruct (valid_pin_range GPIO_PORT_SHIFT _ Hv) as [Hp Hl].
  destruct (gpio_irq_init_ok GPIO_PORT_SHIFT NC obj pin handler id st Hwf Hv Hnc Hid)
    as (st1 & Hinit & Ht1 & Hh1).
  assert (Hl16 : 0 <= pin_line pin < 16) by exact Hl.
  apply Z.eqb_neq in Hh. rewrite Hh in Hh1.
  destruct (chan_at_wf (channel_ids st) _ _ Hwf Hp Hl) as [c0 Hc0].
  assert (Hc1 : chan_at (channel_ids st1) (pin_port (op_pin (OpSet (mk_obj id pin) ev enable)))
                  (pin_line (op_pin (OpSet (mk_obj id pin) ev enable)))
                = Some (mk_chan id IRQ_NONE 0)).
  { simpl. rewrite Ht1. eapply chan_at_slot_write; [lia|lia|exact Hc0]. }
  destruct (apply_op_at _ st1 _ Hc1) as (st2 & Hset & Ht2 & Hh2).
  simpl in Hset, Ht2, Hh2.
  assert (Hne : gpio_irq_event_eqb ev IRQ_NONE = false) by (destruct ev; simpl; congruence).
  rewrite Hne in Ht2.
  exists (mk_obj id pin), st1, st2. split; [exact Hinit|]. split; [exact Hset|].
  assert (Hwf2 : table_wf (channel_ids st2)).
  { rewrite Ht2, Ht1. apply slot_write_wf, slot_write_wf. exact Hwf. }
  rewrite gpio_irq_callback_eq; [|exact Hwf2|exact Hp|].
  - rewrite Hh2, Hh1, Hh. rewrite set_bits_pow2 by lia. simpl. unfold dispatch.
    rewrite Ht2, Ht1, slot_write_twice.
    erewrite chan_at_slot_write; [|lia|lia|exact Hc0]. simpl.
    rewrite Hh2, Hh1. reflexivity.
  - assert (2 ^ pin_line pin < 2 ^ 16) by (apply Z.pow_lt_mono_r; lia).
    assert (0 < 2 ^ pin_line pin) by (apply Z.pow_pos_nonneg; lia).
    change (2 ^ 16)%N with (Z.to_N (2 ^ 16)). lia.
Qed.

(** X7: a slot without an edge cannot be enabled.  After [gpio_irq_free],
    and after a [gpio_irq_init] that succeeded, [gpio_irq_enable] and
    [gpio_irq_disable] on the pin return the state they were given: table,
    handler and registers untouched. *)
Theorem gpio_irq_enable_needs_edge (op : gpio_op) (st : gpio_state hw) :
  table_wf (channel_ids st) -> valid_pin (op_pin op) ->
  (exists obj, op = OpFree obj) \/
  (exists obj pin handler id, op = OpInit obj pin handler id /\ pin <> NC /\ id <> 0) ->
  exists st1,
    apply_op op st = Some st1 /\
    forall obj', pinname obj' = op_pin op ->
      gpio_irq_enable obj' st1 = Some st1 /\ gpio_irq_disable obj' st1 = Some st1.
Proof.
  intros Hwf Hv Hop.
  destruct (valid_pin_range GPIO_PORT_SHIFT _ Hv) as [Hp Hl].
  destruct (chan_at_wf (channel_ids st) _ _ Hwf Hp Hl) as [c Hc].
  destruct (apply_op_at op st c Hc) as (st1 & Hs & Ht & _).
  exists st1. split; [exact Hs|]. intros obj' Hpin.
  assert (He : exists c1, chan_at (channel_ids st1) (pin_port (pinname obj'))
                 (pin_line (pinname obj')) = Some c1 /\ event c1 = IRQ_NONE).
  { exists (op_result op c). rewrite Hpin, Ht. split.
    - eapply chan_at_slot_write; [lia|lia|exact Hc].
    - destruct Hop as [(obj & ->)|(obj & pin & handler & id & -> & Hnc & Hid)]; simpl.
      + reflexivity.
      + apply Z.eqb_neq in Hnc, Hid. rewrite Hnc, Hid. reflexivity. }
  destruct He as (c1 & Hc1 & He).
  rewrite (gpio_irq_enable_eq obj' st1 c1 Hc1), (gpio_irq_disable_eq obj' st1 c1 Hc1).
  rewrite He. simpl. split; reflexivity.
Qed.

(** X8: [enable_pin_interrupt] on a line below 16 writes back, to the
    group it is given, the 16-bit value it read from that group with the
    bit of the line set and no other bit changed. *)
Theorem enable_pin_interrupt_bits (port pin_number : Z) (eIrq : IRQn_Type) (r : hw) :
  0 <= pin_number < 16 ->
  exists v,
    enable_pin_interrupt port pin_number eIrq r =
      adi_gpio_SetGroupInterruptPins port eIrq v r /\
    0 <= v < 2 ^ 16 /\
    forall i, 0 <= i < 16 ->
      Z.testbit v i =
      (i =? pin_number) ||
      Z.testbit (adi_gpio_GetGroupInterruptPins port eIrq (2 ^ pin_number) r) i.
Proof.
  intros Hpin. eexists. split; [reflexivity|]. split.
  - unfold u16 at 1. apply Z.mod_pos_bound. lia.
  - intros i Hi. unfold u16. rewrite Z.shiftl_1_l.
    assert (Hs : 2 ^ pin_number < 2 ^ 16) by (apply Z.pow_lt_mono_r; lia).
    assert (Hs0 : 0 < 2 ^ pin_number) by (apply Z.pow_pos_nonneg; lia).
    rewrite (Z.mod_small (2 ^ pin_number)) by lia.
    rewrite !Z.testbit_mod_pow2, Z.lor_spec, Z.testbit_mod_pow2 by lia.
    rewrite Z.pow2_bits_eqb by lia.
    replace (i <? 16) with true by (symmetry; apply Z.ltb_lt; lia).
    rewrite (Z.eqb_sym pin_number i). simpl. apply orb_comm.
Qed.

(** X9: [disable_pin_interrupt] on a line below 16 writes both groups, A
    first and then B, each with the 16-bit value read from it with the bit
    of the line cleared and no other bit changed. *)
Theorem disable_pin_interrupt_bits (port pin_number : Z) (r : hw) :
  0 <= pin_number < 16 ->
  exists vA vB,
    let rA := adi_gpio_SetGroupInterruptPins port SYS_GPIO_INTA_IRQn vA r in
    disable_pin_interrupt port pin_number r =
      adi_gpio_SetGroupInterruptPins port SYS_GPIO_INTB_IRQn vB rA /\
    0 <= vA < 2 ^ 16 /\ 0 <= vB < 2 ^ 16 /\
    forall i, 0 <= i < 16 ->
      Z.testbit vA i =
        negb (i =? pin_number) &&
        Z.testbit (adi_gpio_GetGroupInterruptPins port SYS_GPIO_INTA_IRQn
                     (2 ^ pin_number) r) i /\
      Z.testbit vB i =
        negb (i =? pin_number) &&
        Z.testbit (adi_gpio_GetGroupInterruptPins port SYS_GPIO_INTB_IRQn
                     (2 ^ pin_number) rA) i.
Proof.
  intros Hpin. eexists _, _. split; [reflexivity|].
  split; [unfold u16 at 1; apply Z.mod_pos_bound; lia|].
  split; [unfold u16 at 1; apply Z.mod_pos_bound; lia|].
  intros i Hi. unfold u16. rewrite Z.shiftl_1_l.
  assert (Hs : 2 ^ pin_number < 2 ^ 16) by (apply Z.pow_lt_mono_r; lia).
  assert (Hs0 : 0 < 2 ^ pin_number) by (apply Z.pow_pos_nonneg; lia).
  rewrite (Z.mod_small (2 ^ pin_number)) by lia.
  rewrite !Z.testbit_mod_pow2, !Z.land_spec, !Z.testbit_mod_pow2 by lia.
  rewrite Z.lnot_spec, Z.pow2_bits_eqb by lia.
  replace (i <? 16) with true by (symmetry; apply Z.ltb_lt; lia).
  rewrite (Z.eqb_sym pin_number i). simpl. split; apply andb_comm.
Qed.

(** X10: [gpio_irq_free] does not take the pin out of the demultiplexer:
    when the bit of a freed pin is pending and a handler is registered,
    the handler is still called, with id 0 and IRQ_NONE, the content of
    the zeroed slot. *)
Theorem gpio_irq_free_then_callback (obj : gpio_irq_t) (st : gpio_state hw) :
  table_wf (channel_ids st) -> valid_pin (pinname obj) -> irq_handler st <> NULL ->
  exists st1,
    gpio_irq_free obj st = Some st1 /\
    gpio_irq_callback st1 (pin_port (pinname obj)) (Z.to_N (2 ^ pin_line (pinname obj)))
      = Some [mk_call (irq_handler st) 0 IRQ_NONE].
Proof.
  intros Hwf Hv Hh.
  destruct (valid_pin_range GPIO_PORT_SHIFT _ Hv) as [Hp Hl].
  assert (Hl16 : 0 <= pin_line (pinname obj) < 16) by exact Hl.
  destruct (chan_at_wf (channel_ids st) _ _ Hwf Hp Hl) as [c Hc].
  destruct (apply_op_at (OpFree obj) st c Hc) as (st1 & Hfree & Ht & Hh1).
  simpl in Hfree, Ht, Hh1.
  exists st1. split; [exact Hfree|].
  assert (Hwf1 : table_wf (channel_ids st1)) by (rewrite Ht; apply slot_write_wf; exact Hwf).
  rewrite gpio_irq_callback_eq; [|exact Hwf1|exact Hp|].
  - apply Z.eqb_neq in Hh. rewrite Hh1, Hh, set_bits_pow2 by lia. simpl.
    unfold dispatch. rewrite Ht.
    erewrite chan_at_slot_write; [|lia|lia|exact Hc]. simpl. rewrite Hh1. reflexivity.
  - assert (2 ^ pin_line (pinname obj) < 2 ^ 16) by (apply Z.pow_lt_mono_r; lia).
    assert (0 < 2 ^ pin_line (pinname obj)) by (apply Z.pow_pos_nonneg; lia).
    change (2 ^ 16)%N with (Z.to_N (2 ^ 16)). lia.
Qed.

End Api.

Lemma gpio_irq_free_then_callback_witness :
  exists st1,
    gpio_irq_free demo_shift demo_obj demo_state = Some st1 /\
    gpio_irq_callback st1 (pin_port demo_shift (pinname demo_obj))
      (Z.to_N (2 ^ pin_line (pinname demo_obj)))
      = Some [mk_call (irq_handler demo_state) 0 IRQ_NONE].
Proof.
  apply (gpio_irq_free_then_callback demo_shift demo_NC demo_obj demo_state
           demo_state_wf demo_pin_valid).
  vm_compute. discriminate.
Defined.

Lemma apply_op_slot_witness :
  match chan_at (channel_ids demo_state) (pin_port demo_shift (op_pin (OpFree demo_obj)))
          (pin_line (op_pin (OpFree demo_obj))) with
  | Some c =>
      channel_ids demo_freed =
        slot_write (channel_ids demo_state) (pin_port demo_shift (op_pin (OpFree demo_obj)))
          (pin_line (op_pin (OpFree demo_obj))) (op_result demo_NC (OpFree demo_obj) c)
  | None => demo_freed = demo_state
  end.
Proof.
  apply (apply_op_slot demo_shift demo_NC (OpFree demo_obj) demo_state demo_freed).
  vm_compute. reflexivity.
Defined.

Lemma apply_op_frame_witness :
  (forall p l, (p, l) <> (pin_port demo_shift (op_pin (OpFree demo_obj)),
                          pin_line (op_pin (OpFree demo_obj))) ->
     chan_at (channel_ids demo_freed) p l = chan_at (channel_ids demo_state) p l) /\
  ((forall obj pin handler id, OpFree demo_obj = OpInit obj pin handler id -> handler = NULL) ->
   irq_handler demo_freed = irq_handler demo_state).
Proof.
  apply (apply_op_frame demo_shift demo_NC (OpFree demo_obj) demo_state demo_freed).
  vm_compute. reflexivity.
Defined.

Lemma run_invariant_witness :
  table_wf (channel_ids demo_after) /\ slots_ok (channel_ids demo_after).
Proof.
  apply (run_invariant demo_shift demo_NC demo_ops GpioSim.boot demo_after
           boot_wf init_slots_ok).
  vm_compute. reflexivity.
Defined.

Lemma run_in_bounds_witness :
  exists st', run demo_shift demo_NC demo_ops GpioSim.boot = Some st' /\
              table_wf (channel_ids st').
Proof.
  apply (run_in_bounds demo_shift demo_NC demo_ops GpioSim.boot boot_wf).
  repeat constructor; vm_compute; reflexivity.
Defined.

Lemma run_slot_history_witness :
  chan_at (channel_ids demo_after) 1 2 =
  Some (foldl (fun c op => op_result demo_NC op c) unused_chan
          (filter (fun op => (pin_port demo_shift (op_pin op), pin_line (op_pin op)) = (1, 2))
             demo_ops)).
Proof.
  apply (run_slot_history demo_shift demo_NC demo_ops GpioSim.boot demo_after 1 2 unused_chan).
  - vm_compute. reflexivity.
  - vm_compute. reflexivity.
Defined.

Lemma gpio_irq_armed_dispatch_witness :
  exists obj' st1 st2,
    gpio_irq_init demo_shift demo_NC demo_obj demo_pin 4096 7 GpioSim.boot
      = Some (0, obj', st1) /\
    gpio_irq_set demo_shift obj' IRQ_FALL 0 st1 = Some st2 /\
    gpio_irq_callback st2 (pin_port demo_shift demo_pin) (Z.to_N (2 ^ pin_line demo_pin))
      = Some [mk_call 4096 7 IRQ_FALL].
Proof.
  apply (gpio_irq_armed_dispatch demo_shift demo_NC demo_obj demo_pin 4096 7 IRQ_FALL 0
           GpioSim.boot boot_wf demo_pin_valid); vm_compute; discriminate.
Defined.

Lemma gpio_irq_enable_needs_edge_witness :
  exists st1,
    apply_op demo_shift demo_NC (OpFree demo_obj) demo_state = Some st1 /\
    forall obj', pinname obj' = op_pin (OpFree demo_obj) ->
      gpio_irq_enable demo_shift obj' st1 = Some st1 /\
      gpio_irq_disable demo_shift obj' st1 = Some st1.
Proof.
  apply (gpio_irq_enable_needs_edge demo_shift demo_NC (OpFree demo_obj) demo_state
           demo_state_wf demo_pin_valid).
  left. exists demo_obj. reflexivity.
Defined.

Lemma enable_pin_interrupt_bits_witness :
  exists v,
    enable_pin_interrupt 1 2 SYS_GPIO_INTB_IRQn GpioSim.reset =
      adi_gpio_SetGroupInterruptPins 1 SYS_GPIO_INTB_IRQn v GpioSim.reset /\
    0 <= v < 2 ^ 16 /\
    forall i, 0 <= i < 16 ->
      Z.testbit v i =
      (i =? 2) ||
      Z.testbit (adi_gpio_GetGroupInterruptPins 1 SYS_GPIO_INTB_IRQn (2 ^ 2) GpioSim.reset) i.
Proof. apply (enable_pin_interrupt_bits 1 2 SYS_GPIO_INTB_IRQn GpioSim.reset). lia. Defined.

Lemma disable_pin_interrupt_bits_witness :
  exists vA vB,
    let rA := adi_gpio_SetGroupInterruptPins 1 SYS_GPIO_INTA_IRQn vA
                (regs demo_after) in
    disable_pin_interrupt 1 2 (regs demo_after) =
      adi_gpio_SetGroupInterruptPins 1 SYS_GPIO_INTB_IRQn vB rA /\
    0 <= vA < 2 ^ 16 /\ 0 <= vB < 2 ^ 16 /\
    forall i, 0 <= i < 16 ->
      Z.testbit vA i =
        negb (i =? 2) &&
        Z.testbit (adi_gpio_GetGroupInterruptPins 1 SYS_GPIO_INTA_IRQn (2 ^ 2)
                     (regs demo_after)) i /\
      Z.testbit vB i =
        negb (i =? 2) &&
        Z.testbit (adi_gpio_GetGroupInterruptPins 1 SYS_GPIO_INTB_IRQn (2 ^ 2) rA) i.
Proof. apply (disable_pin_interrupt_bits 1 2 (regs demo_after)). lia. Defined.

(** The example session, step by step: the slot of the pin and the enable
    registers of port 1 at the end. *)
Example demo_after_slot :
  chan_at (channel_ids demo_after) 1 2 = Some (mk_chan 7 IRQ_FALL 1) /\
  GpioSim.port_get (regs demo_after) 1 = GpioSim.mk_port 0 4 0 4.
Proof. vm_compute. split; reflexivity. Qed.

End GpioApiFacts.

(* ===================================================================== *)
(** * More facts about lp_ticker_api.c                                    *)
(* ===================================================================== *)

Module LpTickerApiFacts.
Import Float32 Float32Spec Float32Facts LpTicker LpTickerSpec ConversionFacts LpTickerFacts.

(** The last tick count that converts to microseconds, and the first that
    does not. *)
Lemma ticks_to_us_limit :
  ticks_to_us 140737480 = Some 4294966784 /\ ticks_to_us 140737481 = None.
Proof. vm_compute. split; reflexivity. Qed.

(** X11: the conversion of a deadline to ticks is monotone on 32-bit
    timestamps: a later deadline never gets an earlier tick value, and no
    tick value exceeds 140737488. *)
Theorem us_to_ticks_monotone (a b : Z) :
  0 <= a <= b -> b < 2 ^ 32 ->
  exists na nb,
    us_to_ticks a = Some na /\ us_to_ticks b = Some nb /\
    0 <= na <= nb /\ nb <= 140737488.
Proof.
  intros Ha Hb.
  destruct (us_to_ticks_total a ltac:(lia)) as (na & Hna & Hna0).
  destruct (us_to_ticks_total b ltac:(lia)) as (nb & Hnb & Hnb0).
  exists na, nb. split; [exact Hna|]. split; [exact Hnb|]. split; [|lia].
  split; [lia|].
  destruct (Z.eq_dec a 0) as [->|Hne].
  - assert (H0 : us_to_ticks 0 = Some 0) by (vm_compute; reflexivity).
    rewrite H0 in Hna. injection Hna as <-. lia.
  - apply to_u32_inv in Hna as [Hta _], Hnb as [Htb _].
    exact (trunc_fle (ticks_float a) (ticks_float b) na nb
             (ticks_float_normal a ltac:(lia)) (ticks_float_normal b ltac:(lia))
             (ticks_float_mono a b ltac:(lia) Hb) Hta Htb).
Qed.

Lemma us_to_ticks_monotone_witness :
  exists na nb,
    us_to_ticks 100 = Some na /\ us_to_ticks 4294967295 = Some nb /\
    0 <= na <= nb /\ nb <= 140737488.
Proof. apply (us_to_ticks_monotone 100 4294967295); lia. Defined.

Section Rtc.
Variable rtc_count : nat -> Z.
Variable alarm_bit : Z.
Hypothesis alarm_bit_nonneg : 0 <= alarm_bit.

Local Abbreviation ADI_RTC_ALARM_INT := (LpTicker.ADI_RTC_ALARM_INT alarm_bit).
Local Abbreviation rtc1_Callback := (LpTicker.rtc1_Callback alarm_bit).
Local Abbreviation adi_rtc_GetCount := (LpTicker.adi_rtc_GetCount rtc_count).
Local Abbreviation lp_ticker_read := (LpTicker.lp_ticker_read rtc_count).
Local Abbreviation poll_count := (LpTicker.poll_count rtc_count).
Local Abbreviation lp_ticker_set_interrupt :=
  (LpTicker.lp_ticker_set_interrupt rtc_count alarm_bit).
Local Abbreviation samplings := (LpTickerSpec.samplings rtc_count).

(** What [lp_ticker_read] returns, from the conversion of the count. *)
Lemma lp_ticker_read_eq (w : rtc_world) :
  lp_ticker_read w =
  (v ← ticks_to_us (u32 (rtc_count (reads w)));
   Some (v, mk_world (S (reads w)) (log w ++ [EvGetCount (u32 (rtc_count (reads w)))]))).
Proof. reflexivity. Qed.

(** X12: [lp_ticker_read] has a result exactly as long as the counter is
    at most 140737480; from 140737481 on the float no longer fits the
    [uint32_t] it is cast to.  A result is at most 4294966784. *)
Theorem lp_ticker_read_defined (w : rtc_world) :
  (is_Some (lp_ticker_read w) <-> u32 (rtc_count (reads w)) <= 140737480) /\
  (forall v w', lp_ticker_read w = Some (v, w') -> 0 <= v <= 4294966784).
Proof.
  destruct ticks_to_us_limit as [Hlast Hfirst].
  pose proof (u32_range (rtc_count (reads w))) as Hc.
  rewrite lp_ticker_read_eq. set (c := u32 (rtc_count (reads w))) in *. clearbody c.
  assert (Hiff : is_Some (ticks_to_us c) <-> c <= 140737480).
  { split.
    - intros [v Hv]. destruct (Z.le_gt_cases c 140737480) as [Hle|Hgt]; [exact Hle|].
      destruct (ticks_to_us_mono 140737481 c v ltac:(lia) ltac:(lia) Hv) as (v' & Hv' & _).
      congruence.
    - intros Hle.
      destruct (ticks_to_us_mono c 140737480 _ ltac:(lia) ltac:(lia) Hlast) as (v & Hv & _).
      exists v. exact Hv. }
  split.
  - rewrite <- Hiff. destruct (ticks_to_us c) as [v|]; simpl; split; intros [x Hx]; eauto;
      discriminate.
  - intros v w' H. destruct (ticks_to_us c) as [v0|] eqn:Hv0; simpl in H; [|discriminate].
    injection H as <- _.
    assert (Hle : c <= 140737480) by (apply Hiff; eauto).
    destruct (ticks_to_us_mono c 140737480 _ ltac:(lia) ltac:(lia) Hlast) as (v & Hv & Hvle).
    pose proof (to_u32_inv _ _ Hv0) as [_ Hr]. assert (v = v0) by congruence. lia.
Qed.

(** X13: time read from the ticker does not run backwards: of two reads,
    the one that sees the larger count returns the larger or the same
    number of microseconds. *)
Theorem lp_ticker_read_monotone (w w' w1 w2 : rtc_world) (v1 v2 : Z) :
  lp_ticker_read w = Some (v1, w1) ->
  lp_ticker_read w' = Some (v2, w2) ->
  u32 (rtc_count (reads w)) <= u32 (rtc_count (reads w')) ->
  v1 <= v2.
Proof.
  rewrite !lp_ticker_read_eq. intros H1 H2 Hle.
  destruct (ticks_to_us (u32 (rtc_count (reads w)))) as [a|] eqn:Ha; simpl in H1;
    [|discriminate].
  destruct (ticks_to_us (u32 (rtc_count (reads w')))) as [b|] eqn:Hb; simpl in H2;
    [|discriminate].
  injection H1 as <- _. injection H2 as <- _.
  pose proof (u32_range (rtc_count (reads w))) as Hc.
  pose proof (u32_range (rtc_count (reads w'))) as Hc'.
  destruct (ticks_to_us_mono _ _ b (conj (proj1 Hc) Hle) (proj2 Hc') Hb) as (a' & Ha' & Hab).
  congruence.
Qed.

(** X14: for the first 549755 ticks (16.7 s) a read is the exact number of
    microseconds, count * 1000000 / 32768, rounded down or up to an
    integer; the read samples the counter once and does nothing else. *)
Theorem lp_ticker_read_accuracy (w : rtc_world) :
  u32 (rtc_count (reads w)) * 15625 < 2 ^ 33 ->
  exists v w',
    lp_ticker_read w = Some (v, w') /\
    u32 (rtc_count (reads w)) * 1000000 / 32768 <= v
      <= u32 (rtc_count (reads w)) * 1000000 / 32768 + 1 /\
    reads w' = S (reads w) /\
    log w' = log w ++ [EvGetCount (u32 (rtc_count (reads w)))].
Proof.
  intros Hsmall. rewrite lp_ticker_read_eq.
  pose proof (u32_range (rtc_count (reads w))) as Hc.
  set (c := u32 (rtc_count (reads w))) in *. clearbody c.
  assert (Hq : c * 1000000 / 32768 = c * 15625 / 512).
  { replace (c * 1000000) with (c * 15625 * 64) by lia.
    change 32768 with (512 * 64). apply Z.div_mul_cancel_r; lia. }
  rewrite Hq.
  assert (Hv : exists v, ticks_to_us c = Some v /\
                         c * 15625 / 512 <= v /\ v * 512 <= c * 15625 + 256).
  { destruct (Z.eq_dec c 0) as [->|Hne].
    - exists 0. split; [vm_compute; reflexivity|]. split; [vm_compute; discriminate|lia].
    - apply ticks_to_us_small; lia. }
  destruct Hv as (v & Hv & Hlo & Hhi). rewrite Hv. simpl.
  eexists _, _. split; [reflexivity|]. simpl. split; [|split; reflexivity].
  split; [exact Hlo|].
  pose proof (Z.div_mod (c * 15625) 512 ltac:(lia)) as Hd.
  pose proof (Z.mod_pos_bound (c * 15625) 512 ltac:(lia)) as Hr. lia.
Qed.

(** The shape of a busy-wait that has returned. *)
Lemma poll_count_log (fuel : nat) (set_time : Z) :
  forall (w w' : rtc_world) (c : Z),
    poll_count fuel set_time w = Some (c, w') ->
    exists k,
      (k < fuel)%nat /\
      c = u32 (rtc_count (reads w + k)) /\ set_time <= c /\
      reads w' = (reads w + S k)%nat /\
      log w' = log w ++ samplings (reads w) (S k) /\
      (forall j, (j < k)%nat -> u32 (rtc_count (reads w + j)) < set_time).
Proof.
  induction fuel as [|fuel IH]; intros w w' c H; [discriminate|].
  simpl LpTicker.poll_count in H.
  destruct (Z.ltb_spec (u32 (rtc_count (reads w))) set_time) as [Hlt|Hge].
  - apply IH in H as (k & Hk & Hc & Hs & Hreads & Hlog & Hbelow).
    simpl in Hc, Hreads, Hlog, Hbelow.
    exists (S k). split; [lia|].
    replace (reads w + S k)%nat with (S (reads w + k)) by lia.
    split; [exact Hc|]. split; [exact Hs|]. split; [lia|]. split.
    + rewrite Hlog, <- app_assoc. reflexivity.
    + intros j Hj. destruct j as [|j].
      * rewrite Nat.add_0_r. exact Hlt.
      * replace (reads w + S j)%nat with (S (reads w + j)) by lia. apply Hbelow. lia.
  - injection H as <- <-. exists 0%nat. rewrite Nat.add_0_r. simpl.
    split; [lia|]. split; [reflexivity|]. split; [lia|]. split; [lia|].
    split; [reflexivity|]. intros j Hj. lia.
Qed.

(** A busy-wait whose samplings all stay below the deadline does not
    return, whatever the bound. *)
Lemma poll_count_stalled (fuel : nat) (set_time : Z) :
  forall w : rtc_world,
    (forall j, (j < fuel)%nat -> u32 (rtc_count (reads w + j)) < set_time) ->
    poll_count fuel set_time w = None.
Proof.
  induction fuel as [|fuel IH]; intros w Hst; [reflexivity|].
  simpl LpTicker.poll_count.
  pose proof (Hst 0%nat ltac:(lia)) as H0. rewrite Nat.add_0_r in H0.
  apply Z.ltb_lt in H0. rewrite H0. apply IH. intros j Hj. simpl.
  replace (S (reads w + j)) with (reads w + S j)%nat by lia. apply Hst. lia.
Qed.

(** X15: a call of [lp_ticker_set_interrupt] that returns has done one of
    two things, never both and never neither: it has called the
    expiration handler once, as its last act, and has left the alarm
    alone; or it has programmed the alarm with the tick value of the
    deadline, more than 50 ticks ahead of the count it sampled first, and
    has not called the handler. *)
Theorem lp_ticker_set_interrupt_outcome (fuel : nat) (timestamp : Z) (w w' : rtc_world) :
  0 <= timestamp < 2 ^ 32 ->
  lp_ticker_set_interrupt fuel timestamp w = Some w' ->
  exists set_time new,
    us_to_ticks timestamp = Some set_time /\
    log w' = log w ++ new /\
    ((handler_calls new = 1%nat /\ existsb touches_alarm new = false /\
      last new = Some EvIrqHandler)
     \/
     (handler_calls new = 0%nat /\ EvSetAlarm set_time ∈ new /\
      u32 (rtc_count (reads w)) + TICKS_TO_ENABLE_ALARM < set_time)).
Proof.
  unfold LpTicker.lp_ticker_set_interrupt. intros Hrange H.
  destruct (us_to_ticks_total timestamp Hrange) as (set_time & Hts & Hst).
  rewrite Hts in H. simpl in H.
  pose proof (u32_range (rtc_count (reads w))) as Hc.
  exists set_time.
  destruct (Z.leb_spec set_time (u32 (rtc_count (reads w)))) as [Hle|Hgt].
  - rewrite rtc1_Callback_alarm in H by exact alarm_bit_nonneg. injection H as <-.
    eexists. split; [exact Hts|]. simpl. split; [rewrite <- app_assoc; reflexivity|].
    left. split; [reflexivity|]. split; reflexivity.
  - destruct (Z.leb_spec set_time
                (u32 (u32 (rtc_count (reads w)) + TICKS_TO_ENABLE_ALARM))) as [Hnear|Hfar].
    + destruct (poll_count fuel set_time _) as [[c w1]|] eqn:Hp; simpl in H; [|discriminate].
      rewrite rtc1_Callback_alarm in H by exact alarm_bit_nonneg. injection H as <-.
      apply poll_count_log in Hp as (k & _ & _ & _ & _ & Hlog & _).
      simpl in Hlog. simpl. rewrite Hlog, <- !app_assoc.
      eexists. split; [exact Hts|]. split; [reflexivity|]. left.
      pose proof (handler_calls_samplings rtc_count (reads w) (S (S k))) as [Hh Ht].
      split; [exact Hh|]. split; [exact Ht|].
      change (last (samplings (reads w) (S (S k)) ++ [EvIrqHandler]) = Some EvIrqHandler).
      apply last_snoc.
    + injection H as <-. simpl. rewrite <- !app_assoc. simpl.
      eexists. split; [exact Hts|]. split; [reflexivity|]. right.
      split; [reflexivity|]. split.
      * do 3 apply list_elem_of_further. apply list_elem_of_here.
      * unfold TICKS_TO_ENABLE_ALARM in *. unfold u32 at 1 in Hfar.
        destruct (Z.lt_ge_cases (u32 (rtc_count (reads w)) + 50) (2 ^ 32)) as [Hs|Hw].
        -- rewrite Z.mod_small in Hfar by lia. exact Hfar.
        -- lia.
Qed.

(** X16: with a deadline ahead of the counter by at most 50 ticks,
    [lp_ticker_set_interrupt] does not return while the counter stays
    below the deadline's tick value: whatever the number of samplings
    allowed, if all of them are below it the call has not come back.  A
    counter that stands still blocks the call for good. *)
Theorem lp_ticker_set_interrupt_stalled (fuel : nat) (timestamp set_time : Z)
    (w : rtc_world) :
  us_to_ticks timestamp = Some set_time ->
  u32 (rtc_count (reads w)) < set_time ->
  set_time <= u32 (u32 (rtc_count (reads w)) + TICKS_TO_ENABLE_ALARM) ->
  (forall j, (j < fuel)%nat -> u32 (rtc_count (S (reads w) + j)) < set_time) ->
  lp_ticker_set_interrupt fuel timestamp w = None.
Proof.
  intros Hts Hgt Hnear Hst. unfold LpTicker.lp_ticker_set_interrupt.
  rewrite Hts. simpl.
  destruct (Z.leb_spec set_time (u32 (rtc_count (reads w)))) as [Hle|_]; [lia|].
  destruct (Z.leb_spec set_time
              (u32 (u32 (rtc_count (reads w)) + TICKS_TO_ENABLE_ALARM))) as [_|Hfar]; [|lia].
  rewrite poll_count_stalled; [reflexivity|exact Hst].
Qed.

(** X17: once the counter has reached 140737488, the largest tick value a
    32-bit deadline can have, [lp_ticker_set_interrupt] takes every
    deadline for elapsed: it samples the counter once and calls the
    expiration handler at once, whatever the timestamp. *)
Theorem lp_ticker_set_interrupt_late (fuel : nat) (timestamp : Z) (w : rtc_world) :
  0 <= timestamp < 2 ^ 32 ->
  140737488 <= u32 (rtc_count (reads w)) ->
  lp_ticker_set_interrupt fuel timestamp w =
  Some (mk_world (S (reads w))
          (log w ++ [EvGetCount (u32 (rtc_count (reads w))); EvIrqHandler])).
Proof.
  intros Hrange Hlate. unfold LpTicker.lp_ticker_set_interrupt.
  destruct (us_to_ticks_total timestamp Hrange) as (set_time & Hts & Hst).
  rewrite Hts. simpl.
  destruct (Z.leb_spec set_time (u32 (rtc_count (reads w)))) as [_|Hgt]; [|lia].
  rewrite rtc1_Callback_alarm by exact alarm_bit_nonneg.
  unfold emit. simpl. rewrite <- app_assoc. reflexivity.
Qed.

End Rtc.

Lemma lp_ticker_read_defined_witness :
  (is_Some (lp_ticker_read slow_count (mk_world 6 [])) <->
   u32 (slow_count (reads (mk_world 6 []))) <= 140737480) /\
  (forall v w', lp_ticker_read slow_count (mk_world 6 []) = Some (v, w') ->
     0 <= v <= 4294966784).
Proof. apply (lp_ticker_read_defined slow_count (mk_world 6 [])). Defined.

Lemma lp_ticker_read_monotone_witness :
  lp_ticker_read slow_count (mk_world 6 []) = Some (91, mk_world 7 [EvGetCount 3]) /\
  lp_ticker_read slow_count (mk_world 8 []) = Some (122, mk_world 9 [EvGetCount 4]) /\
  91 <= 122.
Proof.
  split; [vm_compute; reflexivity|]. split; [vm_compute; reflexivity|].
  apply (lp_ticker_read_monotone slow_count (mk_world 6 []) (mk_world 8 [])
           (mk_world 7 [EvGetCount 3]) (mk_world 9 [EvGetCount 4]) 91 122).
  - vm_compute. reflexivity.
  - vm_compute. reflexivity.
  - vm_compute. discriminate.
Defined.

Lemma lp_ticker_read_accuracy_witness :
  exists v w',
    lp_ticker_read slow_count (mk_world 6 []) = Some (v, w') /\
    u32 (slow_count (reads (mk_world 6 []))) * 1000000 / 32768 <= v
      <= u32 (slow_count (reads (mk_world 6 []))) * 1000000 / 32768 + 1 /\
    reads w' = S (reads (mk_world 6 [])) /\
    log w' = log (mk_world 6 []) ++ [EvGetCount (u32 (slow_count (reads (mk_world 6 []))))].
Proof.
  apply (lp_ticker_read_accuracy slow_count (mk_world 6 [])). vm_compute. reflexivity.
Defined.

Lemma lp_ticker_set_interrupt_outcome_witness :
  exists set_time new,
    us_to_ticks 100 = Some set_time /\
    log (mk_world 7 [EvGetCount 0; EvGetCount 0; EvGetCount 1; EvGetCount 1;
                     EvGetCount 2; EvGetCount 2; EvGetCount 3; EvIrqHandler])
      = log power_on ++ new /\
    ((handler_calls new = 1%nat /\ existsb touches_alarm new = false /\
      last new = Some EvIrqHandler)
     \/
     (handler_calls new = 0%nat /\ EvSetAlarm set_time ∈ new /\
      u32 (slow_count (reads power_on)) + TICKS_TO_ENABLE_ALARM < set_time)).
Proof.
  apply (lp_ticker_set_interrupt_outcome slow_count 0 ltac:(lia) 8 100 power_on).
  - lia.
  - vm_compute. reflexivity.
Defined.

Lemma lp_ticker_set_interrupt_stalled_witness :
  lp_ticker_set_interrupt late_count 0 8 31000 power_on = None.
Proof.
  apply (lp_ticker_set_interrupt_stalled late_count 0 8 31000 1015 power_on).
  - vm_compute. reflexivity.
  - vm_compute. reflexivity.
  - vm_compute. discriminate.
  - intros j _. vm_compute. reflexivity.
Defined.

Lemma lp_ticker_set_interrupt_late_witness :
  lp_ticker_set_interrupt (fun _ => 2 ^ 28) 0 0 4294967295 power_on =
  Some (mk_world (S (reads power_on))
          (log power_on ++ [EvGetCount (u32 (2 ^ 28)); EvIrqHandler])).
Proof.
  apply (lp_ticker_set_interrupt_late (fun _ => 2 ^ 28) 0 ltac:(lia) 0 4294967295 power_on).
  - lia.
  - vm_compute. discriminate.
Defined.

End LpTickerApiFacts.

(* ===================================================================== *)
(** * Facts about trng_api.c                                              *)
(* ===================================================================== *)

Module TrngFacts.
Import Trng TrngSpec.

Lemma ready_count_S (rdy : nat -> bool) (from n : nat) :
  ready_count rdy from (S n) =
  ((if rdy from then 1 else 0) + ready_count rdy (S from) n)%nat.
Proof.
  unfold ready_count. simpl seq. rewrite filter_cons.
  destruct (rdy from); simpl; reflexivity.
Qed.

Lemma ready_count_last (rdy : nat -> bool) (from n : nat) :
  ready_count rdy from (S n) =
  (ready_count rdy from n + (if rdy (from + n)%nat then 1 else 0))%nat.
Proof.
  unfold ready_count. rewrite seq_S, filter_app, length_app. f_equal.
  rewrite filter_cons, filter_nil. destruct (rdy (from + n)%nat); reflexivity.
Qed.

Lemma low_bytes_S (data : nat -> Z) (from n : nat) :
  low_bytes data from (S n) = u8 (u32 (data from)) :: low_bytes data (S from) n.
Proof. reflexivity. Qed.

Lemma low_bytes_length (data : nat -> Z) (from n : nat) :
  length (low_bytes data from n) = n.
Proof. unfold low_bytes. rewrite length_map, length_seq. reflexivity. Qed.

Lemma low_bytes_range (data : nat -> Z) (from n : nat) :
  Forall (fun b => 0 <= b < 256) (low_bytes data from n).
Proof.
  unfold low_bytes. apply Forall_forall. intros b Hb.
  apply list_elem_of_fmap in Hb as (k & -> & _).
  unfold u8. apply Z.mod_pos_bound. lia.
Qed.

Section Rng.
Variable rdy : nat -> bool.
Variable data : nat -> Z.

Local Abbreviation get_bytes_loop := (Trng.get_bytes_loop rdy data).
Local Abbreviation trng_get_bytes := (Trng.trng_get_bytes rdy data).

(** The loop from index [i] with [n] bytes to go, when the buffer holds
    them and enough of the polls allowed find the generator ready. *)
Lemma get_bytes_loop_fills (len : Z) (fuel : nat) :
  forall (n : nat) (output : list Z) (i : Z) (w : rng_world),
    0 <= i -> i + Z.of_nat n = len -> len < 2 ^ 32 ->
    (Z.to_nat len <= length output)%nat ->
    (n <= ready_count rdy (polls w) fuel)%nat ->
    exists p,
      (p <= fuel)%nat /\
      ready_count rdy (polls w) p = n /\
      (forall q, (q < p)%nat -> (ready_count rdy (polls w) q < n)%nat) /\
      get_bytes_loop fuel output len i w =
      Some (take (Z.to_nat i) output ++ low_bytes data (fetches w) n
              ++ drop (Z.to_nat len) output,
            mk_rng (polls w + p) (fetches w + n)).
Proof.
  induction fuel as [|fuel IH]; intros n output i w Hi Hlen Hmax Hbuf Hrdy.
  - assert (n = 0%nat) as -> by (unfold ready_count in Hrdy; simpl in Hrdy; lia).
    exists 0%nat. split; [lia|]. split; [reflexivity|]. split; [intros q Hq; lia|]. simpl.
    assert (Hil : len = i) by lia. clear Hlen. subst len.
    destruct (Z.ltb_spec i i) as [?|_]; [lia|].
    rewrite !Nat.add_0_r, take_drop. destruct w. reflexivity.
  - destruct n as [|n].
    + exists 0%nat. split; [lia|]. split; [reflexivity|]. split; [intros q Hq; lia|]. simpl.
      assert (Hil : len = i) by lia. clear Hlen. subst len.
      destruct (Z.ltb_spec i i) as [?|_]; [lia|].
      rewrite !Nat.add_0_r, take_drop. destruct w. reflexivity.
    + simpl Trng.get_bytes_loop.
      destruct (Z.ltb_spec i len) as [Hlt|?]; [|lia].
      rewrite ready_count_S in Hrdy.
      destruct (rdy (polls w)) eqn:Hr.
      * unfold store.
        destruct (decide (Z.to_nat i < length output)%nat) as [Hin|?]; [|lia].
        simpl.
        assert (Hu : u32 (i + 1) = i + 1) by (unfold u32; apply Z.mod_small; lia).
        rewrite Hu.
        destruct (IH n (<[Z.to_nat i := u8 (u32 (data (fetches w)))]> output) (i + 1)
                    (mk_rng (S (polls w)) (S (fetches w))))
          as (p & Hp & Hrc & Hmin & Hloop);
          [lia|lia|lia|rewrite length_insert; lia|simpl; lia|].
        simpl in Hrc, Hmin, Hloop.
        exists (S p). split; [lia|]. split; [rewrite ready_count_S, Hr, Hrc; reflexivity|].
        split.
        { intros [|q] Hq; [unfold ready_count; simpl; lia|].
          rewrite ready_count_S, Hr. specialize (Hmin q ltac:(lia)). lia. }
        rewrite Hloop. f_equal. f_equal.
        -- replace (Z.to_nat (i + 1)) with (S (Z.to_nat i)) by lia.
           rewrite (take_S_r _ _ (u8 (u32 (data (fetches w)))))
             by (apply list_lookup_insert_eq; exact Hin).
           rewrite take_insert_ge by lia.
           rewrite drop_insert_lt by lia.
           rewrite <- app_assoc. reflexivity.
        -- f_equal; lia.
      * destruct (IH (S n) output i (mk_rng (S (polls w)) (fetches w)))
          as (p & Hp & Hrc & Hmin & Hloop); [lia|lia|lia|lia|simpl; lia|].
        simpl in Hrc, Hmin, Hloop.
        exists (S p). split; [lia|]. split; [rewrite ready_count_S, Hr, Hrc; reflexivity|].
        split.
        { intros [|q] Hq; [unfold ready_count; simpl; lia|].
          rewrite ready_count_S, Hr. specialize (Hmin q ltac:(lia)). lia. }
        rewrite Hloop. replace (polls w + S p)%nat with (S (polls w + p)) by lia.
        reflexivity.
Qed.

(** The loop has not ended when fewer polls found the generator ready than
    there are bytes to go. *)
Lemma get_bytes_loop_waits (len : Z) (fuel : nat) :
  forall (output : list Z) (i : Z) (w : rng_world),
    0 <= i -> len < 2 ^ 32 ->
    (ready_count rdy (polls w) fuel < Z.to_nat (len - i))%nat ->
    get_bytes_loop fuel output len i w = None.
Proof.
  induction fuel as [|fuel IH]; intros output i w Hi Hmax Hrdy; simpl.
  - destruct (Z.ltb_spec i len) as [_|?]; [reflexivity|lia].
  - destruct (Z.ltb_spec i len) as [Hlt|?]; [|lia].
    rewrite ready_count_S in Hrdy.
    destruct (rdy (polls w)) eqn:Hr.
    + destruct (store output i _) as [output'|]; simpl; [|reflexivity].
      assert (Hu : u32 (i + 1) = i + 1) by (unfold u32; apply Z.mod_small; lia).
      rewrite Hu. apply IH; [lia|lia|simpl; lia].
    + apply IH; [lia|lia|simpl; lia].
Qed.

(** The loop has no result when the buffer ends before [len]. *)
Lemma get_bytes_loop_overrun (len : Z) (fuel : nat) :
  forall (output : list Z) (i : Z) (w : rng_world),
    0 <= i -> len < 2 ^ 32 ->
    (Z.to_nat i <= length output)%nat -> (length output < Z.to_nat len)%nat ->
    get_bytes_loop fuel output len i w = None.
Proof.
  induction fuel as [|fuel IH]; intros output i w Hi Hmax Hin Hshort; simpl.
  - destruct (Z.ltb_spec i len) as [_|?]; [reflexivity|lia].
  - destruct (Z.ltb_spec i len) as [Hlt|?]; [|lia].
    destruct (rdy (polls w)) eqn:Hr.
    + unfold store.
      destruct (decide (Z.to_nat i < length output)%nat) as [Hlt'|?]; simpl; [|reflexivity].
      assert (Hu : u32 (i + 1) = i + 1) by (unfold u32; apply Z.mod_small; lia).
      rewrite Hu. apply IH; [lia|lia|rewrite length_insert; lia|rewrite length_insert; lia].
    + apply IH; assumption.
Qed.

(** X18: when the buffer has room for [length] bytes and at least
    [length] of the polls allowed find the generator ready,
    [trng_get_bytes] returns status 0 and [length] as the output length;
    the first [length] bytes of the buffer are the low bytes of the words
    fetched from the generator, in the order fetched, one word per byte;
    the rest of the buffer is as it was; and the polls made are those up
    to and including the one that delivered the last byte: the generator
    was ready [length] times in them and fewer times in any shorter run,
    so with [length] above 0 the last poll made found it ready. *)
Theorem trng_get_bytes_fills (fuel : nat) (output : list Z) (len : Z) (w : rng_world) :
  0 <= len < 2 ^ 32 ->
  (Z.to_nat len <= length output)%nat ->
  (Z.to_nat len <= ready_count rdy (polls w) fuel)%nat ->
  exists out' w',
    trng_get_bytes fuel output len w = Some (0, out', len, w') /\
    length out' = length output /\
    take (Z.to_nat len) out' = low_bytes data (fetches w) (Z.to_nat len) /\
    Forall (fun b => 0 <= b < 256) (take (Z.to_nat len) out') /\
    drop (Z.to_nat len) out' = drop (Z.to_nat len) output /\
    fetches w' = (fetches w + Z.to_nat len)%nat /\
    (polls w <= polls w' <= polls w + fuel)%nat /\
    ready_count rdy (polls w) (polls w' - polls w) = Z.to_nat len /\
    (forall q, (q < polls w' - polls w)%nat ->
       (ready_count rdy (polls w) q < Z.to_nat len)%nat) /\
    (0 < len -> (polls w < polls w')%nat /\ rdy (polls w' - 1) = true).
Proof.
  intros Hlen Hbuf Hrdy. unfold Trng.trng_get_bytes.
  destruct (get_bytes_loop_fills len fuel (Z.to_nat len) output 0 w)
    as (p & Hp & Hrc & Hmin & Hloop); [lia|lia|lia|exact Hbuf|exact Hrdy|].
  rewrite Hloop. simpl.
  eexists _, _. split; [reflexivity|].
  assert (Hl : length (low_bytes data (fetches w) (Z.to_nat len)) = Z.to_nat len)
    by apply low_bytes_length.
  assert (Htake : take (Z.to_nat len)
                    (low_bytes data (fetches w) (Z.to_nat len) ++ drop (Z.to_nat len) output)
                  = low_bytes data (fetches w) (Z.to_nat len)).
  { rewrite take_app_le by lia. apply take_ge. lia. }
  split; [rewrite length_app, length_drop, Hl; lia|].
  split; [exact Htake|].
  split; [rewrite Htake; apply low_bytes_range|].
  split; [rewrite drop_app_ge by lia; rewrite Hl, Nat.sub_diag; reflexivity|].
  simpl. split; [reflexivity|]. split; [lia|].
  replace (polls w + p - polls w)%nat with p by lia.
  split; [exact Hrc|]. split; [exact Hmin|].
  intros Hpos. destruct p as [|p].
  - unfold ready_count in Hrc. simpl in Hrc. lia.
  - split; [lia|]. specialize (Hmin p ltac:(lia)).
    rewrite ready_count_last in Hrc.
    replace (polls w + S p - 1)%nat with (polls w + p)%nat by lia.
    destruct (rdy (polls w + p)); [reflexivity|]. simpl in Hrc. lia.
Qed.

(** X19: [trng_get_bytes] has a result exactly when the buffer has room
    for [length] bytes and at least [length] of the polls allowed find the
    generator ready.  With fewer ready polls it is still waiting when the
    polls are used up, so a generator that never becomes ready blocks it
    for good; with a shorter buffer it would store past the end. *)
Theorem trng_get_bytes_returns (fuel : nat) (output : list Z) (len : Z) (w : rng_world) :
  0 <= len < 2 ^ 32 ->
  (is_Some (trng_get_bytes fuel output len w) <->
   (Z.to_nat len <= length output)%nat /\
   (Z.to_nat len <= ready_count rdy (polls w) fuel)%nat).
Proof.
  intros Hlen. split.
  - intros [r Hr]. unfold Trng.trng_get_bytes in Hr.
    destruct (get_bytes_loop fuel output len 0 w) as [[o w']|] eqn:Hloop;
      simpl in Hr; [|discriminate].
    split.
    + destruct (Nat.le_gt_cases (Z.to_nat len) (length output)) as [H|H]; [exact H|].
      rewrite get_bytes_loop_overrun in Hloop; [discriminate|lia|lia|simpl; lia|exact H].
    + destruct (Nat.le_gt_cases (Z.to_nat len) (ready_count rdy (polls w) fuel))
        as [H|H]; [exact H|].
      rewrite get_bytes_loop_waits in Hloop; [discriminate|lia|lia|].
      rewrite Z.sub_0_r. exact H.
  - intros [Hbuf Hrdy]. unfold Trng.trng_get_bytes.
    destruct (get_bytes_loop_fills len fuel (Z.to_nat len) output 0 w)
      as (p & Hp & Hrc & _ & Hloop); [lia|lia|lia|exact Hbuf|exact Hrdy|].
    rewrite Hloop. simpl. eexists. reflexivity.
Qed.

End Rng.

Lemma trng_get_bytes_fills_witness :
  exists out' w',
    trng_get_bytes demo_rdy demo_data 10 [0; 0; 0; 7] 3 (mk_rng 0 0)
      = Some (0, out', 3, w') /\
    length out' = length [0; 0; 0; 7] /\
    take (Z.to_nat 3) out' = low_bytes demo_data (fetches (mk_rng 0 0)) (Z.to_nat 3) /\
    Forall (fun b => 0 <= b < 256) (take (Z.to_nat 3) out') /\
    drop (Z.to_nat 3) out' = drop (Z.to_nat 3) [0; 0; 0; 7] /\
    fetches w' = (fetches (mk_rng 0 0) + Z.to_nat 3)%nat /\
    (polls (mk_rng 0 0) <= polls w' <= polls (mk_rng 0 0) + 10)%nat /\
    ready_count demo_rdy (polls (mk_rng 0 0)) (polls w' - polls (mk_rng 0 0)) = Z.to_nat 3 /\
    (forall q, (q < polls w' - polls (mk_rng 0 0))%nat ->
       (ready_count demo_rdy (polls (mk_rng 0 0)) q < Z.to_nat 3)%nat) /\
    (0 < 3 -> (polls (mk_rng 0 0) < polls w')%nat /\ demo_rdy (polls w' - 1) = true).
Proof.
  apply (trng_get_bytes_fills demo_rdy demo_data 10 [0; 0; 0; 7] 3 (mk_rng 0 0)).
  - lia.
  - vm_compute. lia.
  - vm_compute. lia.
Defined.

Lemma trng_get_bytes_returns_witness :
  is_Some (trng_get_bytes demo_rdy demo_data 8 [0; 0; 0; 7] 3 (mk_rng 0 0)) <->
  (Z.to_nat 3 <= length [0; 0; 0; 7])%nat /\
  (Z.to_nat 3 <= ready_count demo_rdy (polls (mk_rng 0 0)) 8)%nat.
Proof. apply (trng_get_bytes_returns demo_rdy demo_data 8 [0; 0; 0; 7] 3 (mk_rng 0 0)). lia. Defined.

(** The example generator: three bytes take nine polls, eight are not
    enough, and with more polls allowed the call still stops after the
    ninth. *)
Example demo_bytes :
  trng_get_bytes demo_rdy demo_data 9 [0; 0; 0; 7] 3 (mk_rng 0 0)
    = Some (0, [52; 53; 54; 7], 3, mk_rng 9 3) /\
  trng_get_bytes demo_rdy demo_data 8 [0; 0; 0; 7] 3 (mk_rng 0 0) = None /\
  trng_get_bytes demo_rdy demo_data 10 [0; 0; 0; 7] 3 (mk_rng 0 0)
    = Some (0, [52; 53; 54; 7], 3, mk_rng 9 3).
Proof. vm_compute. repeat split; reflexivity. Qed.

End TrngFacts.
